(** * A 3D maze game: maze generation and collision-based movement

    Shallow embedding of [src/js/maze.js] (generateMaze, carvePath), of the
    collision file (checkCollision) and of the movement part of the frame
    loop in [src/js/main.js] (animate), with the properties the
    specification states about them; then of createMazeObjects, of
    updateMinimap, of the whole frame of animate and of the start button
    of [src/js/controls.js], with further properties of the code.

    Conventions of the embedding.
    - JS numbers that index the grid are modelled as [Z]; world coordinates
      are modelled as exact rationals [Q] (rounding of doubles is not
      modelled).
    - A JS array is a finite map from integer keys to values: reading a key
      that was never written gives [undefined] ([None]); indexing
      [undefined] throws a TypeError.
    - [Math.random] is an oracle: a tape of naturals read left to right. *)

From Stdlib Require Import ZArith QArith Qround Qabs Lia Lqa String.
From stdpp Require Import base option list strings gmap.

Local Open Scope Z_scope.

(** ** Outcomes of a call *)

Inductive result (A : Type) : Type :=
| Ok (a : A)     (* normal completion *)
| TypeError      (* an uncaught TypeError: a property of [undefined] was read or set *)
| OutOfFuel.     (* the bound of the model on depth or iterations was reached *)
Arguments Ok {A} a.
Arguments TypeError {A}.
Arguments OutOfFuel {A}.

#[global] Instance result_ret : MRet result := @Ok.
#[global] Instance result_bind : MBind result := λ A B f m,
  match m with
  | Ok a => f a
  | TypeError => TypeError
  | OutOfFuel => OutOfFuel
  end.

Definition isOk {A} (m : result A) : bool :=
  match m with Ok _ => true | _ => false end.

(** ** The maze array *)

(** Cell codes, as in the comment of generateMaze: 1 = wall, 0 = path, 2 = exit. *)
Definition WALL : Z := 1.
Definition PATH : Z := 0.
Definition EXIT : Z := 2.

(** [maze[y][x]]: a TypeError when row [y] does not exist, [undefined]
    when the row has no element [x]. *)
Definition getCell (maze : gmap Z (gmap Z Z)) (y x : Z) : result (option Z) :=
  match maze !! y with
  | None => TypeError
  | Some row => Ok (row !! x)
  end.

(** [maze[y][x] = v]: a TypeError when row [y] does not exist; otherwise the
    element is set, whatever the index [x] is. *)
Definition setCell (maze : gmap Z (gmap Z Z)) (y x v : Z) : result (gmap Z (gmap Z Z)) :=
  match maze !! y with
  | None => TypeError
  | Some row => Ok (<[y := <[x := v]> row]> maze)
  end.

(** [c === v] for a value read from the array. *)
Definition strictEq (c : option Z) (v : Z) : bool :=
  match c with
  | Some w => w =? v
  | None => false
  end.

(** [for (let i = 0; i < n; i++) a = body(i, a)] *)
Fixpoint forUpTo {A} (n : nat) (body : Z → A → A) (a : A) : A :=
  match n with
  | O => a
  | S k => body (Z.of_nat k) (forUpTo k body a)
  end.

(** Lines 15-20 of generateMaze: every row is replaced by a new array filled
    with walls. *)
Definition wallRow (mazeSize : Z) : gmap Z Z :=
  forUpTo (Z.to_nat mazeSize) (λ j row, <[j := WALL]> row) ∅.

Definition fillWalls (mazeSize : Z) (mazeArray : gmap Z (gmap Z Z)) : gmap Z (gmap Z Z) :=
  forUpTo (Z.to_nat mazeSize) (λ i m, <[i := wallRow mazeSize]> m) mazeArray.

(** ** The random source *)

Record Rng := { tape : nat → nat; cursor : nat }.

(** [Math.floor(Math.random() * k)] for an integer [k]: any integer of
    [0, k) when [k] is positive, 0 when [k] is 0, any integer of [k, 0]
    when [k] is negative. *)
Definition randomFloor (k : Z) (r : Rng) : Z * Rng :=
  let n := Z.of_nat (tape r (cursor r)) in
  (if 0 <? k then n mod k else - (n mod (1 - k)),
   {| tape := tape r; cursor := S (cursor r) |}).

(** ** carvePath *)

Record Dir := { dx : Z; dy : Z }.

Definition directions : list Dir :=
  [ {| dx := 1; dy := 0 |};    (* Right *)
    {| dx := -1; dy := 0 |};   (* Left *)
    {| dx := 0; dy := 1 |};    (* Down *)
    {| dx := 0; dy := -1 |} ]. (* Up *)

(** [[ds[i], ds[j]] = [ds[j], ds[i]]] *)
Definition swap (ds : list Dir) (i j : nat) : list Dir :=
  match ds !! i, ds !! j with
  | Some a, Some b => <[j := a]> (<[i := b]> ds)
  | _, _ => ds
  end.

(** The shuffle loop of lines 33-36, entered with [i = ds.length - 1]. *)
Fixpoint shuffle (i : nat) (ds : list Dir) (r : Rng) : list Dir * Rng :=
  match i with
  | O => (ds, r)
  | S i' =>
      let '(j, r') := randomFloor (Z.of_nat i + 1) r in
      shuffle i' (swap ds i (Z.to_nat j)) r'
  end.

(** Lines 26-36: the four directions, shuffled. *)
Definition shuffleDirections (r : Rng) : list Dir * Rng :=
  shuffle (length directions - 1) directions r.

(** The loop over the shuffled directions, lines 38-53; [carve] is the
    recursive call. *)
Fixpoint forDirections (carve : Z → Z → gmap Z (gmap Z Z) * Rng → result (gmap Z (gmap Z Z) * Rng))
    (mazeSize cx cy : Z) (ds : list Dir) (st : gmap Z (gmap Z Z) * Rng)
    : result (gmap Z (gmap Z Z) * Rng) :=
  match ds with
  | [] => Ok st
  | dir :: rest =>
      let nx := cx + dx dir * 2 in
      let ny := cy + dy dir * 2 in
      st' ← (if (0 <=? nx) && (nx <? mazeSize) && (0 <=? ny) && (ny <? mazeSize) then
               c ← getCell st.1 ny nx;
               if strictEq c 1 then
                 g ← setCell st.1 (cy + dy dir) (cx + dx dir) PATH;
                 carve nx ny (g, st.2)
               else Ok st
             else Ok st);
      forDirections carve mazeSize cx cy rest st'
  end.

(** [fuel] bounds the depth of the recursion: a nested call gets one unit
    less, the loop over the directions uses none. *)
Fixpoint carvePath (fuel : nat) (mazeSize cx cy : Z) (st : gmap Z (gmap Z Z) * Rng)
    : result (gmap Z (gmap Z Z) * Rng) :=
  match fuel with
  | O => OutOfFuel
  | S fuel' =>
      g ← setCell st.1 cy cx PATH;
      let '(ds, r) := shuffleDirections st.2 in
      forDirections (carvePath fuel' mazeSize) mazeSize cx cy ds (g, r)
  end.

Arguments shuffleDirections : simpl never.

(** ** generateMaze *)

Record Vector3 := { vx : Q; vy : Q; vz : Q }.

(** main.js, line 22 *)
Definition CELL_SIZE : Q := 1.

(** [(i - mazeSize / 2 + 0.5) * CELL_SIZE] *)
Definition gridToWorld (mazeSize i : Z) : Q :=
  ((inject_Z i - inject_Z mazeSize / 2 + (1 # 2)) * CELL_SIZE)%Q.

(** The loop of lines 59-76; [fuel] bounds the number of iterations. *)
Fixpoint placeExit (fuel : nat) (mazeSize startX startY : Z)
    (mazeArray : gmap Z (gmap Z Z)) (exitPosVector : Vector3) (rng : Rng)
    : result (gmap Z (gmap Z Z) * Vector3 * Rng) :=
  match fuel with
  | O => OutOfFuel
  | S fuel' =>
      let '(a, r1) := randomFloor (mazeSize - 2) rng in
      let randX := a + 1 in
      let '(b, r2) := randomFloor (mazeSize - 2) r1 in
      let randY := b + 1 in
      c ← getCell mazeArray randY randX;
      if strictEq c 0 && negb ((randX =? startX) && (randY =? startY)) then
        g ← setCell mazeArray randY randX EXIT;
        Ok (g,
            {| vx := gridToWorld mazeSize randX; vy := 0; vz := gridToWorld mazeSize randY |},
            r2)
      else placeExit fuel' mazeSize startX startY mazeArray exitPosVector r2
  end.

(** [fuel] bounds both the depth of the carve and the number of samplings
    of the exit. *)
Definition generateMaze (fuel : nat) (mazeSize : Z) (mazeArray : gmap Z (gmap Z Z))
    (exitPosVector : Vector3) (startX startY : Z) (rng : Rng)
    : result (gmap Z (gmap Z Z) * Vector3 * Rng) :=
  '(g, r) ← carvePath fuel mazeSize startX startY (fillWalls mazeSize mazeArray, rng);
  placeExit fuel mazeSize startX startY g exitPosVector r.

(** ** checkCollision *)

(** What a call does to its collaborators: the elements of the maze array
    it reads, and its calls of [showMessageBox] and of
    [pointerControls.unlock]. *)
Inductive Event :=
| GridRead (z x : Z)
| ShowMessageBox (message : string)
| Unlock.

(** A computation that returns a value and the events of the call, in
    order. *)
Definition Eff (A : Type) : Type := result (A * list Event).

Definition andThen {A B} (m : Eff A) (k : A → Eff B) : Eff B :=
  '(a, t) ← m; '(b, t') ← k a; Ok (b, t ++ t').

Definition readCell (maze : gmap Z (gmap Z Z)) (z x : Z) : Eff (option Z) :=
  c ← getCell maze z x; Ok (c, [GridRead z x]).

Definition escaped : string := "🎉 Congratulations! You escaped the maze!".

(** [Math.floor(coord + mazeSize / 2)] *)
Definition worldToGrid (mazeSize : Z) (coord : Q) : Z :=
  Qfloor (coord + inject_Z mazeSize / 2)%Q.

Definition checkCollision (newPos : Vector3) (maze : gmap Z (gmap Z Z)) (mazeSize : Z)
    : Eff bool :=
  let gridX := worldToGrid mazeSize (vx newPos) in
  let gridZ := worldToGrid mazeSize (vz newPos) in
  if (gridX <? 0) || (gridX >=? mazeSize) || (gridZ <? 0) || (gridZ >=? mazeSize) then
    Ok (true, [])
  else
    andThen (readCell maze gridZ gridX) (λ c,
      if strictEq c 1 then Ok (true, [])
      else
        andThen (readCell maze gridZ gridX) (λ c',
          if strictEq c' 2 then Ok (false, [ShowMessageBox escaped; Unlock])
          else Ok (false, []))).

(** ** The movement step of animate *)

Record Player := {
  position : Vector3;
  direction : Vector3;
  velocity : Vector3;
  speed : Q
}.

Definition add (a b : Vector3) : Vector3 :=
  {| vx := vx a + vx b; vy := vy a + vy b; vz := vz a + vz b |}%Q.

Definition withPosition (player : Player) (p : Vector3) : Player :=
  {| position := p; direction := direction player;
     velocity := velocity player; speed := speed player |}.

Definition withVelocity (player : Player) (v : Vector3) : Player :=
  {| position := position player; direction := direction player;
     velocity := v; speed := speed player |}.

(** [p.clone()] with [x += v.x], and with [z += v.z]. *)
Definition shiftX (p v : Vector3) : Vector3 :=
  {| vx := vx p + vx v; vy := vy p; vz := vz p |}%Q.

Definition shiftZ (p v : Vector3) : Vector3 :=
  {| vx := vx p; vy := vy p; vz := vz p + vz v |}%Q.

(** Lines 196-235 of animate: the player as it is at line 196, with the
    velocity of this frame already computed, is moved against the maze.
    [mazeSize] is the constant MAZE_SIZE of main.js. *)
Definition animate (player : Player) (maze : gmap Z (gmap Z Z)) (mazeSize : Z) : Eff Player :=
  let newPos := add (position player) (velocity player) in
  andThen (checkCollision newPos maze mazeSize) (λ hit,
    if negb hit then Ok (withPosition player newPos, [])
    else
      let newPosX := shiftX (position player) (velocity player) in
      andThen (checkCollision newPosX maze mazeSize) (λ hitX,
        if negb hitX then Ok (withPosition player newPosX, [])
        else
          let newPosZ := shiftZ (position player) (velocity player) in
          andThen (checkCollision newPosZ maze mazeSize) (λ hitZ,
            if negb hitZ then Ok (withPosition player newPosZ, [])
            else Ok (withVelocity player {| vx := 0; vy := 0; vz := 0 |}, [])))).

(** main.js, lines 20 and 76-82 *)
Definition MAZE_SIZE : Z := 15.

Definition initGame (fuel : nat) (rng : Rng) : result (gmap Z (gmap Z Z) * Vector3 * Rng) :=
  generateMaze fuel MAZE_SIZE ∅ {| vx := 0; vy := 0; vz := 0 |}
    (MAZE_SIZE / 2) (MAZE_SIZE / 2) rng.

(** * The vocabulary of the statements *)

Definition inBounds (mazeSize x y : Z) : Prop :=
  0 ≤ x < mazeSize ∧ 0 ≤ y < mazeSize.

(** The cell of column [x] and row [y] holds the code [v]. *)
Definition cellIs (maze : gmap Z (gmap Z Z)) (x y v : Z) : Prop :=
  getCell maze y x = Ok (Some v).

(** A [mazeSize] x [mazeSize] grid: every cell within bounds holds a value. *)
Definition isGrid (mazeSize : Z) (maze : gmap Z (gmap Z Z)) : Prop :=
  ∀ x y, inBounds mazeSize x y → ∃ v, cellIs maze x y v.

(** A cell [(x, y)] of the grid that is not a wall: a path or the exit. *)
Definition openCell (mazeSize : Z) (maze : gmap Z (gmap Z Z)) (c : Z * Z) : Prop :=
  inBounds mazeSize c.1 c.2 ∧ (cellIs maze c.1 c.2 PATH ∨ cellIs maze c.1 c.2 EXIT).

(** One step right, left, down or up. *)
Definition adjacent (c c' : Z * Z) : Prop :=
  (c'.2 = c.2 ∧ (c'.1 = c.1 + 1 ∨ c'.1 = c.1 - 1)) ∨
  (c'.1 = c.1 ∧ (c'.2 = c.2 + 1 ∨ c'.2 = c.2 - 1)).

(** [c] is reached from [s] by steps of [adjacent] through open cells. *)
Inductive reach (mazeSize : Z) (maze : gmap Z (gmap Z Z)) (s : Z * Z) : Z * Z → Prop :=
| reach_start : openCell mazeSize maze s → reach mazeSize maze s s
| reach_step c c' :
    reach mazeSize maze s c → adjacent c c' → openCell mazeSize maze c' →
    reach mazeSize maze s c'.

(** What a run of the carve may do to a cell: leave it, or make it a path. *)
Definition evolves (maze maze' : gmap Z (gmap Z Z)) : Prop :=
  ∀ x y, getCell maze' y x = getCell maze y x ∨ cellIs maze' x y PATH.

(** A unit step along one axis. *)
Definition unitStep (d : Dir) : Prop :=
  (dy d = 0 ∧ (dx d = 1 ∨ dx d = -1)) ∨ (dx d = 0 ∧ (dy d = 1 ∨ dy d = -1)).

(** ** Decidable statements *)

#[global] Instance result_eq_dec {A} `{EqDecision A} : EqDecision (result A).
Proof. solve_decision. Defined.

#[global] Instance cellIs_dec maze x y v : Decision (cellIs maze x y v).
Proof. unfold cellIs. apply _. Defined.

#[global] Instance inBounds_dec mazeSize x y : Decision (inBounds mazeSize x y).
Proof. unfold inBounds. apply _. Defined.

(** ** The measure of the carve

    carvePath is only ever called on cells whose coordinates have the
    parity of the coordinates of the first cell: the nodes. The measure is
    the number of nodes that are still walls. *)

(** The indices of [0, mazeSize) of parity [p]. *)
Definition lane (mazeSize p : Z) : list Z :=
  filter (λ x, x mod 2 = p) (seqZ 0 mazeSize).

Definition nodes (mazeSize cx cy : Z) : list (Z * Z) :=
  list_prod (lane mazeSize (cx mod 2)) (lane mazeSize (cy mod 2)).

Definition wallNodes (mazeSize cx cy : Z) (maze : gmap Z (gmap Z Z)) : nat :=
  length (filter (λ c, cellIs maze c.1 c.2 WALL) (nodes mazeSize cx cy)).

(** The ceiling of [mazeSize / 2], squared. *)
Definition depthBound (mazeSize : Z) : nat :=
  Z.to_nat (((mazeSize + 1) / 2) ^ 2).

Definition allCells (mazeSize : Z) : list (Z * Z) :=
  list_prod (seqZ 0 mazeSize) (seqZ 0 mazeSize).

(** The number of wall cells of the grid. *)
Definition wallCount (mazeSize : Z) (maze : gmap Z (gmap Z Z)) : nat :=
  length (filter (λ c, cellIs maze c.1 c.2 WALL) (allCells mazeSize)).

(** ** What is proved of the recursive call and assumed of it in the loop *)

(** [carve], restricted to the cells that are walls when it is called. *)
Definition onWall
    (carve : Z → Z → gmap Z (gmap Z Z) * Rng → result (gmap Z (gmap Z Z) * Rng))
    (x y : Z) (st : gmap Z (gmap Z Z) * Rng) : result (gmap Z (gmap Z Z) * Rng) :=
  if decide (cellIs st.1 x y WALL) then carve x y st else TypeError.

(** [carve] keeps the property [Inv] of the grid, on cells that satisfy
    [Cur]. *)
Definition keepsInv (mazeSize : Z) (Inv : gmap Z (gmap Z Z) → Prop) (Cur : Z → Z → Prop)
    (carve : Z → Z → gmap Z (gmap Z Z) * Rng → result (gmap Z (gmap Z Z) * Rng)) : Prop :=
  ∀ cx cy maze r g1 st',
    isGrid mazeSize maze → inBounds mazeSize cx cy → Cur cx cy →
    setCell maze cy cx PATH = Ok g1 → Inv g1 →
    carve cx cy (maze, r) = Ok st' → Inv st'.1.

(** [carve] returns when it is given a node and enough depth for the
    walls that remain. *)
Definition returnsWithin (mazeSize : Z) (fuel : nat)
    (carve : Z → Z → gmap Z (gmap Z Z) * Rng → result (gmap Z (gmap Z Z) * Rng)) : Prop :=
  ∀ cx cy maze r g1,
    isGrid mazeSize maze → inBounds mazeSize cx cy →
    setCell maze cy cx PATH = Ok g1 →
    (wallNodes mazeSize cx cy g1 < fuel)%nat →
    ∃ st', carve cx cy (maze, r) = Ok st'.

(** [carve] raises no TypeError on a cell of a grid. *)
Definition neverThrows (mazeSize : Z)
    (carve : Z → Z → gmap Z (gmap Z Z) * Rng → result (gmap Z (gmap Z Z) * Rng)) : Prop :=
  ∀ cx cy st, isGrid mazeSize st.1 → inBounds mazeSize cx cy →
              carve cx cy st ≠ TypeError.

(** ** The shape of the maze *)

(** Every open cell is reached from [s]. *)
Definition connected (mazeSize : Z) (s : Z * Z) (maze : gmap Z (gmap Z Z)) : Prop :=
  ∀ c, openCell mazeSize maze c → reach mazeSize maze s c.

Definition exitVector (mazeSize ex ey : Z) : Vector3 :=
  {| vx := gridToWorld mazeSize ex; vy := 0; vz := gridToWorld mazeSize ey |}.

Definition onPerimeter (mazeSize x y : Z) : Prop :=
  x = 0 ∨ x = mazeSize - 1 ∨ y = 0 ∨ y = mazeSize - 1.

(** Every cell of the first and last rows and columns is a wall. *)
Definition enclosed (mazeSize : Z) (maze : gmap Z (gmap Z Z)) : Prop :=
  ∀ x y, inBounds mazeSize x y → onPerimeter mazeSize x y → cellIs maze x y WALL.

(** ** The exit event *)

(** The step reports that the exit is reached by calling showMessageBox. *)
Definition reachedExit (events : list Event) : bool :=
  existsb (λ ev, match ev with ShowMessageBox _ => true | _ => false end) events.

(** The position lies in the cell of the grid that holds the exit. *)
Definition inExitCell (mazeSize : Z) (maze : gmap Z (gmap Z Z)) (p : Vector3) : Prop :=
  inBounds mazeSize (worldToGrid mazeSize (vx p)) (worldToGrid mazeSize (vz p)) ∧
  cellIs maze (worldToGrid mazeSize (vx p)) (worldToGrid mazeSize (vz p)) EXIT.

(** Membership of a read in a list of events that is given in full. *)
Ltac read_in_list Hin Hb :=
  repeat (apply elem_of_cons in Hin as [Hin|Hin];
          [first [discriminate Hin | injection Hin as -> ->; exact Hb]|]);
  inversion Hin.

(** ** The draws of a run *)

(** [r2] is at the same place of its tape as [r], and the two tapes hold
    the same numbers from there up to [hi]. *)
Definition sameDraws (r r2 : Rng) (hi : nat) : Prop :=
  cursor r2 = cursor r ∧ ∀ n, (cursor r ≤ n < hi)%nat → tape r2 n = tape r n.

(** [r'] is [r] moved forward. *)
Definition laterOn (r r' : Rng) : Prop :=
  tape r' = tape r ∧ (cursor r ≤ cursor r')%nat.

(** A run reads its tape between its first and its last position only. *)
Definition readsItsDraws
    (carve : Z → Z → gmap Z (gmap Z Z) * Rng → result (gmap Z (gmap Z Z) * Rng)) : Prop :=
  ∀ x y g r g' r' r2,
    carve x y (g, r) = Ok (g', r') → sameDraws r r2 (cursor r') →
    carve x y (g, r2) = Ok (g', {| tape := tape r2; cursor := cursor r' |}).

(** ** A run of the generator, used to instantiate the theorems *)

Definition demoRng : Rng :=
  {| tape := λ n, ((n * n * 31 + n * 17 + 5) mod 1009)%nat; cursor := 0 |}.

Definition origin : Vector3 := {| vx := 0; vy := 0; vz := 0 |}.

Definition demoRun : result (gmap Z (gmap Z Z) * Vector3 * Rng) :=
  generateMaze 16 5 ∅ origin 1 1 demoRng.

Definition demoMaze : gmap Z (gmap Z Z) :=
  match demoRun with Ok (g, _, _) => g | _ => ∅ end.

Definition demoExit : Vector3 :=
  match demoRun with Ok (_, v, _) => v | _ => origin end.

Definition demoRng' : Rng :=
  match demoRun with Ok (_, _, r) => r | _ => demoRng end.

(** The codes of the grid, row by row; 9 stands for a missing element. *)
Definition rows (mazeSize : Z) (maze : gmap Z (gmap Z Z)) : list (list Z) :=
  (λ y, (λ x, match getCell maze y x with Ok (Some c) => c | _ => 9 end)
          <$> seqZ 0 mazeSize) <$> seqZ 0 mazeSize.

Definition farAway : Vector3 := {| vx := 7; vy := 0; vz := 0 |}.

(** A player of the demo maze, at the centre of the cell of column 3 and
    row 3, moving into a corner and along a wall. *)
Definition demoPlayer (v : Vector3) : Player :=
  {| position := {| vx := 1; vy := 16 # 10; vz := 1 |};
     direction := origin;
     velocity := v;
     speed := 15 # 100 |}.

Definition towardsCorner : Vector3 := {| vx := 6 # 10; vy := 0; vz := 6 # 10 |}.
Definition alongWall : Vector3 := {| vx := - (6 # 10); vy := 0; vz := 6 # 10 |}.

(** * More of the code *)

(** ** The player at load time and the start button *)

(** main.js, lines 12-17 *)
Definition initialPlayer : Player :=
  {| position := {| vx := 0; vy := 16 # 10; vz := 0 |};
     direction := {| vx := 0; vy := 0; vz := 0 |};
     velocity := {| vx := 0; vy := 0; vz := 0 |};
     speed := 15 # 100 |}.

(** Calls of the pointer lock controls. *)
Inductive PointerCall := LockPointer | UnlockPointer.

(** [(Math.floor(mazeSize / 2) - mazeSize / 2 + 0.5) * cellSize] *)
Definition startCoordinate (mazeSize : Z) (cellSize : Q) : Q :=
  ((inject_Z (Qfloor (inject_Z mazeSize / 2)) - inject_Z mazeSize / 2 + (1 # 2)) * cellSize)%Q.

(** The click handler of the start button, controls.js lines 123-131. *)
Definition startButtonClick (player : Player) (mazeSize : Z) (cellSize : Q)
    : Player * list PointerCall :=
  (withPosition player
     {| vx := startCoordinate mazeSize cellSize;
        vy := 16 # 10;
        vz := startCoordinate mazeSize cellSize |},
   [LockPointer]).

(** The position is in a cell of the grid that is not a wall. *)
Definition standsOpen (mazeSize : Z) (maze : gmap Z (gmap Z Z)) (p : Vector3) : Prop :=
  inBounds mazeSize (worldToGrid mazeSize (vx p)) (worldToGrid mazeSize (vz p)) ∧
  ∃ v, cellIs maze (worldToGrid mazeSize (vx p)) (worldToGrid mazeSize (vz p)) v ∧ v ≠ WALL.

(** The number of calls of showMessageBox among the events. *)
Definition messagesShown (events : list Event) : nat :=
  length (List.filter (λ ev, match ev with ShowMessageBox _ => true | _ => false end) events).

Definition demoRunCentre : result (gmap Z (gmap Z Z) * Vector3 * Rng) :=
  generateMaze 16 5 ∅ origin (5 / 2) (5 / 2) demoRng.

Definition demoMazeCentre : gmap Z (gmap Z Z) :=
  match demoRunCentre return gmap Z (gmap Z Z) with Ok (g, _, _) => g | _ => ∅ end.

Definition demoExitCentre : Vector3 :=
  match demoRunCentre return Vector3 with Ok (_, v, _) => v | _ => origin end.

Definition demoRngCentre : Rng :=
  match demoRunCentre return Rng with Ok (_, _, r) => r | _ => demoRng end.

Definition demoWalker : Player :=
  {| position := {| vx := -1; vy := 16 # 10; vz := -1 |};
     direction := origin;
     velocity := {| vx := 6 # 10; vy := 0; vz := 0 |};
     speed := 15 # 100 |}.

(** ** createMazeObjects *)

(** [for (let i = 0; i < n; i++) a = body(i, a)], with a body that may
    throw. *)
Fixpoint forUpToM {A} (n : nat) (body : Z → A → result A) (a : A) : result A :=
  match n with
  | O => Ok a
  | S k => a' ← forUpToM k body a; body (Z.of_nat k) a'
  end.

Inductive Geometry :=
| BoxGeometry (width height depth : Q)
| PlaneGeometry (width height : Q).

Inductive Material := wallMaterial | floorMaterial | exitMaterial.

(** The rotation about x of a mesh: none, or the [-Math.PI / 2] of the
    floor. *)
Inductive RotationX := Upright | LyingFlat.

(** A [THREE.Mesh], with the fields the code sets; a new mesh is at the
    origin, upright, and neither casts nor receives shadows. *)
Record Mesh := {
  geometry : Geometry;
  material : Material;
  meshPosition : Vector3;
  rotationX : RotationX;
  castShadow : bool;
  receiveShadow : bool
}.

(** main.js, line 21 *)
Definition WALL_HEIGHT : Q := 2.

(** [(i - mazeSize / 2 + 0.5) * cellSize] *)
Definition cellCentre (mazeSize : Z) (cellSize : Q) (i : Z) : Q :=
  ((inject_Z i - inject_Z mazeSize / 2 + (1 # 2)) * cellSize)%Q.

(** The block of lines 124-128 (wall) and 131-135 (exit), for the cell of
    column [x] and row [y]. *)
Definition blockMesh (mat : Material) (mazeSize : Z) (wallHeight cellSize : Q) (x y : Z)
    : Mesh :=
  {| geometry := BoxGeometry cellSize wallHeight cellSize;
     material := mat;
     meshPosition := {| vx := cellCentre mazeSize cellSize x;
                        vy := wallHeight / 2;
                        vz := cellCentre mazeSize cellSize y |}%Q;
     rotationX := Upright;
     castShadow := true;
     receiveShadow := true |}.

(** Lines 141-145 *)
Definition mainFloor (mazeSize : Z) (cellSize : Q) : Mesh :=
  {| geometry := PlaneGeometry (inject_Z mazeSize * cellSize) (inject_Z mazeSize * cellSize);
     material := floorMaterial;
     meshPosition := {| vx := 0; vy := - (5 # 100); vz := 0 |};
     rotationX := LyingFlat;
     castShadow := false;
     receiveShadow := true |}.

(** The body of the loops of lines 117-138, for one cell; the scene is the
    list of the objects added so far. *)
Definition addCellObject (mazeArray : gmap Z (gmap Z Z)) (mazeSize : Z)
    (wallHeight cellSize : Q) (y x : Z) (scene : list Mesh) : result (list Mesh) :=
  c ← getCell mazeArray y x;
  if strictEq c 1 then
    Ok (scene ++ [blockMesh wallMaterial mazeSize wallHeight cellSize x y])
  else
    c' ← getCell mazeArray y x;
    if strictEq c' 2 then
      Ok (scene ++ [blockMesh exitMaterial mazeSize wallHeight cellSize x y])
    else Ok scene.

Definition createMazeObjects (scene : list Mesh) (mazeArray : gmap Z (gmap Z Z))
    (mazeSize : Z) (wallHeight cellSize : Q) : result (list Mesh) :=
  scene' ← forUpToM (Z.to_nat mazeSize) (λ y scene,
              forUpToM (Z.to_nat mazeSize)
                (addCellObject mazeArray mazeSize wallHeight cellSize y) scene) scene;
  Ok (scene' ++ [mainFloor mazeSize cellSize]).

(** The block that createMazeObjects adds for a cell, if any. *)
Definition blockOf (maze : gmap Z (gmap Z Z)) (mazeSize : Z) (wallHeight cellSize : Q)
    (x y : Z) (m : Mesh) : Prop :=
  (cellIs maze x y WALL ∧ m = blockMesh wallMaterial mazeSize wallHeight cellSize x y) ∨
  (cellIs maze x y EXIT ∧ m = blockMesh exitMaterial mazeSize wallHeight cellSize x y).

(** The cell [(x, y)] gets a block: it is a wall or the exit. *)
Definition hasBlock (maze : gmap Z (gmap Z Z)) (c : Z * Z) : Prop :=
  cellIs maze c.1 c.2 WALL ∨ cellIs maze c.1 c.2 EXIT.

#[global] Instance hasBlock_dec maze c : Decision (hasBlock maze c).
Proof. unfold hasBlock. apply _. Defined.



(** ** updateMinimap *)

(** The calls that draw on the 2D context of the minimap canvas; [Arc] is
    the arc from angle 0 to [Math.PI * 2] of line 52. *)
Inductive DrawOp :=
| ClearRect (x y w h : Q)
| FillRect (style : string) (x y w h : Q)
| BeginPath
| Arc (x y radius : Q)
| Fill (style : string).

(** The context: its fill style, and what was drawn with it, in order. *)
Record Context2D := { fillStyle : string; drawn : list DrawOp }.

Definition setFillStyle (style : string) (ctx : Context2D) : Context2D :=
  {| fillStyle := style; drawn := drawn ctx |}.

Definition draw (op : DrawOp) (ctx : Context2D) : Context2D :=
  {| fillStyle := fillStyle ctx; drawn := drawn ctx ++ [op] |}.

(** The body of the loops of lines 32-43, for one cell. *)
Definition paintCell (maze : gmap Z (gmap Z Z)) (y x : Z) (ctx : Context2D)
    : result Context2D :=
  ctx' ← (c ← getCell maze y x;
          if strictEq c 1 then Ok (setFillStyle "#555" ctx)
          else
            c' ← getCell maze y x;
            if strictEq c' 0 then Ok (setFillStyle "#333" ctx)
            else
              c'' ← getCell maze y x;
              if strictEq c'' 2 then Ok (setFillStyle "gold" ctx)
              else Ok ctx);
  Ok (draw (FillRect (fillStyle ctx') (inject_Z x * 10) (inject_Z y * 10) 10 10)%Q ctx').

(** [(coord + mazeSize / 2 - 0.5) * 10 + 5], lines 47-48 *)
Definition playerMiniMap (mazeSize : Z) (coord : Q) : Q :=
  ((coord + inject_Z mazeSize / 2 - (1 # 2)) * 10 + 5)%Q.

Definition updateMinimap (player : Player) (maze : gmap Z (gmap Z Z)) (mazeSize : Z)
    (ctx : Context2D) (canvasWidth canvasHeight : Q) : result Context2D :=
  ctx' ← forUpToM (Z.to_nat mazeSize) (λ y ctx,
            forUpToM (Z.to_nat mazeSize) (paintCell maze y) ctx)
          (draw (ClearRect 0 0 canvasWidth canvasHeight) ctx);
  let playerMiniMapX := playerMiniMap mazeSize (vx (position player)) in
  let playerMiniMapY := playerMiniMap mazeSize (vz (position player)) in
  Ok (draw (Fill "red")
        (draw (Arc playerMiniMapX playerMiniMapY 4)
           (draw BeginPath (setFillStyle "red" ctx')))).

(** The style that paints a cell of code 1, 0 or 2. *)
Definition cellStyle (v : Z) (style : string) : Prop :=
  (v = 1 → style = "#555"%string) ∧ (v = 0 → style = "#333"%string) ∧
  (v = 2 → style = "gold"%string).

(** The square of the minimap for the cell of column [x] and row [y]. *)
Definition cellSquare (style : string) (x y : Z) : DrawOp :=
  FillRect style (inject_Z x * 10) (inject_Z y * 10) 10 10.

Definition blankContext : Context2D := {| fillStyle := "#000000"; drawn := [] |}.

(** ** The two expressions with the sums and products rounded

    [fl] is the rounding of each operation on numbers. Line 23 of
    checkCollision, [Math.floor(newPos.x + mazeSize / 2)], and line 47 of
    updateMinimap, [(player.position.x + mazeSize / 2 - 0.5) * 10 + 5]. *)
Definition worldToGridRounded (fl : Q → Q) (mazeSize : Z) (coord : Q) : Z :=
  Qfloor (fl (coord + fl (inject_Z mazeSize / 2)))%Q.

Definition playerMiniMapRounded (fl : Q → Q) (mazeSize : Z) (coord : Q) : Q :=
  fl (fl (fl (fl (coord + fl (inject_Z mazeSize / 2)) - (1 # 2)) * 10) + 5)%Q.

(** A rounding keeps the order, and is exact on the halves of the integers
    up to [bound] (for doubles: up to 2^53). *)
Definition isRounding (fl : Q → Q) (bound : Z) : Prop :=
  (∀ a b, (a <= b)%Q → (fl a <= fl b)%Q) ∧
  (∀ k, Z.abs k ≤ bound → (fl (inject_Z k / 2) == inject_Z k / 2)%Q).

(** ** A frame of animate

    Lines 133-235 of animate: friction, the direction asked by the keys and
    the left joystick, the new velocity, and the movement step. What the
    frame reads from the page and from three.js is its input. *)

Record Joystick := { jx : Q; jy : Q }.

Record FrameInput := {
  isLocked : bool;              (* pointerControls.isLocked *)
  orbitEnabled : bool;          (* orbitControls.enabled *)
  cameraMode : string;
  keys : gmap string bool;
  joystickLeftValue : Joystick;
  joystickRightActive : bool;
  joystickRightValue : Joystick;
  cameraDirection : Vector3;    (* what getDirection or getWorldDirection gives *)
  cameraUp : Vector3            (* camera.up *)
}.

(** [keys[k]] as a condition: a key that was never pressed is not down. *)
Definition keyDown (keys : gmap string bool) (k : string) : bool :=
  default false (keys !! k).

(** [a < b] on numbers *)
Definition ltQ (a b : Q) : bool := negb (Qle_bool b a).

(** Lines 141-163: the direction along x and z before it is normalized, and
    what is subtracted from the rotation about y of the camera holder. *)
Definition inputDirection (input : FrameInput) : Q * Q * Q :=
  let z := 0%Q in
  let x := 0%Q in
  if String.eqb (cameraMode input) "first-person" then
    let z := if keyDown (keys input) "w" || ltQ (jy (joystickLeftValue input)) (- (1 # 2))
             then (z - 1)%Q else z in
    let z := if keyDown (keys input) "s" || ltQ (1 # 2) (jy (joystickLeftValue input))
             then (z + 1)%Q else z in
    let x := if keyDown (keys input) "a" || ltQ (jx (joystickLeftValue input)) (- (1 # 2))
             then (x - 1)%Q else x in
    let x := if keyDown (keys input) "d" || ltQ (1 # 2) (jx (joystickLeftValue input))
             then (x + 1)%Q else x in
    let turn := if joystickRightActive input &&
                   ltQ (1 # 10) (Qabs (jx (joystickRightValue input)))
                then (jx (joystickRightValue input) * (5 # 100))%Q else 0%Q in
    (x, z, turn)
  else
    let z := if keyDown (keys input) "w" then (z - 1)%Q else z in
    let z := if keyDown (keys input) "s" then (z + 1)%Q else z in
    let x := if keyDown (keys input) "a" then (x - 1)%Q else x in
    let x := if keyDown (keys input) "d" then (x + 1)%Q else x in
    (x, z, 0%Q).

(** [new THREE.Vector3().crossVectors(a, b)] *)
Definition crossVectors (a b : Vector3) : Vector3 :=
  {| vx := vy a * vz b - vz a * vy b;
     vy := vz a * vx b - vx a * vz b;
     vz := vx a * vy b - vy a * vx b |}%Q.

(** [v.addScaledVector(d, s)] *)
Definition addScaledVector (v d : Vector3) (s : Q) : Vector3 :=
  {| vx := vx v + vx d * s; vy := vy v + vy d * s; vz := vz v + vz d * s |}%Q.

(** Lines 137-138: friction, with [delta = 1 / 60]. *)
Definition damped (v : Vector3) : Vector3 :=
  {| vx := vx v - vx v * 10 * (1 / 60);
     vy := vy v;
     vz := vz v - vz v * 10 * (1 / 60) |}%Q.

(** The frame; [normalize] is [Vector3.normalize] of three.js. It returns
    the player and what is subtracted from the rotation of the camera
    holder. *)
Definition animateFrame (normalize : Vector3 → Vector3) (input : FrameInput)
    (player : Player) (maze : gmap Z (gmap Z Z)) (mazeSize : Z) : Eff (Player * Q) :=
  if isLocked input || orbitEnabled input then
    let velocity1 := damped (velocity player) in
    let '(x, z, turn) := inputDirection input in
    let direction1 := normalize {| vx := x; vy := vy (direction player); vz := z |} in
    let worldDirection :=
      normalize {| vx := vx (cameraDirection input); vy := 0;
                   vz := vz (cameraDirection input) |} in
    let rightDirection := normalize (crossVectors (cameraUp input) worldDirection) in
    let velocity2 :=
      if negb (Qeq_bool (vz direction1) 0)
      then addScaledVector velocity1 worldDirection (vz direction1 * speed player * -1)
      else velocity1 in
    let velocity3 :=
      if negb (Qeq_bool (vx direction1) 0)
      then addScaledVector velocity2 rightDirection (vx direction1 * speed player * -1)
      else velocity2 in
    andThen (animate {| position := position player; direction := direction1;
                        velocity := velocity3; speed := speed player |} maze mazeSize)
            (λ player', Ok ((player', turn), []))
  else Ok ((player, 0%Q), []).

(** The frames of the loop, one after the other, each with its input. *)
Fixpoint animateFrames (normalize : Vector3 → Vector3) (inputs : list FrameInput)
    (player : Player) (maze : gmap Z (gmap Z Z)) (mazeSize : Z) : Eff Player :=
  match inputs with
  | [] => Ok (player, [])
  | input :: rest =>
      andThen (animateFrame normalize input player maze mazeSize) (λ out,
        animateFrames normalize rest out.1 maze mazeSize)
  end.

(** No direction is asked along z, and none along x: forward and backward
    are both asked or both not, and so are left and right. *)
Definition noNetInput (input : FrameInput) : Prop :=
  let first := String.eqb (cameraMode input) "first-person" in
  (keyDown (keys input) "w" || first && ltQ (jy (joystickLeftValue input)) (- (1 # 2))
   = keyDown (keys input) "s" || first && ltQ (1 # 2) (jy (joystickLeftValue input))) ∧
  (keyDown (keys input) "a" || first && ltQ (jx (joystickLeftValue input)) (- (1 # 2))
   = keyDown (keys input) "d" || first && ltQ (1 # 2) (jx (joystickLeftValue input))).

(** checkCollision returns true at the position. *)
Definition blockedAt (maze : gmap Z (gmap Z Z)) (mazeSize : Z) (p : Vector3) : Prop :=
  ∃ events, checkCollision p maze mazeSize = Ok (true, events).

(** The three candidate positions of a movement step are blocked. *)
Definition allBlocked (maze : gmap Z (gmap Z Z)) (mazeSize : Z) (pos vel : Vector3) : Prop :=
  blockedAt maze mazeSize (add pos vel) ∧ blockedAt maze mazeSize (shiftX pos vel) ∧
  blockedAt maze mazeSize (shiftZ pos vel).

(** A vector function that keeps a zero of x and a zero of z, as a
    scaling does. *)
Definition keepsZeros (f : Vector3 → Vector3) : Prop :=
  ∀ v, (vx v == 0 → vx (f v) == 0)%Q ∧ (vz v == 0 → vz (f v) == 0)%Q.

Definition demoInput (pressed : list string) : FrameInput :=
  {| isLocked := true;
     orbitEnabled := false;
     cameraMode := "first-person";
     keys := list_to_map ((λ k, (k, true)) <$> pressed);
     joystickLeftValue := {| jx := 0; jy := 0 |};
     joystickRightActive := false;
     joystickRightValue := {| jx := 0; jy := 0 |};
     cameraDirection := {| vx := 0; vy := 0; vz := -1 |};
     cameraUp := {| vx := 0; vy := 1; vz := 0 |} |}.

(** The identity, which is what [normalize] is on the vectors of length 1
    and on the zero vector: the vectors of the frames of [demoInput]. *)
Definition axisNormalize (v : Vector3) : Vector3 := v.

(** ** The maze spans the grid *)

(** Every cell of the grid is a wall or a path. *)
Definition wallsAndPaths (mazeSize : Z) (maze : gmap Z (gmap Z Z)) : Prop :=
  ∀ x y, inBounds mazeSize x y → cellIs maze x y WALL ∨ cellIs maze x y PATH.

(** A cell of the grid whose coordinates have the parity of [(cx, cy)]. *)
Definition isNode (mazeSize cx cy x y : Z) : Prop :=
  inBounds mazeSize x y ∧ x mod 2 = cx mod 2 ∧ y mod 2 = cy mod 2.

(** All the cells of the grid two steps from [(x, y)] are paths. *)
Definition settledAt (mazeSize : Z) (maze : gmap Z (gmap Z Z)) (x y : Z) : Prop :=
  ∀ d, unitStep d → inBounds mazeSize (x + dx d * 2) (y + dy d * 2) →
       cellIs maze (x + dx d * 2) (y + dy d * 2) PATH.

(** The nodes that a run turns from wall to path are settled when it ends. *)
Definition settles (mazeSize cx cy : Z) (maze maze' : gmap Z (gmap Z Z)) : Prop :=
  ∀ x y, isNode mazeSize cx cy x y → cellIs maze x y WALL → cellIs maze' x y PATH →
         settledAt mazeSize maze' x y.

(** ** The number of open cells *)

(** A passage, the cell between two nodes one step of the carve apart,
    is a path only when the node beyond it is. *)
Definition noLooseEnd (mazeSize cx cy : Z) (maze : gmap Z (gmap Z Z)) : Prop :=
  ∀ x y d, isNode mazeSize cx cy x y → unitStep d →
    inBounds mazeSize (x + dx d * 2) (y + dy d * 2) →
    cellIs maze (x + dx d) (y + dy d) PATH →
    cellIs maze (x + dx d * 2) (y + dy d * 2) PATH.

(** Each passage of the carve takes two cells off the walls and one off
    the nodes that are walls: [w] and [n] are the two counts at the start. *)
Definition carvesTree (mazeSize cx cy : Z) (w n : nat) (maze : gmap Z (gmap Z Z)) : Prop :=
  wallsAndPaths mazeSize maze ∧ noLooseEnd mazeSize cx cy maze ∧
  (wallCount mazeSize maze + 2 * n = w + 2 * wallNodes mazeSize cx cy maze)%nat.

#[global] Instance openCell_dec mazeSize maze c : Decision (openCell mazeSize maze c).
Proof. unfold openCell. apply _. Defined.

(** The number of cells of the grid that are not walls. *)
Definition openCount (mazeSize : Z) (maze : gmap Z (gmap Z Z)) : nat :=
  length (filter (openCell mazeSize maze) (allCells mazeSize)).

(** * Properties *)

(** ** Reading and writing cells *)

Lemma setCell_get maze y x v maze' y' x' :
  setCell maze y x v = Ok maze' →
  getCell maze' y' x' =
    if decide (y' = y ∧ x' = x) then Ok (Some v) else getCell maze y' x'.
Proof.
  unfold setCell, getCell. destruct (maze !! y) as [row|] eqn:Hrow; [|discriminate].
  intros [= <-]. destruct (decide (y' = y)) as [->|Hy].
  - rewrite lookup_insert_eq. destruct (decide (x' = x)) as [->|Hx].
    + rewrite lookup_insert_eq. rewrite decide_True; auto.
    + rewrite lookup_insert_ne by auto. rewrite Hrow, decide_False; auto. tauto.
  - rewrite lookup_insert_ne by auto. rewrite decide_False; auto. tauto.
Qed.

Lemma setCell_same maze y x v maze' :
  setCell maze y x v = Ok maze' → cellIs maze' x y v.
Proof.
  intros H. unfold cellIs. rewrite (setCell_get _ _ _ _ _ y x H).
  rewrite decide_True; auto.
Qed.

Lemma setCell_other maze y x v maze' y' x' :
  setCell maze y x v = Ok maze' → (x', y') ≠ (x, y) →
  getCell maze' y' x' = getCell maze y' x'.
Proof.
  intros H Hne. rewrite (setCell_get _ _ _ _ _ y' x' H).
  rewrite decide_False; auto. intros [-> ->]. auto.
Qed.

Lemma setCell_defined maze y x v w :
  cellIs maze x y w → ∃ maze', setCell maze y x v = Ok maze'.
Proof.
  unfold cellIs, getCell, setCell. destruct (maze !! y); [eauto|discriminate].
Qed.

Lemma setCell_TypeError maze y x v :
  maze !! y = None → setCell maze y x v = TypeError.
Proof. unfold setCell. intros ->. reflexivity. Qed.

Lemma strictEq_true c v : strictEq c v = true ↔ c = Some v.
Proof.
  destruct c as [w|]; simpl.
  - rewrite Z.eqb_eq. split; congruence.
  - split; discriminate.
Qed.

(** ** The frame of the carve *)

Lemma evolves_refl maze : evolves maze maze.
Proof. intros x y. auto. Qed.

Lemma evolves_trans m1 m2 m3 : evolves m1 m2 → evolves m2 m3 → evolves m1 m3.
Proof.
  intros H12 H23 x y. unfold cellIs in *.
  destruct (H23 x y) as [->|]; [apply H12 | auto].
Qed.

Lemma evolves_setCell maze y x maze' :
  setCell maze y x PATH = Ok maze' → evolves maze maze'.
Proof.
  intros H x' y'. rewrite (setCell_get _ _ _ _ _ y' x' H). unfold cellIs.
  rewrite (setCell_get _ _ _ _ _ y' x' H). destruct (decide _); auto.
Qed.

Lemma evolves_isGrid mazeSize maze maze' :
  evolves maze maze' → isGrid mazeSize maze → isGrid mazeSize maze'.
Proof.
  intros He Hg x y Hb. destruct (Hg x y Hb) as [v Hv].
  destruct (He x y) as [Hs|Hp]; [|eauto].
  exists v. unfold cellIs in *. congruence.
Qed.

Lemma evolves_path maze maze' x y :
  evolves maze maze' → cellIs maze x y PATH → cellIs maze' x y PATH.
Proof.
  intros He H. destruct (He x y) as [Hs|]; auto. unfold cellIs in *. congruence.
Qed.

Lemma evolves_wall maze maze' x y :
  evolves maze maze' → cellIs maze' x y WALL → cellIs maze x y WALL.
Proof.
  intros He H. destruct (He x y) as [Hs|Hp]; unfold cellIs, PATH, WALL in *; congruence.
Qed.

Lemma evolves_open mazeSize maze maze' c :
  evolves maze maze' → openCell mazeSize maze c → openCell mazeSize maze' c.
Proof.
  intros He [Hb Ho]. split; auto.
  destruct (He c.1 c.2) as [Hs|]; auto. unfold cellIs in *. rewrite Hs. auto.
Qed.

Lemma forDirections_evolves carve mazeSize cx cy ds :
  (∀ x y st st', carve x y st = Ok st' → evolves st.1 st'.1) →
  ∀ st st', forDirections carve mazeSize cx cy ds st = Ok st' → evolves st.1 st'.1.
Proof.
  intros Hc. induction ds as [|dir rest IH]; intros st st'; simpl.
  - intros [= <-]. apply evolves_refl.
  - destruct (_ && _); simpl.
    + destruct (getCell st.1 _ _) as [c| |] eqn:Hget; simpl; try discriminate.
      destruct (strictEq c 1).
      * destruct (setCell st.1 _ _ PATH) as [g| |] eqn:Hset; simpl; try discriminate.
        destruct (carve _ _ (g, st.2)) as [st1| |] eqn:Hcarve; simpl; try discriminate.
        intros H. apply IH in H. apply Hc in Hcarve. simpl in Hcarve.
        eapply evolves_trans; [|exact H].
        eapply evolves_trans; [|exact Hcarve]. eapply evolves_setCell; eauto.
      * apply IH.
    + apply IH.
Qed.

Lemma bind_Ok_inv {A B} (m : result A) (f : A → result B) b :
  m ≫= f = Ok b → ∃ a, m = Ok a ∧ f a = Ok b.
Proof. destruct m; simpl; try discriminate. eauto. Qed.

Lemma carvePath_S fuel mazeSize cx cy st :
  carvePath (S fuel) mazeSize cx cy st =
    (g ← setCell st.1 cy cx PATH;
     let '(ds, r) := shuffleDirections st.2 in
     forDirections (carvePath fuel mazeSize) mazeSize cx cy ds (g, r)).
Proof. reflexivity. Qed.

Lemma carvePath_evolves fuel mazeSize :
  ∀ cx cy st st', carvePath fuel mazeSize cx cy st = Ok st' → evolves st.1 st'.1.
Proof.
  induction fuel as [|fuel IH]; intros cx cy st st'; [discriminate|].
  rewrite carvePath_S. intros H. apply bind_Ok_inv in H as (g & Hset & H).
  destruct (shuffleDirections _) as [ds r].
  apply (forDirections_evolves _ _ _ _ _ IH) in H. simpl in H.
  eapply evolves_trans; [|exact H]. eapply evolves_setCell; eauto.
Qed.

(** ** The shuffle only reorders *)

Lemma swap_Forall (P : Dir → Prop) ds i j : Forall P ds → Forall P (swap ds i j).
Proof.
  intros H. unfold swap.
  destruct (ds !! i) as [a|] eqn:Ha; [|assumption].
  destruct (ds !! j) as [b|] eqn:Hb; [|assumption].
  apply Forall_insert; [apply Forall_insert|]; auto.
  - eapply Forall_lookup_1; eauto.
  - eapply Forall_lookup_1; eauto.
Qed.

Lemma shuffle_Forall (P : Dir → Prop) i : ∀ ds r, Forall P ds → Forall P (shuffle i ds r).1.
Proof.
  induction i as [|i IH]; intros ds r H; [assumption|].
  cbn [shuffle]. destruct (randomFloor _ r) as [j r']. apply IH, swap_Forall, H.
Qed.

Lemma shuffleDirections_unit r : Forall unitStep (shuffleDirections r).1.
Proof.
  apply shuffle_Forall. unfold directions, unitStep.
  repeat constructor; simpl; lia.
Qed.

Lemma guard_inBounds mazeSize x y :
  (0 <=? x) && (x <? mazeSize) && (0 <=? y) && (y <? mazeSize) = true ↔
  inBounds mazeSize x y.
Proof.
  unfold inBounds. rewrite !andb_true_iff, !Z.leb_le, !Z.ltb_lt. tauto.
Qed.

(** The cell one step from the current one and the cell two steps from it
    are different cells. *)
Lemma mid_next_ne cx cy d :
  unitStep d → (cx + dx d * 2, cy + dy d * 2) ≠ (cx + dx d, cy + dy d).
Proof. unfold unitStep. intros H [= H1 H2]. lia. Qed.

Lemma mid_inBounds mazeSize cx cy d :
  unitStep d → inBounds mazeSize cx cy →
  inBounds mazeSize (cx + dx d * 2) (cy + dy d * 2) →
  inBounds mazeSize (cx + dx d) (cy + dy d).
Proof. unfold unitStep, inBounds. lia. Qed.

(** ** A proof rule for the carve

    A property [Inv] of the grid that holds once the first cell is marked,
    and that carving one more passage from a path cell keeps, holds of the
    grid that carvePath returns. [Cur] is what is known of the cells the
    carve is called on. *)

Section CarveInvariant.
Variable mazeSize : Z.
Variable Inv : gmap Z (gmap Z Z) → Prop.
Variable Cur : Z → Z → Prop.

Hypothesis Inv_passage : ∀ maze cx cy d g1 g2,
  isGrid mazeSize maze → Inv maze →
  inBounds mazeSize cx cy → Cur cx cy → cellIs maze cx cy PATH →
  unitStep d →
  inBounds mazeSize (cx + dx d * 2) (cy + dy d * 2) →
  cellIs maze (cx + dx d * 2) (cy + dy d * 2) WALL →
  setCell maze (cy + dy d) (cx + dx d) PATH = Ok g1 →
  setCell g1 (cy + dy d * 2) (cx + dx d * 2) PATH = Ok g2 →
  Inv g2 ∧ Cur (cx + dx d * 2) (cy + dy d * 2).

Lemma forDirections_inv carve cx cy :
  keepsInv mazeSize Inv Cur carve →
  (∀ x y st st', carve x y st = Ok st' → evolves st.1 st'.1) →
  inBounds mazeSize cx cy → Cur cx cy →
  ∀ ds st st',
    Forall unitStep ds → isGrid mazeSize st.1 → Inv st.1 → cellIs st.1 cx cy PATH →
    forDirections carve mazeSize cx cy ds st = Ok st' → Inv st'.1.
Proof.
  intros Hk He Hb Hc. induction ds as [|d rest IH]; intros st st' Hds Hg Hi Hp.
  - intros [= <-]. assumption.
  - cbn [forDirections]. inversion Hds as [|? ? Hd Hrest]; subst.
    intros H. apply bind_Ok_inv in H as (st1 & Hstep & H).
    revert H. apply IH; auto; clear IH.
    + destruct (_ && _) eqn:Hguard; [|injection Hstep as <-; assumption].
      apply bind_Ok_inv in Hstep as (c & Hget & Hstep).
      destruct (strictEq c 1) eqn:Hc1; [|injection Hstep as <-; assumption].
      apply bind_Ok_inv in Hstep as (g & Hset & Hstep).
      apply He in Hstep. simpl in Hstep.
      eapply evolves_isGrid; [exact Hstep|].
      eapply evolves_isGrid; [eapply evolves_setCell; eauto|assumption].
    + destruct (_ && _) eqn:Hguard; [|injection Hstep as <-; assumption].
      apply guard_inBounds in Hguard.
      apply bind_Ok_inv in Hstep as (c & Hget & Hstep).
      destruct (strictEq c 1) eqn:Hc1; [|injection Hstep as <-; assumption].
      apply strictEq_true in Hc1. subst c.
      apply bind_Ok_inv in Hstep as (g & Hset & Hstep).
      assert (Hwall : cellIs g (cx + dx d * 2) (cy + dy d * 2) WALL).
      { unfold cellIs. rewrite (setCell_other _ _ _ _ _ _ _ Hset); auto.
        apply mid_next_ne; auto. }
      destruct (setCell_defined g _ _ PATH _ Hwall) as [g2 Hset2].
      destruct (Inv_passage st.1 cx cy d g g2) as [Hi2 Hc2]; auto.
      eapply (Hk _ _ g _ g2); eauto.
      eapply evolves_isGrid; [eapply evolves_setCell; eauto|assumption].
    + destruct (_ && _) eqn:Hguard; [|injection Hstep as <-; assumption].
      apply bind_Ok_inv in Hstep as (c & Hget & Hstep).
      destruct (strictEq c 1) eqn:Hc1; [|injection Hstep as <-; assumption].
      apply bind_Ok_inv in Hstep as (g & Hset & Hstep).
      apply He in Hstep. simpl in Hstep.
      eapply evolves_path; [exact Hstep|].
      eapply evolves_path; [eapply evolves_setCell; eauto|assumption].
Qed.

Lemma carvePath_inv fuel : keepsInv mazeSize Inv Cur (carvePath fuel mazeSize).
Proof.
  induction fuel as [|fuel IH]; intros cx cy maze r g1 st' Hg Hb Hc Hset Hi;
    [discriminate|].
  rewrite carvePath_S. simpl fst. simpl snd. rewrite Hset.
  change (Ok g1 ≫= ?f) with (f g1). cbv beta.
  pose proof (shuffleDirections_unit r) as Hds.
  destruct (shuffleDirections r) as [ds r1]. simpl in Hds.
  apply (forDirections_inv _ cx cy IH (carvePath_evolves fuel mazeSize) Hb Hc); auto.
  - simpl. eapply evolves_isGrid; [eapply evolves_setCell; eauto|assumption].
  - simpl. eapply setCell_same; eauto.
Qed.
End CarveInvariant.

(** ** Termination of the carve *)

Lemma filter_length_le {A} (P Q : A → Prop) `{∀ x, Decision (P x)} `{∀ x, Decision (Q x)}
    (l : list A) :
  (∀ x, x ∈ l → P x → Q x) → (length (filter P l) ≤ length (filter Q l))%nat.
Proof.
  induction l as [|a l IH]; intros HPQ; [reflexivity|].
  assert (IH' : (length (filter P l) ≤ length (filter Q l))%nat).
  { apply IH. intros x Hx. apply HPQ. right. exact Hx. }
  rewrite !filter_cons. destruct (decide (P a)) as [Hp|Hp].
  - rewrite decide_True by (apply HPQ; [left|exact Hp]). simpl. lia.
  - destruct (decide (Q a)); simpl; lia.
Qed.

Lemma filter_length_lt {A} (P Q : A → Prop) `{∀ x, Decision (P x)} `{∀ x, Decision (Q x)}
    (l : list A) a :
  (∀ x, x ∈ l → P x → Q x) → a ∈ l → Q a → ¬ P a →
  (length (filter P l) < length (filter Q l))%nat.
Proof.
  induction l as [|b l IH]; intros HPQ Ha Hq Hp; [inversion Ha|].
  assert (Hle : (length (filter P l) ≤ length (filter Q l))%nat).
  { apply filter_length_le. intros x Hx. apply HPQ. right. exact Hx. }
  rewrite !filter_cons. apply elem_of_cons in Ha as [<-|Ha].
  - rewrite decide_False, decide_True by assumption. simpl. lia.
  - assert (IH' : (length (filter P l) < length (filter Q l))%nat).
    { apply IH; auto. intros x Hx. apply HPQ. right. exact Hx. }
    destruct (decide (P b)) as [Hpb|Hpb].
    + rewrite decide_True by (apply HPQ; [left|exact Hpb]). simpl. lia.
    + destruct (decide (Q b)); simpl; lia.
Qed.

Lemma lane_count p (n : nat) :
  0 ≤ p ≤ 1 →
  Z.of_nat (length (lane (Z.of_nat n) p)) = (Z.of_nat n + 1 - p) / 2.
Proof.
  intros Hp. unfold lane. induction n as [|n IH].
  - rewrite seqZ_nil by lia. simpl. Z.to_euclidean_division_equations. lia.
  - rewrite seqZ_S, filter_app, length_app, Nat2Z.inj_add, IH.
    rewrite filter_cons, filter_nil.
    destruct (decide _) as [Hm|Hm]; simpl length;
      Z.to_euclidean_division_equations; lia.
Qed.

Lemma lane_length mazeSize p :
  0 ≤ p ≤ 1 → Z.of_nat (length (lane mazeSize p)) ≤ Z.max 0 ((mazeSize + 1) / 2).
Proof.
  intros Hp. destruct (Z.le_gt_cases 0 mazeSize) as [Hn|Hn].
  - rewrite <- (Z2Nat.id mazeSize) at 1 by assumption. rewrite lane_count by assumption.
    rewrite Z2Nat.id by assumption. Z.to_euclidean_division_equations. lia.
  - unfold lane. rewrite seqZ_nil by lia. simpl. lia.
Qed.

Lemma nodes_length mazeSize cx cy :
  (length (nodes mazeSize cx cy) ≤ depthBound mazeSize)%nat.
Proof.
  unfold nodes, depthBound. rewrite length_prod.
  pose proof (lane_length mazeSize (cx mod 2)) as Hx.
  pose proof (lane_length mazeSize (cy mod 2)) as Hy.
  assert (0 ≤ cx mod 2 ≤ 1) as Hcx by (Z.to_euclidean_division_equations; lia).
  assert (0 ≤ cy mod 2 ≤ 1) as Hcy by (Z.to_euclidean_division_equations; lia).
  specialize (Hx Hcx). specialize (Hy Hcy).
  set (a := length (lane mazeSize (cx mod 2))) in *.
  set (b := length (lane mazeSize (cy mod 2))) in *.
  set (h := (mazeSize + 1) / 2) in *.
  apply Nat2Z.inj_le. rewrite Nat2Z.inj_mul.
  destruct (Z.le_gt_cases 0 h).
  - rewrite Z2Nat.id by nia. nia.
  - assert (a = 0%nat) by lia. assert (b = 0%nat) by lia. subst a b.
    replace (length (lane mazeSize (cx mod 2)) : nat) with 0%nat by lia. lia.
Qed.

Lemma elem_of_nodes mazeSize cx cy x y :
  (x, y) ∈ nodes mazeSize cx cy ↔
  inBounds mazeSize x y ∧ x mod 2 = cx mod 2 ∧ y mod 2 = cy mod 2.
Proof.
  unfold nodes, lane, inBounds. rewrite list_elem_of_In, in_prod_iff, <- !list_elem_of_In.
  rewrite !list_elem_of_filter, !elem_of_seqZ. lia.
Qed.

Lemma nodes_next mazeSize cx cy d :
  nodes mazeSize (cx + dx d * 2) (cy + dy d * 2) = nodes mazeSize cx cy.
Proof. unfold nodes. rewrite !Z.mod_add by lia. reflexivity. Qed.

Lemma wallNodes_next mazeSize cx cy d maze :
  wallNodes mazeSize (cx + dx d * 2) (cy + dy d * 2) maze = wallNodes mazeSize cx cy maze.
Proof. unfold wallNodes. rewrite nodes_next. reflexivity. Qed.

Lemma wallNodes_evolves mazeSize cx cy maze maze' :
  evolves maze maze' → (wallNodes mazeSize cx cy maze' ≤ wallNodes mazeSize cx cy maze)%nat.
Proof.
  intros He. apply filter_length_le. intros c _. apply evolves_wall, He.
Qed.

(** Marking a node that is a wall lowers the measure. *)
Lemma wallNodes_setCell mazeSize cx cy maze maze' :
  inBounds mazeSize cx cy → cellIs maze cx cy WALL →
  setCell maze cy cx PATH = Ok maze' →
  (wallNodes mazeSize cx cy maze' < wallNodes mazeSize cx cy maze)%nat.
Proof.
  intros Hb Hw Hset. apply (filter_length_lt _ _ _ (cx, cy)).
  - intros c _. apply evolves_wall. eapply evolves_setCell; eauto.
  - apply elem_of_nodes. auto.
  - exact Hw.
  - simpl. intros Hw'. apply setCell_same in Hset.
    unfold cellIs, PATH, WALL in *. congruence.
Qed.

Section CarveTerminates.
Variable mazeSize : Z.

Lemma forDirections_total fuel carve cx cy :
  returnsWithin mazeSize fuel carve →
  (∀ x y st st', carve x y st = Ok st' → evolves st.1 st'.1) →
  inBounds mazeSize cx cy →
  ∀ ds st,
    Forall unitStep ds → isGrid mazeSize st.1 →
    (wallNodes mazeSize cx cy st.1 ≤ fuel)%nat →
    ∃ st', forDirections carve mazeSize cx cy ds st = Ok st'.
Proof.
  intros Hr He Hb. induction ds as [|d rest IH]; intros st Hds Hg Hw.
  - simpl. eauto.
  - cbn [forDirections]. inversion Hds as [|? ? Hd Hrest]; subst.
    destruct (_ && _) eqn:Hguard; [|apply IH; auto].
    apply guard_inBounds in Hguard.
    destruct (Hg _ _ Hguard) as [v Hv]. unfold cellIs in Hv. rewrite Hv.
    change (Ok (Some v) ≫= ?f) with (f (Some v)). cbv beta.
    destruct (strictEq (Some v) 1) eqn:Hv1; [|apply IH; auto].
    apply strictEq_true in Hv1. injection Hv1 as ->.
    destruct (Hg _ _ (mid_inBounds _ _ _ _ Hd Hb Hguard)) as [w Hmid].
    destruct (setCell_defined _ _ _ PATH _ Hmid) as [g Hset]. rewrite Hset.
    change (Ok g ≫= ?f) with (f g). cbv beta.
    assert (Hwall : cellIs g (cx + dx d * 2) (cy + dy d * 2) WALL).
    { unfold cellIs. rewrite (setCell_other _ _ _ _ _ _ _ Hset); auto.
      apply mid_next_ne; auto. }
    pose proof (evolves_setCell _ _ _ _ Hset) as Hev.
    destruct (setCell_defined g _ _ PATH _ Hwall) as [g2 Hset2].
    destruct (Hr (cx + dx d * 2) (cy + dy d * 2) g st.2 g2) as [st1 Hst1]; auto.
    { eapply evolves_isGrid; eauto. }
    { pose proof (wallNodes_setCell mazeSize _ _ _ _ Hguard Hwall Hset2) as Hlt.
      rewrite !wallNodes_next in Hlt. rewrite wallNodes_next.
      pose proof (wallNodes_evolves mazeSize cx cy _ _ Hev). lia. }
    rewrite Hst1. change (Ok st1 ≫= ?f) with (f st1). cbv beta.
    pose proof (He _ _ _ _ Hst1) as Hev1. simpl in Hev1.
    apply IH; auto.
    + eapply evolves_isGrid; [exact Hev1|]. eapply evolves_isGrid; eauto.
    + pose proof (wallNodes_evolves mazeSize cx cy _ _ Hev).
      pose proof (wallNodes_evolves mazeSize cx cy _ _ Hev1). lia.
Qed.

Lemma carvePath_total fuel : returnsWithin mazeSize fuel (carvePath fuel mazeSize).
Proof.
  induction fuel as [|fuel IH]; intros cx cy maze r g1 Hg Hb Hset Hw; [lia|].
  rewrite carvePath_S. simpl fst. simpl snd. rewrite Hset.
  change (Ok g1 ≫= ?f) with (f g1). cbv beta.
  pose proof (shuffleDirections_unit r) as Hds.
  destruct (shuffleDirections r) as [ds r1]. simpl in Hds.
  apply (forDirections_total fuel); auto.
  - apply carvePath_evolves.
  - simpl. eapply evolves_isGrid; [eapply evolves_setCell; eauto|assumption].
  - simpl. lia.
Qed.
End CarveTerminates.

(** ** The grid of walls *)

Lemma forUpTo_insert {V} (f : Z → V) (n : nat) (m : gmap Z V) k :
  forUpTo n (λ i acc, <[i := f i]> acc) m !! k =
    if decide (0 ≤ k < Z.of_nat n) then Some (f k) else m !! k.
Proof.
  induction n as [|n IH]; cbn [forUpTo].
  - rewrite decide_False by lia. reflexivity.
  - destruct (decide (k = Z.of_nat n)) as [->|Hne].
    + rewrite lookup_insert_eq, decide_True by lia. reflexivity.
    + rewrite lookup_insert_ne, IH by auto.
      destruct (decide (0 ≤ k < Z.of_nat n)).
      * rewrite decide_True by lia. reflexivity.
      * rewrite decide_False by lia. reflexivity.
Qed.

Lemma fillWalls_wall mazeSize mazeArray x y :
  inBounds mazeSize x y → cellIs (fillWalls mazeSize mazeArray) x y WALL.
Proof.
  intros [Hx Hy]. unfold cellIs, getCell, fillWalls, wallRow.
  rewrite (forUpTo_insert (λ _, _)), decide_True by lia.
  rewrite (forUpTo_insert (λ _, WALL)), decide_True by lia. reflexivity.
Qed.

Lemma fillWalls_isGrid mazeSize mazeArray : isGrid mazeSize (fillWalls mazeSize mazeArray).
Proof. intros x y Hb. exists WALL. apply fillWalls_wall, Hb. Qed.

Lemma fillWalls_nonpositive mazeSize mazeArray :
  mazeSize ≤ 0 → fillWalls mazeSize mazeArray = mazeArray.
Proof.
  intros H. unfold fillWalls. replace (Z.to_nat mazeSize) with 0%nat by lia. reflexivity.
Qed.

(** From the grid of walls, the carve returns within the depth bound. *)
Lemma carvePath_fillWalls mazeSize mazeArray startX startY r :
  inBounds mazeSize startX startY →
  ∃ st', carvePath (depthBound mazeSize) mazeSize startX startY
           (fillWalls mazeSize mazeArray, r) = Ok st'.
Proof.
  intros Hb. pose proof (fillWalls_wall mazeSize mazeArray _ _ Hb) as Hw.
  destruct (setCell_defined _ _ _ PATH _ Hw) as [g1 Hset].
  eapply carvePath_total; eauto using fillWalls_isGrid.
  pose proof (wallNodes_setCell mazeSize _ _ _ _ Hb Hw Hset) as Hlt.
  pose proof (nodes_length mazeSize startX startY) as Hn.
  assert ((wallNodes mazeSize startX startY (fillWalls mazeSize mazeArray)
           ≤ length (nodes mazeSize startX startY))%nat) by apply length_filter.
  lia.
Qed.

(** More depth than needed changes nothing. *)
Lemma forDirections_more (carve carve' : Z → Z → gmap Z (gmap Z Z) * Rng → result (gmap Z (gmap Z Z) * Rng))
    mazeSize cx cy ds :
  (∀ x y st st', carve x y st = Ok st' → carve' x y st = Ok st') →
  ∀ st st', forDirections carve mazeSize cx cy ds st = Ok st' →
            forDirections carve' mazeSize cx cy ds st = Ok st'.
Proof.
  intros Hc. induction ds as [|d rest IH]; intros st st'; [auto|].
  cbn [forDirections]. intros H. apply bind_Ok_inv in H as (st1 & Hstep & H).
  apply IH in H. destruct (_ && _).
  - apply bind_Ok_inv in Hstep as (c & Hget & Hstep). rewrite Hget.
    change (Ok c ≫= ?f) with (f c). cbv beta.
    destruct (strictEq c 1).
    + apply bind_Ok_inv in Hstep as (g & Hset & Hstep). rewrite Hset.
      change (Ok g ≫= ?f) with (f g). cbv beta.
      rewrite (Hc _ _ _ _ Hstep). exact H.
    + injection Hstep as <-. exact H.
  - injection Hstep as <-. exact H.
Qed.

Lemma carvePath_more mazeSize fuel : ∀ fuel' cx cy st st',
  (fuel ≤ fuel')%nat →
  carvePath fuel mazeSize cx cy st = Ok st' → carvePath fuel' mazeSize cx cy st = Ok st'.
Proof.
  induction fuel as [|fuel IH]; intros fuel' cx cy st st' Hle; [discriminate|].
  destruct fuel' as [|fuel']; [lia|]. rewrite !carvePath_S. intros H.
  apply bind_Ok_inv in H as (g & Hset & H). rewrite Hset.
  change (Ok g ≫= ?f) with (f g). cbv beta.
  destruct (shuffleDirections st.2) as [ds r].
  revert H. apply forDirections_more. intros x y s s'. apply IH. lia.
Qed.

(** ** What carvePath returns *)

Lemma carvePath_first fuel mazeSize cx cy st st' :
  carvePath fuel mazeSize cx cy st = Ok st' →
  ∃ g1, setCell st.1 cy cx PATH = Ok g1 ∧ evolves g1 st'.1.
Proof.
  destruct fuel as [|fuel]; [discriminate|]. rewrite carvePath_S. intros H.
  apply bind_Ok_inv in H as (g & Hset & H). exists g. split; [assumption|].
  destruct (shuffleDirections st.2) as [ds r].
  apply (forDirections_evolves _ _ _ _ _ (carvePath_evolves fuel mazeSize)) in H.
  exact H.
Qed.

Lemma carvePath_start fuel mazeSize cx cy st st' :
  carvePath fuel mazeSize cx cy st = Ok st' → cellIs st'.1 cx cy PATH.
Proof.
  intros H. apply carvePath_first in H as (g1 & Hset & He).
  eapply evolves_path; [exact He|]. eapply setCell_same; eauto.
Qed.

(** After the carve every cell of the grid is a wall or a path. *)
Lemma carvePath_codes fuel mazeSize mazeArray cx cy r st' x y :
  carvePath fuel mazeSize cx cy (fillWalls mazeSize mazeArray, r) = Ok st' →
  inBounds mazeSize x y → cellIs st'.1 x y WALL ∨ cellIs st'.1 x y PATH.
Proof.
  intros H Hb. apply carvePath_evolves in H. simpl in H.
  destruct (H x y) as [Hs|]; auto. left. unfold cellIs. rewrite Hs.
  apply fillWalls_wall, Hb.
Qed.

(** ** Connectivity *)

Lemma reach_mono mazeSize maze maze' s c :
  (∀ c, openCell mazeSize maze c → openCell mazeSize maze' c) →
  reach mazeSize maze s c → reach mazeSize maze' s c.
Proof.
  intros Ho. induction 1 as [Hs|c c' Hr IH Ha Hc].
  - apply reach_start; auto.
  - eapply reach_step; eauto.
Qed.

Lemma connected_passage mazeSize s maze cx cy d g1 g2 :
  connected mazeSize s maze →
  inBounds mazeSize cx cy → cellIs maze cx cy PATH →
  unitStep d →
  inBounds mazeSize (cx + dx d * 2) (cy + dy d * 2) →
  setCell maze (cy + dy d) (cx + dx d) PATH = Ok g1 →
  setCell g1 (cy + dy d * 2) (cx + dx d * 2) PATH = Ok g2 →
  connected mazeSize s g2.
Proof.
  intros Hconn Hb Hp Hd Hn Hset1 Hset2.
  pose proof (evolves_setCell _ _ _ _ Hset1) as He1.
  pose proof (evolves_setCell _ _ _ _ Hset2) as He2.
  pose proof (evolves_trans _ _ _ He1 He2) as He.
  assert (Hcur : reach mazeSize g2 s (cx, cy)).
  { apply (reach_mono mazeSize maze); [intros c; apply evolves_open, He|].
    apply Hconn. split; [exact Hb|left; exact Hp]. }
  assert (Hmid : reach mazeSize g2 s (cx + dx d, cy + dy d)).
  { apply (reach_step _ _ _ (cx, cy)); [exact Hcur| |].
    - unfold adjacent, unitStep in *. simpl. lia.
    - split; [apply mid_inBounds; auto|]. left. simpl.
      eapply evolves_path; [exact He2|]. eapply setCell_same; eauto. }
  assert (Hnext : reach mazeSize g2 s (cx + dx d * 2, cy + dy d * 2)).
  { apply (reach_step _ _ _ (cx + dx d, cy + dy d)); [exact Hmid| |].
    - unfold adjacent, unitStep in *. simpl. lia.
    - split; [exact Hn|]. left. simpl. eapply setCell_same; eauto. }
  intros [x y] [Hcb Hco]. simpl in Hcb, Hco.
  destruct (decide ((x, y) = (cx + dx d * 2, cy + dy d * 2))) as [->|Hne2]; [exact Hnext|].
  destruct (decide ((x, y) = (cx + dx d, cy + dy d))) as [->|Hne1]; [exact Hmid|].
  apply (reach_mono mazeSize maze); [intros c; apply evolves_open, He|].
  apply Hconn. split; [exact Hcb|]. simpl. unfold cellIs in *.
  rewrite (setCell_other _ _ _ _ _ _ _ Hset2 Hne2) in Hco.
  rewrite (setCell_other _ _ _ _ _ _ _ Hset1 Hne1) in Hco. exact Hco.
Qed.

Lemma connected_first mazeSize mazeArray startX startY g1 :
  inBounds mazeSize startX startY →
  setCell (fillWalls mazeSize mazeArray) startY startX PATH = Ok g1 →
  connected mazeSize (startX, startY) g1.
Proof.
  intros Hb Hset. assert (Hs : openCell mazeSize g1 (startX, startY)).
  { split; [exact Hb|]. left. simpl. eapply setCell_same; eauto. }
  intros [x y] [Hcb Hco]. simpl in Hcb, Hco.
  destruct (decide ((x, y) = (startX, startY))) as [->|Hne]; [apply reach_start, Hs|].
  exfalso. pose proof (fillWalls_wall mazeSize mazeArray x y Hcb) as Hw.
  unfold cellIs, WALL, PATH, EXIT in *.
  rewrite (setCell_other _ _ _ _ _ _ _ Hset Hne) in Hco.
  destruct Hco; congruence.
Qed.

Lemma carvePath_connected fuel mazeSize mazeArray startX startY r st' :
  inBounds mazeSize startX startY →
  carvePath fuel mazeSize startX startY (fillWalls mazeSize mazeArray, r) = Ok st' →
  connected mazeSize (startX, startY) st'.1.
Proof.
  intros Hb H. destruct (carvePath_first _ _ _ _ _ _ H) as (g1 & Hset & _).
  simpl in Hset.
  apply (carvePath_inv mazeSize (connected mazeSize (startX, startY)) (λ _ _, True))
    with (fuel := fuel) (cx := startX) (cy := startY)
         (maze := fillWalls mazeSize mazeArray) (r := r) (g1 := g1); auto.
  - intros maze cx cy d h1 h2 Hg Hi Hcb _ Hp Hd Hn Hw Hs1 Hs2. split; [|exact I].
    apply (connected_passage mazeSize _ maze cx cy d h1 h2); auto.
  - apply fillWalls_isGrid.
  - eapply connected_first; eauto.
Qed.

(** ** The exit *)

Lemma randomFloor_range k r : 0 < k → 0 ≤ (randomFloor k r).1 < k.
Proof.
  intros Hk. unfold randomFloor. simpl. destruct (Z.ltb_spec 0 k); [|lia].
  apply Z.mod_pos_bound. assumption.
Qed.

Lemma randomFloor_zero r : (randomFloor 0 r).1 = 0.
Proof. unfold randomFloor. simpl. rewrite Z.mod_1_r. reflexivity. Qed.

Lemma placeExit_Ok fuel mazeSize startX startY : ∀ maze v rng maze' v' rng',
  placeExit fuel mazeSize startX startY maze v rng = Ok (maze', v', rng') →
  ∃ ex ey,
    cellIs maze ex ey PATH ∧ (ex, ey) ≠ (startX, startY) ∧
    setCell maze ey ex EXIT = Ok maze' ∧ v' = exitVector mazeSize ex ey ∧
    (2 < mazeSize → 1 ≤ ex ≤ mazeSize - 2 ∧ 1 ≤ ey ≤ mazeSize - 2).
Proof.
  induction fuel as [|fuel IH]; intros maze v rng maze' v' rng'; [discriminate|].
  cbn [placeExit].
  pose proof (randomFloor_range (mazeSize - 2) rng) as Ha.
  destruct (randomFloor (mazeSize - 2) rng) as [a r1].
  pose proof (randomFloor_range (mazeSize - 2) r1) as Hb.
  destruct (randomFloor (mazeSize - 2) r1) as [b r2]. simpl in Ha, Hb.
  intros H. apply bind_Ok_inv in H as (c & Hget & H).
  destruct (strictEq c 0 && _) eqn:Hcond; [|eapply IH; eauto].
  apply bind_Ok_inv in H as (g & Hset & H). injection H as <- <- <-.
  apply andb_true_iff in Hcond as [Hc Hne]. apply strictEq_true in Hc. subst c.
  exists (a + 1), (b + 1). repeat split; auto; try lia.
  intros [= Hx Hy]. rewrite Hx, Hy, !Z.eqb_refl in Hne. discriminate.
Qed.

Lemma generateMaze_Ok fuel mazeSize mazeArray v startX startY rng maze v' rng' :
  generateMaze fuel mazeSize mazeArray v startX startY rng = Ok (maze, v', rng') →
  ∃ g1 r1 ex ey,
    carvePath fuel mazeSize startX startY (fillWalls mazeSize mazeArray, rng) = Ok (g1, r1) ∧
    cellIs g1 ex ey PATH ∧ (ex, ey) ≠ (startX, startY) ∧
    setCell g1 ey ex EXIT = Ok maze ∧ v' = exitVector mazeSize ex ey ∧
    (2 < mazeSize → 1 ≤ ex ≤ mazeSize - 2 ∧ 1 ≤ ey ≤ mazeSize - 2).
Proof.
  unfold generateMaze. intros H. apply bind_Ok_inv in H as ([g1 r1] & Hcarve & H).
  apply placeExit_Ok in H as (ex & ey & H). exists g1, r1, ex, ey. tauto.
Qed.

(** Marking the exit on a path cell keeps the open cells. *)
Lemma openCell_exit mazeSize g1 ex ey maze c :
  cellIs g1 ex ey PATH → setCell g1 ey ex EXIT = Ok maze →
  openCell mazeSize g1 c → openCell mazeSize maze c.
Proof.
  intros Hp Hset [Hb Ho]. split; [exact Hb|]. destruct c as [x y]. simpl in *.
  destruct (decide ((x, y) = (ex, ey))) as [[= -> ->]|Hne].
  - right. eapply setCell_same; eauto.
  - unfold cellIs in *. rewrite (setCell_other _ _ _ _ _ _ _ Hset Hne). exact Ho.
Qed.

Lemma openCell_exit_inv mazeSize g1 ex ey maze c :
  cellIs g1 ex ey PATH → setCell g1 ey ex EXIT = Ok maze →
  openCell mazeSize maze c → openCell mazeSize g1 c.
Proof.
  intros Hp Hset [Hb Ho]. split; [exact Hb|]. destruct c as [x y]. simpl in *.
  destruct (decide ((x, y) = (ex, ey))) as [[= -> ->]|Hne].
  - left. exact Hp.
  - unfold cellIs in *. rewrite (setCell_other _ _ _ _ _ _ _ Hset Hne) in Ho. exact Ho.
Qed.

(** ** The perimeter *)

Lemma enclosed_setCell mazeSize maze x y v maze' :
  enclosed mazeSize maze → 1 ≤ x ≤ mazeSize - 2 → 1 ≤ y ≤ mazeSize - 2 →
  setCell maze y x v = Ok maze' → enclosed mazeSize maze'.
Proof.
  intros He Hx Hy Hset x' y' Hb Hp. unfold cellIs.
  rewrite (setCell_other _ _ _ _ _ _ _ Hset); [apply He; auto|].
  unfold onPerimeter in Hp. intros [= -> ->]. lia.
Qed.

Lemma odd_interior mazeSize x :
  Z.Odd mazeSize → Z.Odd x → 0 ≤ x < mazeSize → 1 ≤ x ≤ mazeSize - 2.
Proof. intros [m ->] [k ->]. lia. Qed.

Lemma odd_next x d : Z.Odd x → Z.Odd (x + d * 2).
Proof. intros [k ->]. exists (k + d). lia. Qed.

Lemma carvePath_enclosed fuel mazeSize mazeArray startX startY r st' :
  Z.Odd mazeSize → inBounds mazeSize startX startY → Z.Odd startX → Z.Odd startY →
  carvePath fuel mazeSize startX startY (fillWalls mazeSize mazeArray, r) = Ok st' →
  enclosed mazeSize st'.1.
Proof.
  intros Hodd Hb Hox Hoy H. destruct (carvePath_first _ _ _ _ _ _ H) as (g1 & Hset & _).
  simpl in Hset.
  apply (carvePath_inv mazeSize (enclosed mazeSize) (λ x y, Z.Odd x ∧ Z.Odd y))
    with (fuel := fuel) (cx := startX) (cy := startY)
         (maze := fillWalls mazeSize mazeArray) (r := r) (g1 := g1); auto.
  - intros maze cx cy d h1 h2 Hg Hi [Hcx Hcy] [Hx Hy] Hp Hd [Hnx Hny] Hw Hs1 Hs2.
    pose proof (odd_next cx (dx d) Hx) as Hx2. pose proof (odd_next cy (dy d) Hy) as Hy2.
    pose proof (odd_interior _ _ Hodd Hx Hcx). pose proof (odd_interior _ _ Hodd Hy Hcy).
    pose proof (odd_interior _ _ Hodd Hx2 Hnx). pose proof (odd_interior _ _ Hodd Hy2 Hny).
    split; [|split; assumption].
    apply (enclosed_setCell mazeSize h1 (cx + dx d * 2) (cy + dy d * 2) PATH); auto.
    apply (enclosed_setCell mazeSize maze (cx + dx d) (cy + dy d) PATH); auto;
      unfold unitStep in Hd; lia.
  - apply fillWalls_isGrid.
  - destruct Hb as [Hbx Hby].
    apply (enclosed_setCell mazeSize (fillWalls mazeSize mazeArray) startX startY PATH);
      auto using odd_interior.
    intros x y Hxy _. apply fillWalls_wall, Hxy.
Qed.

(** ** The walls only decrease *)

Lemma elem_of_allCells mazeSize x y : (x, y) ∈ allCells mazeSize ↔ inBounds mazeSize x y.
Proof.
  unfold allCells, inBounds. rewrite list_elem_of_In, in_prod_iff, <- !list_elem_of_In.
  rewrite !elem_of_seqZ. lia.
Qed.

Lemma wallCount_evolves mazeSize maze maze' :
  evolves maze maze' → (wallCount mazeSize maze' ≤ wallCount mazeSize maze)%nat.
Proof. intros He. apply filter_length_le. intros c _. apply evolves_wall, He. Qed.

Lemma wallCount_setCell mazeSize cx cy maze maze' :
  inBounds mazeSize cx cy → cellIs maze cx cy WALL →
  setCell maze cy cx PATH = Ok maze' →
  (wallCount mazeSize maze' < wallCount mazeSize maze)%nat.
Proof.
  intros Hb Hw Hset. apply (filter_length_lt _ _ _ (cx, cy)).
  - intros c _. apply evolves_wall. eapply evolves_setCell; eauto.
  - apply elem_of_allCells. auto.
  - exact Hw.
  - simpl. intros Hw'. apply setCell_same in Hset.
    unfold cellIs, PATH, WALL in *. congruence.
Qed.

Lemma onWall_wall carve x y st :
  cellIs st.1 x y WALL → onWall carve x y st = carve x y st.
Proof. intros H. unfold onWall. rewrite decide_True by assumption. reflexivity. Qed.

Lemma forDirections_onWall carve mazeSize cx cy ds :
  Forall unitStep ds →
  ∀ st, forDirections (onWall carve) mazeSize cx cy ds st =
        forDirections carve mazeSize cx cy ds st.
Proof.
  induction ds as [|d rest IH]; intros Hds st; [reflexivity|].
  inversion Hds as [|? ? Hd Hrest]; subst. cbn [forDirections].
  destruct (_ && _); [|simpl; apply IH; assumption].
  destruct (getCell st.1 _ _) as [c| |] eqn:Hget; try reflexivity.
  change (Ok c ≫= ?f) with (f c). cbv beta.
  destruct (strictEq c 1) eqn:Hc; [|simpl; apply IH; assumption].
  apply strictEq_true in Hc. subst c.
  destruct (setCell st.1 _ _ PATH) as [g| |] eqn:Hset; try reflexivity.
  change (Ok g ≫= ?f) with (f g). cbv beta.
  rewrite onWall_wall.
  - destruct (carve _ _ (g, st.2)); try reflexivity. simpl. apply IH. assumption.
  - simpl. unfold cellIs. rewrite (setCell_other _ _ _ _ _ _ _ Hset); [exact Hget|].
    apply mid_next_ne. assumption.
Qed.

(** ** The carve reads its own draws only *)

Lemma laterOn_refl r : laterOn r r.
Proof. split; auto. Qed.

Lemma laterOn_trans r1 r2 r3 : laterOn r1 r2 → laterOn r2 r3 → laterOn r1 r3.
Proof. intros [H1 H2] [H3 H4]. split; [congruence|lia]. Qed.

Lemma shuffle_rng i : ∀ ds r,
  (shuffle i ds r).2 = {| tape := tape r; cursor := cursor r + i |}.
Proof.
  induction i as [|i IH]; intros ds r.
  - simpl. destruct r. simpl. f_equal. lia.
  - cbn [shuffle]. unfold randomFloor. rewrite IH. simpl. f_equal. lia.
Qed.

Lemma shuffle_sameDraws i : ∀ ds r r2,
  sameDraws r r2 (cursor r + i) → (shuffle i ds r2).1 = (shuffle i ds r).1.
Proof.
  induction i as [|i IH]; intros ds r r2 [Hc Ht]; [reflexivity|].
  cbn [shuffle]. unfold randomFloor. rewrite Hc, (Ht (cursor r)) by lia.
  apply IH. split; simpl; [reflexivity|]. intros n Hn. apply Ht. lia.
Qed.

Lemma shuffleDirections_rng r :
  (shuffleDirections r).2 = {| tape := tape r; cursor := cursor r + 3 |}.
Proof. apply shuffle_rng. Qed.

Lemma shuffleDirections_sameDraws r r2 :
  sameDraws r r2 (cursor r + 3) → (shuffleDirections r2).1 = (shuffleDirections r).1.
Proof. apply shuffle_sameDraws. Qed.

Lemma forDirections_laterOn carve mazeSize cx cy ds :
  (∀ x y st st', carve x y st = Ok st' → laterOn st.2 st'.2) →
  ∀ st st', forDirections carve mazeSize cx cy ds st = Ok st' → laterOn st.2 st'.2.
Proof.
  intros Hc. induction ds as [|d rest IH]; intros st st'.
  - intros [= <-]. apply laterOn_refl.
  - cbn [forDirections]. intros H. apply bind_Ok_inv in H as (st1 & Hstep & H).
    apply IH in H. eapply laterOn_trans; [|exact H]. clear H.
    destruct (_ && _); [|injection Hstep as <-; apply laterOn_refl].
    apply bind_Ok_inv in Hstep as (c & Hget & Hstep).
    destruct (strictEq c 1); [|injection Hstep as <-; apply laterOn_refl].
    apply bind_Ok_inv in Hstep as (g & Hset & Hstep).
    apply Hc in Hstep. exact Hstep.
Qed.

Lemma carvePath_laterOn fuel mazeSize :
  ∀ cx cy st st', carvePath fuel mazeSize cx cy st = Ok st' → laterOn st.2 st'.2.
Proof.
  induction fuel as [|fuel IH]; intros cx cy st st'; [discriminate|].
  rewrite carvePath_S. intros H. apply bind_Ok_inv in H as (g & Hset & H).
  pose proof (shuffleDirections_rng st.2) as Hr.
  destruct (shuffleDirections st.2) as [ds r]. simpl in Hr. subst r.
  apply (forDirections_laterOn _ _ _ _ _ IH) in H. simpl in H.
  destruct H as [Ht Hc]. simpl in *. split; [assumption|lia].
Qed.

Lemma forDirections_sameDraws carve mazeSize cx cy ds :
  readsItsDraws carve →
  (∀ x y st st', carve x y st = Ok st' → laterOn st.2 st'.2) →
  ∀ g r g' r' r2,
    forDirections carve mazeSize cx cy ds (g, r) = Ok (g', r') →
    sameDraws r r2 (cursor r') →
    forDirections carve mazeSize cx cy ds (g, r2)
      = Ok (g', {| tape := tape r2; cursor := cursor r' |}).
Proof.
  intros Hc Hl. induction ds as [|d rest IH]; intros g r g' r' r2.
  - intros [= <- <-] [Hcur _]. simpl. destruct r2. simpl in *. subst. reflexivity.
  - cbn [forDirections]. simpl fst. simpl snd.
    intros H Hs. apply bind_Ok_inv in H as ([g1 r1] & Hstep & H).
    pose proof (forDirections_laterOn _ _ _ _ _ Hl _ _ H) as [_ Hle]. simpl in Hle.
    assert (Hstep2 :
      (if (0 <=? cx + dx d * 2) && (cx + dx d * 2 <? mazeSize) &&
          (0 <=? cy + dy d * 2) && (cy + dy d * 2 <? mazeSize)
       then c ← getCell g (cy + dy d * 2) (cx + dx d * 2);
            if strictEq c 1
            then h ← setCell g (cy + dy d) (cx + dx d) PATH;
                 carve (cx + dx d * 2) (cy + dy d * 2) (h, r2)
            else Ok (g, r2)
       else Ok (g, r2)) = Ok (g1, {| tape := tape r2; cursor := cursor r1 |})).
    { assert (Hsame : Ok (g, r2) = Ok (g, {| tape := tape r2; cursor := cursor r |})).
      { destruct Hs as [Hcur _]. destruct r2. simpl in *. subst. reflexivity. }
      destruct (_ && _); [|injection Hstep as <- <-; exact Hsame].
      apply bind_Ok_inv in Hstep as (c & Hget & Hstep). rewrite Hget.
      change (Ok c ≫= ?f) with (f c). cbv beta.
      destruct (strictEq c 1); [|injection Hstep as <- <-; exact Hsame].
      apply bind_Ok_inv in Hstep as (h & Hset & Hstep). rewrite Hset.
      change (Ok h ≫= ?f) with (f h). cbv beta.
      apply (Hc _ _ _ _ _ _ _ Hstep). destruct Hs as [Hcur Ht].
      split; [assumption|]. intros n Hn. apply Ht. lia. }
    rewrite Hstep2. change (Ok ?a ≫= ?f) with (f a). cbv beta.
    apply (IH g1 r1 g' r' {| tape := tape r2; cursor := cursor r1 |} H).
    split; [reflexivity|]. simpl.
    assert (Hl1 : laterOn r r1).
    { clear - Hstep Hl. destruct (_ && _); [|injection Hstep as <- <-; apply laterOn_refl].
      apply bind_Ok_inv in Hstep as (c & Hget & Hstep).
      destruct (strictEq c 1); [|injection Hstep as <- <-; apply laterOn_refl].
      apply bind_Ok_inv in Hstep as (h & Hset & Hstep).
      apply Hl in Hstep. exact Hstep. }
    destruct Hl1 as [Htape Hcur1]. rewrite Htape.
    intros n Hn. destruct Hs as [_ Ht]. apply Ht. lia.
Qed.

Lemma carvePath_sameDraws fuel mazeSize : readsItsDraws (carvePath fuel mazeSize).
Proof.
  induction fuel as [|fuel IH]; intros cx cy g r g' r' r2; [discriminate|].
  rewrite !carvePath_S. simpl fst. simpl snd. intros H Hs.
  apply bind_Ok_inv in H as (h & Hset & H). rewrite Hset.
  change (Ok h ≫= ?f) with (f h). cbv beta.
  pose proof (shuffleDirections_rng r) as Hr.
  pose proof (shuffleDirections_rng r2) as Hr2.
  pose proof (shuffleDirections_sameDraws r r2) as Hds.
  destruct (shuffleDirections r) as [ds r1]. destruct (shuffleDirections r2) as [ds2 r3].
  simpl in Hr, Hr2, Hds. subst r1 r3.
  pose proof (forDirections_laterOn _ _ _ _ _ (carvePath_laterOn fuel mazeSize) _ _ H)
    as [_ Hle]. simpl in Hle.
  destruct Hs as [Hcur Ht]. rewrite Hds by (split; [assumption|intros n Hn; apply Ht; lia]).
  apply (forDirections_sameDraws _ _ _ _ _ IH (carvePath_laterOn fuel mazeSize)
           _ _ _ _ {| tape := tape r2; cursor := cursor r2 + 3 |} H).
  split; simpl; [lia|]. intros n Hn. apply Ht. lia.
Qed.

(** ** A run that returns *)

Lemma swap_elem_of ds i j (x : Dir) : x ∈ ds → x ∈ swap ds i j.
Proof.
  unfold swap. intros Hx.
  destruct (ds !! i) as [a|] eqn:Ha; [|assumption].
  destruct (ds !! j) as [b|] eqn:Hb; [|assumption].
  pose proof (lookup_lt_Some _ _ _ Ha) as Hi. pose proof (lookup_lt_Some _ _ _ Hb) as Hj.
  apply list_elem_of_lookup in Hx as [k Hk]. apply list_elem_of_lookup.
  destruct (decide (k = i)) as [->|Hki].
  - exists j. rewrite list_lookup_insert_eq by (rewrite length_insert; lia). congruence.
  - destruct (decide (k = j)) as [->|Hkj].
    + exists i. rewrite list_lookup_insert_ne by auto.
      rewrite list_lookup_insert_eq by lia. congruence.
    + exists k. rewrite !list_lookup_insert_ne by auto. exact Hk.
Qed.

Lemma shuffle_elem_of i : ∀ ds r (x : Dir), x ∈ ds → x ∈ (shuffle i ds r).1.
Proof.
  induction i as [|i IH]; intros ds r x Hx; [assumption|].
  cbn [shuffle]. destruct (randomFloor _ r) as [j r']. apply IH, swap_elem_of, Hx.
Qed.

(** The first direction whose cell two steps away is in the grid gets its
    passage, when all these cells are walls. *)
Lemma forDirections_first_passage carve mazeSize cx cy :
  (∀ x y st st', carve x y st = Ok st' → evolves st.1 st'.1) →
  ∀ ds st st',
    (∃ d, d ∈ ds ∧ inBounds mazeSize (cx + dx d * 2) (cy + dy d * 2)) →
    (∀ d, d ∈ ds → inBounds mazeSize (cx + dx d * 2) (cy + dy d * 2) →
          cellIs st.1 (cx + dx d * 2) (cy + dy d * 2) WALL) →
    forDirections carve mazeSize cx cy ds st = Ok st' →
    ∃ d, d ∈ ds ∧ inBounds mazeSize (cx + dx d * 2) (cy + dy d * 2) ∧
         cellIs st'.1 (cx + dx d) (cy + dy d) PATH.
Proof.
  intros He. induction ds as [|d rest IH]; intros st st' (d0 & Hd0 & Hin0) Hwalls.
  - inversion Hd0.
  - cbn [forDirections]. intros H. apply bind_Ok_inv in H as (st1 & Hstep & H).
    destruct (decide (inBounds mazeSize (cx + dx d * 2) (cy + dy d * 2))) as [Hin|Hout].
    + exists d. split; [left|]. split; [exact Hin|].
      pose proof (Hwalls d ltac:(left) Hin) as Hw.
      rewrite (proj2 (guard_inBounds _ _ _) Hin) in Hstep.
      unfold cellIs in Hw. rewrite Hw in Hstep.
      change (Ok (Some WALL) ≫= ?f) with (f (Some WALL)) in Hstep. cbv beta in Hstep.
      change (strictEq (Some WALL) 1) with true in Hstep. cbv iota in Hstep.
      apply bind_Ok_inv in Hstep as (g & Hset & Hstep).
      apply He in Hstep. simpl in Hstep.
      apply (forDirections_evolves _ _ _ _ _ He) in H.
      eapply evolves_path; [exact H|]. eapply evolves_path; [exact Hstep|].
      eapply setCell_same; eauto.
    + destruct (_ && _) eqn:Hguard; [apply guard_inBounds in Hguard; contradiction|].
      injection Hstep as <-.
      destruct (IH st st') as (d' & Hd' & Hin' & Hp); auto.
      * exists d0. split; [|exact Hin0].
        apply elem_of_cons in Hd0 as [->|Hd0]; [contradiction|exact Hd0].
      * intros d' Hd'. apply Hwalls. right. exact Hd'.
      * exists d'. split; [right; exact Hd'|]. auto.
Qed.

(** From a start cell in the interior of a grid of size 5 or more, the
    carve leaves a path cell other than the start in the interior. *)
Lemma carvePath_passage fuel mazeSize mazeArray startX startY r st' :
  5 ≤ mazeSize → 0 < startX < mazeSize - 1 → 0 < startY < mazeSize - 1 →
  carvePath fuel mazeSize startX startY (fillWalls mazeSize mazeArray, r) = Ok st' →
  ∃ a b, (1 ≤ a ≤ mazeSize - 2 ∧ 1 ≤ b ≤ mazeSize - 2) ∧
         (a, b) ≠ (startX, startY) ∧ cellIs st'.1 a b PATH.
Proof.
  intros Hsize Hx Hy. destruct fuel as [|fuel]; [discriminate|].
  rewrite carvePath_S. simpl fst. simpl snd. intros H.
  apply bind_Ok_inv in H as (g & Hset & H).
  pose proof (shuffleDirections_unit r) as Hunit.
  assert (Hall : ∀ d, d ∈ directions → d ∈ (shuffleDirections r).1)
    by (intros d; apply shuffle_elem_of).
  destruct (shuffleDirections r) as [ds r1]. simpl in Hunit, Hall.
  apply (forDirections_first_passage _ _ _ _ (carvePath_evolves fuel mazeSize)) in H
    as (d & Hd & [Hnx Hny] & Hp).
  - rewrite Forall_forall in Hunit. pose proof (Hunit d Hd) as Hu.
    exists (startX + dx d), (startY + dy d). unfold unitStep in Hu.
    split; [lia|]. split; [intros [= H1 H2]; lia|exact Hp].
  - destruct (decide (2 ≤ startX)).
    + exists {| dx := -1; dy := 0 |}. split; [apply Hall; unfold directions; repeat constructor|].
      unfold inBounds. simpl. lia.
    + exists {| dx := 1; dy := 0 |}. split; [apply Hall; unfold directions; repeat constructor|].
      unfold inBounds. simpl. lia.
  - intros d Hd Hin. simpl. rewrite Forall_forall in Hunit.
    unfold cellIs. rewrite (setCell_other _ _ _ _ _ _ _ Hset).
    + apply fillWalls_wall, Hin.
    + pose proof (Hunit d Hd) as Hu. unfold unitStep in Hu. intros [= H1 H2]. lia.
Qed.

(** The sampling of the exit returns at once when its two draws give a
    path cell other than the start. *)
Lemma placeExit_hit fuel mazeSize startX startY maze v rng a b :
  2 < mazeSize → 1 ≤ a ≤ mazeSize - 2 → 1 ≤ b ≤ mazeSize - 2 →
  Z.of_nat (tape rng (cursor rng)) = a - 1 →
  Z.of_nat (tape rng (S (cursor rng))) = b - 1 →
  cellIs maze a b PATH → (a, b) ≠ (startX, startY) →
  ∃ out, placeExit (S fuel) mazeSize startX startY maze v rng = Ok out.
Proof.
  intros Hsize Ha Hb Hta Htb Hp Hne. cbn [placeExit]. unfold randomFloor. simpl.
  rewrite Hta, Htb. destruct (Z.ltb_spec 0 (mazeSize - 2)); [|lia].
  rewrite !Z.mod_small by lia. replace (a - 1 + 1) with a by lia.
  replace (b - 1 + 1) with b by lia.
  unfold cellIs in Hp. rewrite Hp.
  change (Ok (Some PATH) ≫= ?f) with (f (Some PATH)). cbv beta.
  change (strictEq (Some PATH) 0) with true.
  assert (Hs : (a =? startX) && (b =? startY) = false).
  { apply andb_false_iff. destruct (Z.eqb_spec a startX), (Z.eqb_spec b startY); auto.
    subst. contradiction. }
  rewrite Hs. cbn [negb andb].
  destruct (setCell_defined maze b a EXIT _ Hp) as [g Hset]. rewrite Hset.
  eexists. reflexivity.
Qed.

(** Whatever the carve draws, the call returns for some draws of the exit:
    for every tape [t] there is a tape [t'] with the numbers of [t] up to
    the end of the carve, for which generateMaze returns. *)
Lemma generateMaze_can_return mazeSize mazeArray v startX startY (t : nat → nat) :
  5 ≤ mazeSize → 0 < startX < mazeSize - 1 → 0 < startY < mazeSize - 1 →
  ∃ g1 k t' out,
    carvePath (depthBound mazeSize) mazeSize startX startY
      (fillWalls mazeSize mazeArray, {| tape := t; cursor := 0 |})
      = Ok (g1, {| tape := t; cursor := k |}) ∧
    (∀ n, (n < k)%nat → t' n = t n) ∧
    generateMaze (depthBound mazeSize) mazeSize mazeArray v startX startY
      {| tape := t'; cursor := 0 |} = Ok out.
Proof.
  intros Hsize Hx Hy.
  assert (Hb : inBounds mazeSize startX startY) by (unfold inBounds; lia).
  destruct (carvePath_fillWalls mazeSize mazeArray startX startY
              {| tape := t; cursor := 0 |} Hb) as [[g1 r1] Hcarve].
  pose proof (carvePath_laterOn _ _ _ _ _ _ Hcarve) as [Htape _]. simpl in Htape.
  destruct r1 as [t1 k]. simpl in Htape. subst t1.
  destruct (carvePath_passage _ _ _ _ _ _ _ Hsize Hx Hy Hcarve)
    as (a & b & [Ha Hb'] & Hne & Hp). simpl in Hp.
  set (t' := λ n, if (n =? k)%nat then Z.to_nat (a - 1)
                  else if (n =? S k)%nat then Z.to_nat (b - 1) else t n).
  exists g1, k, t'.
  assert (Hagree : ∀ n, (n < k)%nat → t' n = t n).
  { intros n Hn. unfold t'. destruct (Nat.eqb_spec n k); [lia|].
    destruct (Nat.eqb_spec n (S k)); [lia|reflexivity]. }
  pose proof (carvePath_sameDraws _ _ _ _ _ _ _ _ {| tape := t'; cursor := 0 |} Hcarve)
    as Hcarve'. simpl in Hcarve'.
  specialize (Hcarve' ltac:(split; [reflexivity|simpl; intros n Hn; apply Hagree; lia])).
  unfold generateMaze. rewrite Hcarve'.
  change (Ok ?p ≫= ?f) with (f p). cbv beta iota.
  destruct (depthBound mazeSize) as [|fuel] eqn:Hfuel; [discriminate Hcarve|].
  destruct (placeExit_hit fuel mazeSize startX startY g1 v {| tape := t'; cursor := k |} a b)
    as [out Hout]; auto; try lia.
  - simpl. unfold t'. rewrite Nat.eqb_refl. lia.
  - simpl. unfold t'. destruct (Nat.eqb_spec (S k) k); [lia|].
    rewrite Nat.eqb_refl. lia.
  - exists out. split; [exact Hcarve|]. split; [exact Hagree|exact Hout].
Qed.

(** * The claims on generateMaze *)

Example demoRun_returns : demoRun = Ok (demoMaze, demoExit, demoRng').
Proof. vm_compute. reflexivity. Qed.

Example demoMaze_rows :
  rows 5 demoMaze =
    [ [1; 1; 1; 1; 1];
      [1; 0; 2; 0; 1];
      [1; 1; 1; 0; 1];
      [1; 0; 0; 0; 1];
      [1; 1; 1; 1; 1] ].
Proof. vm_compute. reflexivity. Qed.

(** C1. For an odd size of at least 5 and a start cell in the interior of
    the grid, every cell of the grid that generateMaze returns and that is
    not a wall (a path or the exit) is reached from the start cell by
    steps right, left, down and up through cells that are not walls. *)
Theorem generateMaze_connected fuel mazeSize mazeArray exitPosVector startX startY rng
    maze exitPos rng' :
  Z.Odd mazeSize → 5 ≤ mazeSize →
  0 < startX < mazeSize - 1 → 0 < startY < mazeSize - 1 →
  generateMaze fuel mazeSize mazeArray exitPosVector startX startY rng
    = Ok (maze, exitPos, rng') →
  ∀ c, openCell mazeSize maze c → reach mazeSize maze (startX, startY) c.
Proof.
  intros _ _ Hx Hy H c Hc.
  apply generateMaze_Ok in H as (g1 & r1 & ex & ey & Hcarve & Hp & _ & Hset & _).
  apply (reach_mono mazeSize g1); [intros c'; eapply openCell_exit; eauto|].
  assert (Hb : inBounds mazeSize startX startY) by (unfold inBounds; lia).
  apply (carvePath_connected _ _ _ _ _ _ _ Hb Hcarve).
  eapply openCell_exit_inv; eauto.
Qed.

Lemma generateMaze_connected_witness :
  demoRun = Ok (demoMaze, demoExit, demoRng') ∧
  ∀ c, openCell 5 demoMaze c → reach 5 demoMaze (1, 1) c.
Proof.
  split; [vm_compute; reflexivity|].
  apply (generateMaze_connected 16 5 ∅ origin 1 1 demoRng demoMaze demoExit demoRng').
  - exists 2. reflexivity.
  - lia.
  - lia.
  - lia.
  - vm_compute. reflexivity.
Defined.

(** The exit of the returned grid, for any size above 2. *)
Lemma generateMaze_exit_cell fuel mazeSize mazeArray exitPosVector startX startY rng
    maze exitPos rng' :
  2 < mazeSize →
  generateMaze fuel mazeSize mazeArray exitPosVector startX startY rng
    = Ok (maze, exitPos, rng') →
  ∃ ex ey,
    (1 ≤ ex ≤ mazeSize - 2 ∧ 1 ≤ ey ≤ mazeSize - 2) ∧
    cellIs maze ex ey EXIT ∧ (ex, ey) ≠ (startX, startY) ∧
    exitPos = exitVector mazeSize ex ey ∧
    (∀ x y, inBounds mazeSize x y → cellIs maze x y EXIT → (x, y) = (ex, ey)) ∧
    (∀ x y v, inBounds mazeSize x y → (x, y) ≠ (ex, ey) →
              cellIs maze x y v → v ≠ WALL → v = PATH).
Proof.
  intros Hsize H.
  apply generateMaze_Ok in H as (g1 & r1 & ex & ey & Hcarve & Hp & Hne & Hset & Hv & Hin).
  assert (Hother : ∀ x y, inBounds mazeSize x y → (x, y) ≠ (ex, ey) →
                          cellIs maze x y WALL ∨ cellIs maze x y PATH).
  { intros x y Hb Hxy. unfold cellIs. rewrite (setCell_other _ _ _ _ _ _ _ Hset Hxy).
    apply (carvePath_codes _ _ _ _ _ _ _ x y Hcarve Hb). }
  exists ex, ey. split; [auto|].
  split; [eapply setCell_same; eauto|]. split; [exact Hne|]. split; [exact Hv|]. split.
  - intros x y Hb He. destruct (decide ((x, y) = (ex, ey))) as [|Hxy]; [assumption|].
    exfalso. unfold cellIs, WALL, PATH, EXIT in *.
    destruct (Hother x y Hb Hxy); congruence.
  - intros x y v Hb Hxy Hv' Hw. unfold cellIs, WALL, PATH in *.
    destruct (Hother x y Hb Hxy); congruence.
Qed.

(** The perimeter of the returned grid, for an odd size and an odd start. *)
Lemma generateMaze_perimeter fuel mazeSize mazeArray exitPosVector startX startY rng
    maze exitPos rng' :
  Z.Odd mazeSize → 2 < mazeSize →
  inBounds mazeSize startX startY → Z.Odd startX → Z.Odd startY →
  generateMaze fuel mazeSize mazeArray exitPosVector startX startY rng
    = Ok (maze, exitPos, rng') →
  enclosed mazeSize maze.
Proof.
  intros Hodd Hsize Hb Hox Hoy H.
  apply generateMaze_Ok in H as (g1 & r1 & ex & ey & Hcarve & Hp & Hne & Hset & _ & Hin).
  destruct Hin as [Hex Hey]; [lia|].
  apply (enclosed_setCell mazeSize g1 ex ey EXIT); auto.
  eapply (carvePath_enclosed fuel mazeSize mazeArray startX startY rng (g1, r1)); eauto.
Qed.

(** C2. For an odd size of at least 5 and a start cell in the interior, the
    grid that generateMaze returns has exactly one cell that is the exit,
    this cell is not the start cell, and every other cell that is not a
    wall is a path. *)
Theorem generateMaze_one_exit fuel mazeSize mazeArray exitPosVector startX startY rng
    maze exitPos rng' :
  Z.Odd mazeSize → 5 ≤ mazeSize →
  0 < startX < mazeSize - 1 → 0 < startY < mazeSize - 1 →
  generateMaze fuel mazeSize mazeArray exitPosVector startX startY rng
    = Ok (maze, exitPos, rng') →
  ∃ ex ey,
    inBounds mazeSize ex ey ∧ cellIs maze ex ey EXIT ∧ (ex, ey) ≠ (startX, startY) ∧
    (∀ x y, inBounds mazeSize x y → cellIs maze x y EXIT → (x, y) = (ex, ey)) ∧
    (∀ x y v, inBounds mazeSize x y → (x, y) ≠ (ex, ey) →
              cellIs maze x y v → v ≠ WALL → v = PATH).
Proof.
  intros _ Hsize Hx Hy H. assert (Hs : 2 < mazeSize) by lia.
  destruct (generateMaze_exit_cell _ _ _ _ _ _ _ _ _ _ Hs H)
    as (ex & ey & Hin & Hex & Hne & _ & Huniq & Hother).
  exists ex, ey. unfold inBounds. repeat (split; [first [assumption | lia]|]). assumption.
Qed.

Lemma generateMaze_one_exit_witness :
  demoRun = Ok (demoMaze, demoExit, demoRng') ∧
  ∃ ex ey,
    inBounds 5 ex ey ∧ cellIs demoMaze ex ey EXIT ∧ (ex, ey) ≠ (1, 1) ∧
    (∀ x y, inBounds 5 x y → cellIs demoMaze x y EXIT → (x, y) = (ex, ey)) ∧
    (∀ x y v, inBounds 5 x y → (x, y) ≠ (ex, ey) →
              cellIs demoMaze x y v → v ≠ WALL → v = PATH).
Proof.
  split; [vm_compute; reflexivity|].
  apply (generateMaze_one_exit 16 5 ∅ origin 1 1 demoRng demoMaze demoExit demoRng').
  - exists 2. reflexivity.
  - lia.
  - lia.
  - lia.
  - vm_compute. reflexivity.
Defined.

(** C10. For an odd size of at least 5 and a start cell of the grid whose
    coordinates are both odd (size 15 and start (7, 7) in initGame), every
    cell of the first and last rows and columns of the returned grid is a
    wall, and the exit has both coordinates in [1, size - 2]. *)
Theorem generateMaze_enclosed fuel mazeSize mazeArray exitPosVector startX startY rng
    maze exitPos rng' :
  Z.Odd mazeSize → 5 ≤ mazeSize →
  inBounds mazeSize startX startY → Z.Odd startX → Z.Odd startY →
  generateMaze fuel mazeSize mazeArray exitPosVector startX startY rng
    = Ok (maze, exitPos, rng') →
  enclosed mazeSize maze ∧
  ∃ ex ey, cellIs maze ex ey EXIT ∧
           1 ≤ ex ≤ mazeSize - 2 ∧ 1 ≤ ey ≤ mazeSize - 2 ∧
           ∀ x y, inBounds mazeSize x y → cellIs maze x y EXIT → (x, y) = (ex, ey).
Proof.
  intros Hodd Hsize Hb Hox Hoy H. assert (Hs : 2 < mazeSize) by lia. split.
  - apply (generateMaze_perimeter _ _ _ _ _ _ _ _ _ _ Hodd Hs Hb Hox Hoy H).
  - destruct (generateMaze_exit_cell _ _ _ _ _ _ _ _ _ _ Hs H)
      as (ex & ey & [Hx Hy] & Hex & _ & _ & Huniq & _).
    exists ex, ey. auto.
Qed.

Lemma generateMaze_enclosed_witness :
  demoRun = Ok (demoMaze, demoExit, demoRng') ∧
  enclosed 5 demoMaze ∧
  ∃ ex ey, cellIs demoMaze ex ey EXIT ∧ 1 ≤ ex ≤ 5 - 2 ∧ 1 ≤ ey ≤ 5 - 2 ∧
           ∀ x y, inBounds 5 x y → cellIs demoMaze x y EXIT → (x, y) = (ex, ey).
Proof.
  split; [vm_compute; reflexivity|].
  apply (generateMaze_enclosed 16 5 ∅ origin 1 1 demoRng demoMaze demoExit demoRng').
  - exists 2. reflexivity.
  - lia.
  - unfold inBounds. lia.
  - exists 0. reflexivity.
  - exists 0. reflexivity.
  - vm_compute. reflexivity.
Defined.

(** The configuration of initGame: size 15 and start (7, 7). *)
Lemma initGame_enclosed fuel rng maze exitPos rng' :
  initGame fuel rng = Ok (maze, exitPos, rng') → enclosed MAZE_SIZE maze.
Proof.
  unfold initGame. apply generateMaze_perimeter.
  - exists 7. reflexivity.
  - unfold MAZE_SIZE. lia.
  - unfold inBounds, MAZE_SIZE. change (15 / 2) with 7. lia.
  - exists 3. reflexivity.
  - exists 3. reflexivity.
Qed.

(** C9. For every grid size and start cell of the grid, carvePath
    terminates: from the grid of walls it returns within a recursion depth
    of the ceiling of N/2, squared; the loop over the directions calls it
    only on cells that are walls; and a call on a wall cell returns a grid
    with strictly fewer walls. *)
Theorem carvePath_terminates mazeSize mazeArray startX startY rng :
  inBounds mazeSize startX startY →
  (∃ st', carvePath (depthBound mazeSize) mazeSize startX startY
            (fillWalls mazeSize mazeArray, rng) = Ok st') ∧
  (∀ carve cx cy r st,
     forDirections (onWall carve) mazeSize cx cy (shuffleDirections r).1 st =
     forDirections carve mazeSize cx cy (shuffleDirections r).1 st) ∧
  (∀ fuel cx cy maze r st',
     inBounds mazeSize cx cy → cellIs maze cx cy WALL →
     carvePath fuel mazeSize cx cy (maze, r) = Ok st' →
     (wallCount mazeSize st'.1 < wallCount mazeSize maze)%nat).
Proof.
  intros Hb. split; [|split].
  - apply carvePath_fillWalls, Hb.
  - intros carve cx cy r st. apply forDirections_onWall, shuffleDirections_unit.
  - intros fuel cx cy maze r st' Hc Hw H.
    apply carvePath_first in H as (g1 & Hset & He). simpl in Hset.
    pose proof (wallCount_setCell mazeSize _ _ _ _ Hc Hw Hset).
    pose proof (wallCount_evolves mazeSize _ _ He). lia.
Qed.

Lemma carvePath_terminates_witness :
  inBounds 15 7 7 ∧
  (∃ st', carvePath (depthBound 15) 15 7 7 (fillWalls 15 ∅, demoRng) = Ok st') ∧
  (∀ carve cx cy r st,
     forDirections (onWall carve) 15 cx cy (shuffleDirections r).1 st =
     forDirections carve 15 cx cy (shuffleDirections r).1 st) ∧
  (∀ fuel cx cy maze r st',
     inBounds 15 cx cy → cellIs maze cx cy WALL →
     carvePath fuel 15 cx cy (maze, r) = Ok st' →
     (wallCount 15 st'.1 < wallCount 15 maze)%nat).
Proof.
  assert (Hb : inBounds 15 7 7) by (unfold inBounds; lia).
  split; [exact Hb|]. apply (carvePath_terminates 15 ∅ 7 7 demoRng Hb).
Defined.

(** ** No validation of the size *)

Section NoTypeError.
Variable mazeSize : Z.

Lemma forDirections_noThrow carve cx cy :
  neverThrows mazeSize carve →
  (∀ x y st st', carve x y st = Ok st' → evolves st.1 st'.1) →
  inBounds mazeSize cx cy →
  ∀ ds st, Forall unitStep ds → isGrid mazeSize st.1 →
           forDirections carve mazeSize cx cy ds st ≠ TypeError.
Proof.
  intros Hn He Hb. induction ds as [|d rest IH]; intros st Hds Hg; [discriminate|].
  cbn [forDirections]. inversion Hds as [|? ? Hd Hrest]; subst.
  destruct (_ && _) eqn:Hguard; [|apply IH; auto].
  apply guard_inBounds in Hguard.
  destruct (Hg _ _ Hguard) as [v Hv]. unfold cellIs in Hv. rewrite Hv.
  change (Ok (Some v) ≫= ?f) with (f (Some v)). cbv beta.
  destruct (strictEq (Some v) 1); [|apply IH; auto].
  destruct (Hg _ _ (mid_inBounds _ _ _ _ Hd Hb Hguard)) as [w Hmid].
  destruct (setCell_defined _ _ _ PATH _ Hmid) as [g Hset]. rewrite Hset.
  change (Ok g ≫= ?f) with (f g). cbv beta.
  pose proof (evolves_isGrid mazeSize _ _ (evolves_setCell _ _ _ _ Hset) Hg) as Hg1.
  destruct (carve _ _ (g, st.2)) as [st1| |] eqn:Hcarve.
  - change (Ok st1 ≫= ?f) with (f st1). cbv beta. apply IH; auto.
    apply He in Hcarve. eapply evolves_isGrid; eauto.
  - exfalso. revert Hcarve. apply Hn; auto.
  - discriminate.
Qed.

Lemma carvePath_noThrow fuel : neverThrows mazeSize (carvePath fuel mazeSize).
Proof.
  induction fuel as [|fuel IH]; intros cx cy st Hg Hb; [discriminate|].
  rewrite carvePath_S. destruct (Hg _ _ Hb) as [v Hv].
  destruct (setCell_defined _ _ _ PATH _ Hv) as [g Hset]. rewrite Hset.
  change (Ok g ≫= ?f) with (f g). cbv beta.
  pose proof (shuffleDirections_unit st.2) as Hds.
  destruct (shuffleDirections st.2) as [ds r]. simpl in Hds.
  apply forDirections_noThrow; auto.
  - apply carvePath_evolves.
  - simpl. eapply evolves_isGrid; [eapply evolves_setCell; eauto|assumption].
Qed.

Lemma placeExit_noThrow fuel startX startY : ∀ maze v rng,
  2 ≤ mazeSize → isGrid mazeSize maze →
  placeExit fuel mazeSize startX startY maze v rng ≠ TypeError.
Proof.
  induction fuel as [|fuel IH]; intros maze v rng Hsize Hg; [discriminate|].
  cbn [placeExit].
  assert (Hrange : ∀ r, 0 ≤ (randomFloor (mazeSize - 2) r).1 < mazeSize - 1).
  { intros r. destruct (decide (mazeSize = 2)) as [->|Hne].
    - rewrite randomFloor_zero. lia.
    - pose proof (randomFloor_range (mazeSize - 2) r). lia. }
  pose proof (Hrange rng) as Ha.
  destruct (randomFloor (mazeSize - 2) rng) as [a r1].
  pose proof (Hrange r1) as Hb.
  destruct (randomFloor (mazeSize - 2) r1) as [b r2]. simpl in Ha, Hb.
  assert (Hin : inBounds mazeSize (a + 1) (b + 1)) by (unfold inBounds; lia).
  destruct (Hg _ _ Hin) as [c Hc]. unfold cellIs in Hc. rewrite Hc.
  change (Ok (Some c) ≫= ?f) with (f (Some c)). cbv beta.
  destruct (_ && _); [|apply IH; auto].
  destruct (setCell_defined _ _ _ EXIT _ Hc) as [g Hset]. rewrite Hset. discriminate.
Qed.
End NoTypeError.

(** C3, as the code has it. generateMaze does not check its size. On a new
    array and with a size of 0 or less it does stop at once, with the
    TypeError of the first write, to a row that does not exist. For every
    size of 2 or more, the even ones included, and a start cell of the
    grid, it raises no error at all. *)
Theorem generateMaze_unvalidated fuel mazeSize mazeArray exitPosVector startX startY rng :
  (mazeSize ≤ 0 → (0 < fuel)%nat →
   generateMaze fuel mazeSize ∅ exitPosVector startX startY rng = TypeError) ∧
  (2 ≤ mazeSize → inBounds mazeSize startX startY →
   generateMaze fuel mazeSize mazeArray exitPosVector startX startY rng ≠ TypeError).
Proof.
  split.
  - intros Hsize Hfuel. unfold generateMaze. rewrite fillWalls_nonpositive by assumption.
    destruct fuel as [|fuel]; [lia|]. rewrite carvePath_S. simpl fst.
    rewrite setCell_TypeError by apply lookup_empty. reflexivity.
  - intros Hsize Hb. unfold generateMaze.
    destruct (carvePath _ _ _ _ _) as [[g r]| |] eqn:Hcarve.
    + change (Ok (g, r) ≫= ?f) with (f (g, r)). cbv beta iota.
      apply placeExit_noThrow; [assumption|].
      apply carvePath_evolves in Hcarve.
      eapply evolves_isGrid; [exact Hcarve|apply fillWalls_isGrid].
    + exfalso. revert Hcarve. apply carvePath_noThrow; [apply fillWalls_isGrid|assumption].
    + discriminate.
Qed.

Lemma generateMaze_unvalidated_witness :
  generateMaze 16 0 ∅ origin 0 0 demoRng = TypeError ∧
  generateMaze 16 4 ∅ origin 2 2 demoRng ≠ TypeError.
Proof.
  split.
  - apply (proj1 (generateMaze_unvalidated 16 0 ∅ origin 0 0 demoRng)); lia.
  - apply (proj2 (generateMaze_unvalidated 16 4 ∅ origin 2 2 demoRng));
      unfold inBounds; lia.
Defined.

(** C3, as the specification has it, fails: with the even size 4 the call
    returns a maze, as it does for an odd size. *)
Lemma generateMaze_even_size_returns :
  (Z.Even 4 ∨ 4 < 3) ∧
  ∃ maze exitPos rng',
    generateMaze 16 4 ∅ origin 2 2 demoRng = Ok (maze, exitPos, rng') ∧
    rows 4 maze = [ [0; 0; 0; 1];
                    [0; 1; 2; 1];
                    [0; 1; 0; 1];
                    [1; 1; 1; 1] ].
Proof.
  split; [left; exists 2; reflexivity|].
  eexists _, _, _. split; vm_compute; reflexivity.
Qed.

(** * The claims on checkCollision and on the movement step *)

(** ** The cases of checkCollision *)

Lemma outside_inBounds mazeSize x z :
  (x <? 0) || (x >=? mazeSize) || (z <? 0) || (z >=? mazeSize) = false ↔
  inBounds mazeSize x z.
Proof.
  unfold inBounds. rewrite !orb_false_iff, !Z.ltb_ge, !Z.geb_leb, !Z.leb_gt. lia.
Qed.

Lemma checkCollision_outside newPos maze mazeSize :
  ¬ inBounds mazeSize (worldToGrid mazeSize (vx newPos)) (worldToGrid mazeSize (vz newPos)) →
  checkCollision newPos maze mazeSize = Ok (true, []).
Proof.
  intros Hout. unfold checkCollision.
  destruct (_ || _) eqn:Htest; [reflexivity|].
  apply outside_inBounds in Htest. contradiction.
Qed.

Lemma checkCollision_inside newPos maze mazeSize :
  let gridX := worldToGrid mazeSize (vx newPos) in
  let gridZ := worldToGrid mazeSize (vz newPos) in
  inBounds mazeSize gridX gridZ →
  ∀ v, cellIs maze gridX gridZ v →
    checkCollision newPos maze mazeSize =
      if v =? 1 then Ok (true, [GridRead gridZ gridX])
      else if v =? 2 then
        Ok (false, [GridRead gridZ gridX; GridRead gridZ gridX;
                    ShowMessageBox escaped; Unlock])
      else Ok (false, [GridRead gridZ gridX; GridRead gridZ gridX]).
Proof.
  intros gridX gridZ Hin v Hv. unfold checkCollision. fold gridX gridZ.
  apply outside_inBounds in Hin. rewrite Hin.
  unfold andThen, readCell. unfold cellIs in Hv. rewrite Hv. simpl.
  destruct (v =? 1); [reflexivity|]. simpl. destruct (v =? 2); reflexivity.
Qed.

(** The events of a call of checkCollision read cells of the grid only. *)
Lemma checkCollision_reads newPos maze mazeSize hit events :
  checkCollision newPos maze mazeSize = Ok (hit, events) →
  ∀ z x, GridRead z x ∈ events → inBounds mazeSize x z.
Proof.
  unfold checkCollision.
  set (gridX := worldToGrid mazeSize (vx newPos)).
  set (gridZ := worldToGrid mazeSize (vz newPos)).
  destruct (_ || _) eqn:Htest.
  - intros [= <- <-] z x Hin. inversion Hin.
  - apply outside_inBounds in Htest. unfold andThen, readCell.
    destruct (getCell maze gridZ gridX) as [c| |]; simpl; try discriminate.
    destruct (strictEq c 1); simpl.
    + intros [= <- <-] z x Hin. read_in_list Hin Htest.
    + destruct (strictEq c 2); simpl; intros [= <- <-] z x Hin;
        read_in_list Hin Htest.
Qed.

(** C4. When one of the indices floor(x + N/2), floor(z + N/2) of a
    position is outside [0, N), checkCollision returns true and reads no
    cell, whatever the maze array holds; so every read of checkCollision is
    within bounds; and on a cell within bounds the answer is true exactly
    when the cell is a wall, hence false on a path and on the exit. *)
Theorem checkCollision_bounds newPos maze mazeSize :
  let gridX := worldToGrid mazeSize (vx newPos) in
  let gridZ := worldToGrid mazeSize (vz newPos) in
  (¬ inBounds mazeSize gridX gridZ →
     ∀ anyMaze, checkCollision newPos anyMaze mazeSize = Ok (true, [])) ∧
  (∀ hit events, checkCollision newPos maze mazeSize = Ok (hit, events) →
     ∀ z x, GridRead z x ∈ events → inBounds mazeSize x z) ∧
  (inBounds mazeSize gridX gridZ →
     ∀ v, cellIs maze gridX gridZ v →
       ∃ events, checkCollision newPos maze mazeSize = Ok (bool_decide (v = WALL), events)).
Proof.
  intros gridX gridZ. split; [|split].
  - intros Hout anyMaze. apply checkCollision_outside, Hout.
  - intros hit events. apply checkCollision_reads.
  - intros Hin v Hv. rewrite (checkCollision_inside _ _ _ Hin v Hv). unfold WALL.
    destruct (Z.eqb_spec v 1) as [->|Hne].
    + eexists. reflexivity.
    + rewrite bool_decide_eq_false_2 by assumption.
      destruct (v =? 2); eexists; reflexivity.
Qed.

Lemma checkCollision_bounds_witness :
  checkCollision farAway ∅ 5 = Ok (true, []) ∧
  (∀ z x, GridRead z x ∈ [GridRead 1 2; GridRead 1 2; ShowMessageBox escaped; Unlock] →
          inBounds 5 x z) ∧
  (∃ events, checkCollision demoExit demoMaze 5 = Ok (bool_decide (EXIT = WALL), events)).
Proof.
  split; [|split].
  - apply (proj1 (checkCollision_bounds farAway ∅ 5)).
    change (worldToGrid 5 (vx farAway)) with 9. unfold inBounds. lia.
  - apply (proj1 (proj2 (checkCollision_bounds demoExit demoMaze 5)) false).
    vm_compute. reflexivity.
  - apply (proj2 (proj2 (checkCollision_bounds demoExit demoMaze 5))).
    + change (worldToGrid 5 (vx demoExit)) with 2.
      change (worldToGrid 5 (vz demoExit)) with 1. unfold inBounds. lia.
    + vm_compute. reflexivity.
Defined.

(** ** The movement step *)

Lemma andThen_Ok {A B} (m : Eff A) (k : A → Eff B) a t :
  m = Ok (a, t) →
  andThen m k = match k a with
                | Ok (b, t') => Ok (b, t ++ t')
                | TypeError => TypeError
                | OutOfFuel => OutOfFuel
                end.
Proof. intros ->. unfold andThen. simpl. destruct (k a) as [[b t']| |]; reflexivity. Qed.

(** C5. When the full move is blocked, the move along x alone is not, and
    the move along z alone is, the step puts the player at the position
    shifted along x, x + v.x with y and z as they were, and keeps the
    velocity; this position is not the position shifted along z. *)
Theorem animate_slides_along_x player maze mazeSize e eX eZ :
  checkCollision (add (position player) (velocity player)) maze mazeSize = Ok (true, e) →
  checkCollision (shiftX (position player) (velocity player)) maze mazeSize
    = Ok (false, eX) →
  checkCollision (shiftZ (position player) (velocity player)) maze mazeSize
    = Ok (true, eZ) →
  ∃ player',
    animate player maze mazeSize = Ok (player', e ++ eX) ∧
    player' = withPosition player (shiftX (position player) (velocity player)) ∧
    position player' = {| vx := vx (position player) + vx (velocity player);
                          vy := vy (position player);
                          vz := vz (position player) |}%Q ∧
    velocity player' = velocity player ∧
    position player' ≠ shiftZ (position player) (velocity player).
Proof.
  intros H HX HZ. eexists. split; [|split; [reflexivity|]].
  - unfold animate. rewrite (andThen_Ok _ _ _ _ H). cbn [negb].
    rewrite (andThen_Ok _ _ _ _ HX). cbn [negb]. rewrite app_nil_r. reflexivity.
  - split; [reflexivity|]. split; [reflexivity|].
    cbn [position withPosition]. intros Heq. rewrite Heq, HZ in HX. discriminate.
Qed.

(** C6. When the full move, the move along x alone and the move along z
    alone are all blocked, the step leaves the position of the player as
    it is and sets the velocity to zero. *)
Theorem animate_blocked player maze mazeSize e eX eZ :
  checkCollision (add (position player) (velocity player)) maze mazeSize = Ok (true, e) →
  checkCollision (shiftX (position player) (velocity player)) maze mazeSize
    = Ok (true, eX) →
  checkCollision (shiftZ (position player) (velocity player)) maze mazeSize
    = Ok (true, eZ) →
  ∃ player',
    animate player maze mazeSize = Ok (player', e ++ eX ++ eZ) ∧
    position player' = position player ∧
    velocity player' = {| vx := 0; vy := 0; vz := 0 |}.
Proof.
  intros H HX HZ. eexists. split; [|split].
  - unfold animate. rewrite (andThen_Ok _ _ _ _ H). cbn [negb].
    rewrite (andThen_Ok _ _ _ _ HX). cbn [negb].
    rewrite (andThen_Ok _ _ _ _ HZ). cbn [negb]. rewrite app_nil_r. reflexivity.
  - reflexivity.
  - reflexivity.
Qed.

Lemma animate_slides_along_x_witness :
  ∃ player',
    animate (demoPlayer alongWall) demoMaze 5
      = Ok (player', [GridRead 4 2] ++ [GridRead 3 2; GridRead 3 2]) ∧
    player' = withPosition (demoPlayer alongWall)
                (shiftX (position (demoPlayer alongWall)) (velocity (demoPlayer alongWall))) ∧
    position player'
      = {| vx := vx (position (demoPlayer alongWall)) + vx (velocity (demoPlayer alongWall));
           vy := vy (position (demoPlayer alongWall));
           vz := vz (position (demoPlayer alongWall)) |}%Q ∧
    velocity player' = velocity (demoPlayer alongWall) ∧
    position player'
      ≠ shiftZ (position (demoPlayer alongWall)) (velocity (demoPlayer alongWall)).
Proof.
  apply (animate_slides_along_x (demoPlayer alongWall) demoMaze 5
           [GridRead 4 2] [GridRead 3 2; GridRead 3 2] [GridRead 4 3]);
    vm_compute; reflexivity.
Defined.

Lemma animate_blocked_witness :
  ∃ player',
    animate (demoPlayer towardsCorner) demoMaze 5
      = Ok (player', [GridRead 4 4] ++ [GridRead 3 4] ++ [GridRead 4 3]) ∧
    position player' = position (demoPlayer towardsCorner) ∧
    velocity player' = {| vx := 0; vy := 0; vz := 0 |}.
Proof.
  apply (animate_blocked (demoPlayer towardsCorner) demoMaze 5
           [GridRead 4 4] [GridRead 3 4] [GridRead 4 3]);
    vm_compute; reflexivity.
Defined.

(** ** No displacement *)

Lemma Qplus_zero (q : Q) : (q + 0)%Q = q.
Proof.
  destruct q as [a b]. unfold Qplus. simpl.
  rewrite Z.mul_1_r, Z.add_0_r, Pos.mul_1_r. reflexivity.
Qed.

Lemma add_origin p : add p origin = p.
Proof. destruct p. unfold add, origin. simpl. rewrite !Qplus_zero. reflexivity. Qed.

Lemma shiftX_origin p : shiftX p origin = p.
Proof. destruct p. unfold shiftX, origin. simpl. rewrite Qplus_zero. reflexivity. Qed.

Lemma shiftZ_origin p : shiftZ p origin = p.
Proof. destruct p. unfold shiftZ, origin. simpl. rewrite Qplus_zero. reflexivity. Qed.

(** C7. With a velocity of zero, on a grid of size N, the step returns the
    position as it was, and it reports the exit exactly when this position
    lies in the exit cell. *)
Theorem animate_no_displacement player maze mazeSize :
  velocity player = {| vx := 0; vy := 0; vz := 0 |} →
  isGrid mazeSize maze →
  ∃ player' events,
    animate player maze mazeSize = Ok (player', events) ∧
    position player' = position player ∧
    (reachedExit events = true ↔ inExitCell mazeSize maze (position player)).
Proof.
  intros Hvel Hgrid. unfold animate. fold origin in Hvel. rewrite Hvel.
  rewrite add_origin, shiftX_origin, shiftZ_origin.
  set (pos := position player). unfold inExitCell. fold pos.
  set (gridX := worldToGrid mazeSize (vx pos)).
  set (gridZ := worldToGrid mazeSize (vz pos)).
  destruct (decide (inBounds mazeSize gridX gridZ)) as [Hin|Hout].
  - destruct (Hgrid _ _ Hin) as [v Hv].
    pose proof (checkCollision_inside pos maze mazeSize Hin v Hv) as Hcc.
    fold gridX gridZ in Hcc. destruct (Z.eqb_spec v 1) as [->|Hne1].
    + rewrite !(andThen_Ok _ _ _ _ Hcc). cbn [negb].
      eexists _, _. split; [reflexivity|]. split; [reflexivity|].
      simpl. split; [discriminate|]. intros [_ He].
      unfold cellIs, EXIT in *. congruence.
    + destruct (Z.eqb_spec v 2) as [->|Hne2].
      * rewrite (andThen_Ok _ _ _ _ Hcc). cbn [negb].
        eexists _, _. split; [reflexivity|]. split; [reflexivity|].
        simpl. split; [|reflexivity]. intros _. split; assumption.
      * rewrite (andThen_Ok _ _ _ _ Hcc). cbn [negb].
        eexists _, _. split; [reflexivity|]. split; [reflexivity|].
        simpl. split; [discriminate|]. intros [_ He].
        unfold cellIs, EXIT in *. congruence.
  - pose proof (checkCollision_outside pos maze mazeSize Hout) as Hcc.
    rewrite !(andThen_Ok _ _ _ _ Hcc). cbn [negb].
    eexists _, _. split; [reflexivity|]. split; [reflexivity|].
    simpl. split; [discriminate|]. intros [Hin _]. contradiction.
Qed.

Lemma demoMaze_isGrid : isGrid 5 demoMaze.
Proof.
  intros x y [Hx Hy].
  assert (Hx' : x = 0 ∨ x = 1 ∨ x = 2 ∨ x = 3 ∨ x = 4) by lia.
  assert (Hy' : y = 0 ∨ y = 1 ∨ y = 2 ∨ y = 3 ∨ y = 4) by lia.
  destruct Hx' as [->|[->|[->|[->| ->]]]]; destruct Hy' as [->|[->|[->|[->| ->]]]];
    eexists; vm_compute; reflexivity.
Defined.

Lemma animate_no_displacement_witness :
  ∃ player' events,
    animate (demoPlayer origin) demoMaze 5 = Ok (player', events) ∧
    position player' = position (demoPlayer origin) ∧
    (reachedExit events = true ↔ inExitCell 5 demoMaze (position (demoPlayer origin))).
Proof.
  apply (animate_no_displacement (demoPlayer origin) demoMaze 5).
  - reflexivity.
  - exact demoMaze_isGrid.
Defined.

(** ** From the grid to the world and back *)

Lemma Qfloor_half i : Qfloor (inject_Z i + (1 # 2))%Q = i.
Proof.
  unfold Qfloor, Qplus, inject_Z. simpl.
  rewrite Z.mul_1_r. Z.to_euclidean_division_equations. lia.
Qed.

Lemma worldToGrid_gridToWorld mazeSize i : worldToGrid mazeSize (gridToWorld mazeSize i) = i.
Proof.
  unfold worldToGrid, gridToWorld, CELL_SIZE.
  assert (Heq : ((inject_Z i - inject_Z mazeSize / 2 + (1 # 2)) * 1 + inject_Z mazeSize / 2
                 == inject_Z i + (1 # 2))%Q) by field.
  rewrite Heq. apply Qfloor_half.
Qed.

(** C8. With CELL_SIZE = 1 the centre of the cell of index i maps back to
    i: floor((i - N/2 + 0.5) * CELL_SIZE + N/2) = i for every i of [0, N);
    and at the exit position that generateMaze returns, checkCollision
    reads the cell that holds the exit, reports the exit and returns
    false. *)
Theorem exit_position_roundtrip fuel mazeSize mazeArray exitPosVector startX startY rng
    maze exitPos rng' :
  (∀ i, 0 ≤ i < mazeSize →
     Qfloor ((inject_Z i - inject_Z mazeSize / 2 + (1 # 2)) * CELL_SIZE
             + inject_Z mazeSize / 2)%Q = i) ∧
  (2 < mazeSize →
   generateMaze fuel mazeSize mazeArray exitPosVector startX startY rng
     = Ok (maze, exitPos, rng') →
   ∃ ex ey,
     worldToGrid mazeSize (vx exitPos) = ex ∧ worldToGrid mazeSize (vz exitPos) = ey ∧
     cellIs maze ex ey EXIT ∧
     checkCollision exitPos maze mazeSize
       = Ok (false, [GridRead ey ex; GridRead ey ex; ShowMessageBox escaped; Unlock])).
Proof.
  split.
  - intros i _. apply (worldToGrid_gridToWorld mazeSize i).
  - intros Hsize H.
    destruct (generateMaze_exit_cell _ _ _ _ _ _ _ _ _ _ Hsize H)
      as (ex & ey & [Hx Hy] & Hex & _ & -> & _ & _).
    exists ex, ey.
    assert (Hgx : worldToGrid mazeSize (vx (exitVector mazeSize ex ey)) = ex)
      by apply worldToGrid_gridToWorld.
    assert (Hgz : worldToGrid mazeSize (vz (exitVector mazeSize ex ey)) = ey)
      by apply worldToGrid_gridToWorld.
    split; [exact Hgx|]. split; [exact Hgz|]. split; [exact Hex|].
    pose proof (checkCollision_inside (exitVector mazeSize ex ey) maze mazeSize) as Hcc.
    cbv zeta in Hcc. rewrite Hgx, Hgz in Hcc.
    apply (Hcc ltac:(unfold inBounds; lia) EXIT Hex).
Qed.

Lemma exit_position_roundtrip_witness :
  Qfloor ((inject_Z 3 - inject_Z 5 / 2 + (1 # 2)) * CELL_SIZE + inject_Z 5 / 2)%Q = 3 ∧
  ∃ ex ey,
    worldToGrid 5 (vx demoExit) = ex ∧ worldToGrid 5 (vz demoExit) = ey ∧
    cellIs demoMaze ex ey EXIT ∧
    checkCollision demoExit demoMaze 5
      = Ok (false, [GridRead ey ex; GridRead ey ex; ShowMessageBox escaped; Unlock]).
Proof.
  pose proof (exit_position_roundtrip 16 5 ∅ origin 1 1 demoRng demoMaze demoExit demoRng')
    as [Hi Hexit].
  split.
  - apply Hi. lia.
  - apply Hexit; [lia | vm_compute; reflexivity].
Defined.

(** * Further properties of the generator *)

Lemma generateMaze_start_path fuel mazeSize mazeArray exitPosVector startX startY rng
    maze exitPos rng' :
  generateMaze fuel mazeSize mazeArray exitPosVector startX startY rng
    = Ok (maze, exitPos, rng') →
  cellIs maze startX startY PATH.
Proof.
  intros H.
  apply generateMaze_Ok in H as (g1 & r1 & ex & ey & Hcarve & Hp & Hne & Hset & _).
  apply carvePath_start in Hcarve. simpl in Hcarve. unfold cellIs in *.
  rewrite (setCell_other _ _ _ _ _ _ _ Hset); [exact Hcarve|].
  intros Heq. apply Hne. symmetry. exact Heq.
Qed.

(** X1. Whenever generateMaze returns, for any size and any start, the start
    cell of the returned grid is a path. *)
Theorem generateMaze_start_is_path fuel mazeSize mazeArray exitPosVector startX startY rng
    maze exitPos rng' :
  generateMaze fuel mazeSize mazeArray exitPosVector startX startY rng
    = Ok (maze, exitPos, rng') →
  cellIs maze startX startY PATH.
Proof. apply generateMaze_start_path. Qed.

Lemma generateMaze_start_is_path_witness :
  demoRun = Ok (demoMaze, demoExit, demoRng') ∧ cellIs demoMaze 1 1 PATH.
Proof.
  split; [exact demoRun_returns|].
  apply (generateMaze_start_is_path 16 5 ∅ origin 1 1 demoRng demoMaze demoExit demoRng').
  exact demoRun_returns.
Defined.

(** In a grid of size 3 no cell two steps from the centre is in the grid. *)
Lemma forDirections_size3_centre carve ds st :
  Forall unitStep ds → forDirections carve 3 1 1 ds st = Ok st.
Proof.
  induction ds as [|d rest IH]; intros Hds; [reflexivity|].
  inversion Hds as [|? ? Hd Hrest]; subst. cbn [forDirections].
  destruct (_ && _) eqn:Hguard.
  - apply guard_inBounds in Hguard. unfold inBounds, unitStep in *. lia.
  - simpl. apply IH. assumption.
Qed.

Lemma placeExit_size3_centre fuel : ∀ maze v rng c,
  getCell maze 1 1 = Ok c →
  placeExit fuel 3 1 1 maze v rng = OutOfFuel.
Proof.
  induction fuel as [|fuel IH]; intros maze v rng c Hc; [reflexivity|].
  cbn [placeExit]. unfold randomFloor. simpl. rewrite !Z.mod_1_r. simpl.
  change (0 + 1) with 1. rewrite Hc. simpl. rewrite andb_false_r. eapply IH; eauto.
Qed.

(** X2. With size 3 and the centre (1, 1) as start, the only path cell is
    the start, every sampling of the exit gives the start, and the call
    never returns, whatever the random numbers are. *)
Theorem generateMaze_size3_never_returns fuel mazeArray exitPosVector rng :
  generateMaze fuel 3 mazeArray exitPosVector 1 1 rng = OutOfFuel.
Proof.
  unfold generateMaze. destruct fuel as [|fuel]; [reflexivity|].
  rewrite carvePath_S. simpl fst. simpl snd.
  assert (Hb : inBounds 3 1 1) by (unfold inBounds; lia).
  pose proof (fillWalls_wall 3 mazeArray 1 1 Hb) as Hw.
  destruct (setCell_defined _ _ _ PATH _ Hw) as [g Hset]. rewrite Hset.
  change (Ok g ≫= ?f) with (f g). cbv beta.
  pose proof (shuffleDirections_unit rng) as Hds.
  destruct (shuffleDirections rng) as [ds r]. simpl in Hds.
  rewrite forDirections_size3_centre by assumption.
  change (Ok (g, r) ≫= ?f) with (f (g, r)). cbv beta iota.
  eapply placeExit_size3_centre. apply (setCell_same _ _ _ _ _ Hset).
Qed.

(** * Further properties of the movement *)

Lemma checkCollision_free newPos maze mazeSize events :
  checkCollision newPos maze mazeSize = Ok (false, events) →
  inBounds mazeSize (worldToGrid mazeSize (vx newPos)) (worldToGrid mazeSize (vz newPos)) ∧
  ¬ cellIs maze (worldToGrid mazeSize (vx newPos)) (worldToGrid mazeSize (vz newPos)) WALL.
Proof.
  unfold checkCollision.
  set (gridX := worldToGrid mazeSize (vx newPos)).
  set (gridZ := worldToGrid mazeSize (vz newPos)).
  destruct (_ || _) eqn:Htest; [discriminate|].
  apply outside_inBounds in Htest. unfold andThen, readCell, cellIs.
  destruct (getCell maze gridZ gridX) as [c| |]; simpl; try discriminate.
  destruct (strictEq c 1) eqn:Hc; simpl; [discriminate|].
  intros _. split; [exact Htest|]. intros [= ->]. discriminate.
Qed.

Lemma checkCollision_event newPos maze mazeSize hit events :
  checkCollision newPos maze mazeSize = Ok (hit, events) →
  (messagesShown events ≤ 1)%nat ∧
  (reachedExit events = true → hit = false ∧ inExitCell mazeSize maze newPos).
Proof.
  unfold checkCollision, inExitCell, messagesShown, reachedExit.
  set (gridX := worldToGrid mazeSize (vx newPos)).
  set (gridZ := worldToGrid mazeSize (vz newPos)).
  destruct (_ || _) eqn:Htest.
  - intros [= <- <-]. simpl. split; [lia|discriminate].
  - apply outside_inBounds in Htest. unfold andThen, readCell, cellIs.
    destruct (getCell maze gridZ gridX) as [c| |]; simpl; try discriminate.
    destruct (strictEq c 1) eqn:Hc; simpl.
    + intros [= <- <-]. simpl. split; [lia|discriminate].
    + destruct (strictEq c 2) eqn:Hc2; simpl; intros [= <- <-]; simpl.
      * split; [lia|]. intros _. apply strictEq_true in Hc2. subst c. auto.
      * split; [lia|discriminate].
Qed.

Lemma checkCollision_total newPos maze mazeSize :
  isGrid mazeSize maze → ∃ hit events, checkCollision newPos maze mazeSize = Ok (hit, events).
Proof.
  intros Hg.
  destruct (decide (inBounds mazeSize (worldToGrid mazeSize (vx newPos))
                             (worldToGrid mazeSize (vz newPos)))) as [Hin|Hout].
  - destruct (Hg _ _ Hin) as [v Hv].
    rewrite (checkCollision_inside _ _ _ Hin v Hv).
    destruct (v =? 1); [|destruct (v =? 2)]; eexists _, _; reflexivity.
  - rewrite (checkCollision_outside _ _ _ Hout). eexists _, _. reflexivity.
Qed.

(** The four ways in which the movement step ends. *)
Lemma animate_cases player maze mazeSize player' events :
  animate player maze mazeSize = Ok (player', events) →
  let pos := position player in
  let vel := velocity player in
  ∃ e,
    (checkCollision (add pos vel) maze mazeSize = Ok (false, e) ∧
     player' = withPosition player (add pos vel) ∧ events = e) ∨
    (checkCollision (add pos vel) maze mazeSize = Ok (true, e) ∧
     ∃ eX,
       (checkCollision (shiftX pos vel) maze mazeSize = Ok (false, eX) ∧
        player' = withPosition player (shiftX pos vel) ∧ events = e ++ eX) ∨
       (checkCollision (shiftX pos vel) maze mazeSize = Ok (true, eX) ∧
        ∃ eZ,
          (checkCollision (shiftZ pos vel) maze mazeSize = Ok (false, eZ) ∧
           player' = withPosition player (shiftZ pos vel) ∧ events = e ++ eX ++ eZ) ∨
          (checkCollision (shiftZ pos vel) maze mazeSize = Ok (true, eZ) ∧
           player' = withVelocity player {| vx := 0; vy := 0; vz := 0 |} ∧
           events = e ++ eX ++ eZ))).
Proof.
  intros H pos vel. unfold animate in H. fold pos vel in H.
  destruct (checkCollision (add pos vel) maze mazeSize) as [[hit e]| |] eqn:Hc;
    try discriminate H.
  rewrite (andThen_Ok _ _ _ _ eq_refl) in H. exists e. destruct hit; cbn [negb] in H.
  - right. split; [reflexivity|].
    destruct (checkCollision (shiftX pos vel) maze mazeSize) as [[hitX eX]| |] eqn:HcX;
      try discriminate H.
    rewrite (andThen_Ok _ _ _ _ eq_refl) in H. exists eX. destruct hitX; cbn [negb] in H.
    + right. split; [reflexivity|].
      destruct (checkCollision (shiftZ pos vel) maze mazeSize) as [[hitZ eZ]| |] eqn:HcZ;
        try discriminate H.
      rewrite (andThen_Ok _ _ _ _ eq_refl) in H. exists eZ.
      destruct hitZ; cbn [negb] in H; injection H as <- <-; rewrite app_nil_r; auto.
    + left. injection H as <- <-. rewrite app_nil_r. auto.
  - left. injection H as <- <-. rewrite app_nil_r. auto.
Qed.

Lemma messagesShown_app e1 e2 :
  messagesShown (e1 ++ e2) = (messagesShown e1 + messagesShown e2)%nat.
Proof. unfold messagesShown. rewrite List.filter_app, length_app. reflexivity. Qed.

Lemma reachedExit_app e1 e2 :
  reachedExit (e1 ++ e2) = reachedExit e1 || reachedExit e2.
Proof. unfold reachedExit. apply existsb_app. Qed.

Lemma blocked_silent newPos maze mazeSize events :
  checkCollision newPos maze mazeSize = Ok (true, events) →
  messagesShown events = 0%nat ∧ reachedExit events = false.
Proof.
  intros H. pose proof (checkCollision_event _ _ _ _ _ H) as [Hle Hex].
  assert (Hr : reachedExit events = false).
  { destruct (reachedExit events); [|reflexivity]. destruct Hex as [Hex _]; auto. }
  split; [|exact Hr]. clear - Hr. unfold messagesShown, reachedExit in *.
  induction events as [|ev events IH]; [reflexivity|]. simpl in *.
  destruct ev; simpl in *; try discriminate; auto.
Qed.

Lemma animate_open player maze mazeSize :
  isGrid mazeSize maze →
  standsOpen mazeSize maze (position player) →
  ∃ player' events,
    animate player maze mazeSize = Ok (player', events) ∧
    standsOpen mazeSize maze (position player').
Proof.
  intros Hg Hopen.
  assert (Hfree : ∀ p e, checkCollision p maze mazeSize = Ok (false, e) →
                         standsOpen mazeSize maze p).
  { intros p e H. apply checkCollision_free in H as [Hin Hw]. split; [exact Hin|].
    destruct (Hg _ _ Hin) as [v Hv]. exists v. split; [exact Hv|].
    intros ->. contradiction. }
  set (pos := position player). set (vel := velocity player).
  destruct (checkCollision_total (add pos vel) maze mazeSize Hg) as (hit & e & Hc).
  destruct (checkCollision_total (shiftX pos vel) maze mazeSize Hg) as (hitX & eX & HcX).
  destruct (checkCollision_total (shiftZ pos vel) maze mazeSize Hg) as (hitZ & eZ & HcZ).
  unfold animate. fold pos vel. rewrite (andThen_Ok _ _ _ _ Hc).
  destruct hit; cbn [negb].
  - rewrite (andThen_Ok _ _ _ _ HcX). destruct hitX; cbn [negb].
    + rewrite (andThen_Ok _ _ _ _ HcZ). destruct hitZ; cbn [negb].
      * eexists _, _. split; [reflexivity|]. exact Hopen.
      * eexists _, _. split; [reflexivity|]. simpl. eapply Hfree; eauto.
    + eexists _, _. split; [reflexivity|]. simpl. eapply Hfree; eauto.
  - eexists _, _. split; [reflexivity|]. simpl. eapply Hfree; eauto.
Qed.

(** X3. On a grid, from a position in a cell that is not a wall, the
    movement step raises no error and leaves the player in a cell of the
    grid that is not a wall, whatever the velocity is. *)
Theorem animate_stays_open player maze mazeSize :
  isGrid mazeSize maze →
  standsOpen mazeSize maze (position player) →
  ∃ player' events,
    animate player maze mazeSize = Ok (player', events) ∧
    standsOpen mazeSize maze (position player').
Proof. apply animate_open. Qed.

(** X4. A movement step calls showMessageBox at most once, and when it does
    the player ends the step in the exit cell of the grid. *)
Theorem animate_exit_event player maze mazeSize player' events :
  animate player maze mazeSize = Ok (player', events) →
  (messagesShown events ≤ 1)%nat ∧
  (reachedExit events = true → inExitCell mazeSize maze (position player')).
Proof.
  intros H. apply animate_cases in H. cbv zeta in H.
  destruct H as (e & [(Hc & -> & ->)|(Hc & eX & H)]).
  - pose proof (checkCollision_event _ _ _ _ _ Hc) as [Hle Hex].
    split; [exact Hle|]. intros Hr. apply Hex, Hr.
  - destruct (blocked_silent _ _ _ _ Hc) as [Hm Hr].
    destruct H as [(HcX & -> & ->)|(HcX & eZ & H)].
    + pose proof (checkCollision_event _ _ _ _ _ HcX) as [Hle Hex].
      rewrite messagesShown_app, reachedExit_app, Hm, Hr. simpl.
      split; [exact Hle|]. intros Hr'. apply Hex, Hr'.
    + destruct (blocked_silent _ _ _ _ HcX) as [HmX HrX].
      destruct H as [(HcZ & -> & ->)|(HcZ & -> & ->)].
      * pose proof (checkCollision_event _ _ _ _ _ HcZ) as [Hle Hex].
        rewrite !messagesShown_app, !reachedExit_app, Hm, Hr, HmX, HrX. simpl.
        split; [exact Hle|]. intros Hr'. apply Hex, Hr'.
      * destruct (blocked_silent _ _ _ _ HcZ) as [HmZ HrZ].
        rewrite !messagesShown_app, !reachedExit_app, Hm, Hr, HmX, HrX, HmZ, HrZ. simpl.
        split; [lia|discriminate].
Qed.

Lemma animate_stays_open_witness :
  ∃ player' events,
    animate (demoPlayer alongWall) demoMaze 5 = Ok (player', events) ∧
    standsOpen 5 demoMaze (position player').
Proof.
  apply (animate_stays_open (demoPlayer alongWall) demoMaze 5).
  - exact demoMaze_isGrid.
  - split.
    + vm_compute. repeat split; discriminate.
    + exists 0. split; [vm_compute; reflexivity|discriminate].
Defined.

Lemma animate_exit_event_witness :
  (messagesShown [GridRead 1 2; GridRead 1 2; ShowMessageBox escaped; Unlock] ≤ 1)%nat ∧
  (reachedExit [GridRead 1 2; GridRead 1 2; ShowMessageBox escaped; Unlock] = true →
   inExitCell 5 demoMaze
     (position (withPosition demoWalker (add (position demoWalker) (velocity demoWalker))))).
Proof.
  apply (animate_exit_event demoWalker demoMaze 5).
  vm_compute. reflexivity.
Defined.

(** * The player at the start *)

Example demoRunCentre_returns :
  demoRunCentre = Ok (demoMazeCentre, demoExitCentre, demoRngCentre).
Proof. vm_compute. reflexivity. Qed.

Lemma Qfloor_half_of n : Qfloor (inject_Z n / 2) = n / 2.
Proof.
  unfold Qdiv, Qmult, Qinv, inject_Z, Qfloor. simpl. rewrite Z.mul_1_r. reflexivity.
Qed.

Lemma worldToGrid_zero mazeSize : worldToGrid mazeSize 0 = mazeSize / 2.
Proof.
  unfold worldToGrid. rewrite Qplus_0_l. apply Qfloor_half_of.
Qed.

Lemma worldToGrid_startCoordinate mazeSize :
  worldToGrid mazeSize (startCoordinate mazeSize CELL_SIZE) = mazeSize / 2.
Proof.
  unfold startCoordinate.
  change (worldToGrid mazeSize (gridToWorld mazeSize (Qfloor (inject_Z mazeSize / 2)))
          = mazeSize / 2).
  rewrite worldToGrid_gridToWorld. apply Qfloor_half_of.
Qed.

(** X5. In a maze generated from the start cell (floor(N/2), floor(N/2)), as
    initGame does, the position of the player at load time and the
    position set by the start button both lie in the start cell, where
    checkCollision finds neither a wall nor the exit. *)
Theorem player_starts_on_path fuel mazeSize mazeArray exitPosVector rng
    maze exitPos rng' player :
  0 < mazeSize →
  generateMaze fuel mazeSize mazeArray exitPosVector (mazeSize / 2) (mazeSize / 2) rng
    = Ok (maze, exitPos, rng') →
  let free := Ok (false, [GridRead (mazeSize / 2) (mazeSize / 2);
                          GridRead (mazeSize / 2) (mazeSize / 2)]) in
  checkCollision (position initialPlayer) maze mazeSize = free ∧
  checkCollision (position (startButtonClick player mazeSize CELL_SIZE).1) maze mazeSize
    = free.
Proof.
  intros Hsize H free. apply generateMaze_start_path in H.
  assert (Hin : inBounds mazeSize (mazeSize / 2) (mazeSize / 2)).
  { unfold inBounds. Z.to_euclidean_division_equations. lia. }
  split.
  - pose proof (checkCollision_inside (position initialPlayer) maze mazeSize) as Hcc.
    cbv zeta in Hcc. simpl vx in Hcc. simpl vz in Hcc.
    rewrite worldToGrid_zero in Hcc. apply (Hcc Hin PATH H).
  - pose proof (checkCollision_inside (position (startButtonClick player mazeSize CELL_SIZE).1)
                  maze mazeSize) as Hcc.
    cbv zeta in Hcc. simpl vx in Hcc. simpl vz in Hcc.
    rewrite worldToGrid_startCoordinate in Hcc. apply (Hcc Hin PATH H).
Qed.

Lemma player_starts_on_path_witness :
  demoRunCentre = Ok (demoMazeCentre, demoExitCentre, demoRngCentre) ∧
  checkCollision (position initialPlayer) demoMazeCentre 5
    = Ok (false, [GridRead (5 / 2) (5 / 2); GridRead (5 / 2) (5 / 2)]) ∧
  checkCollision (position (startButtonClick initialPlayer 5 CELL_SIZE).1) demoMazeCentre 5
    = Ok (false, [GridRead (5 / 2) (5 / 2); GridRead (5 / 2) (5 / 2)]).
Proof.
  split; [exact demoRunCentre_returns|].
  apply (player_starts_on_path 16 5 ∅ origin demoRng demoMazeCentre demoExitCentre
           demoRngCentre initialPlayer).
  - lia.
  - exact demoRunCentre_returns.
Defined.

(** * createMazeObjects *)

Lemma cellIs_inj maze x y v w : cellIs maze x y v → cellIs maze x y w → v = w.
Proof. unfold cellIs. congruence. Qed.

Lemma addCellObject_cell maze mazeSize wallHeight cellSize y x scene v :
  cellIs maze x y v →
  addCellObject maze mazeSize wallHeight cellSize y x scene =
    Ok (if v =? 1 then scene ++ [blockMesh wallMaterial mazeSize wallHeight cellSize x y]
        else if v =? 2 then scene ++ [blockMesh exitMaterial mazeSize wallHeight cellSize x y]
        else scene).
Proof.
  unfold addCellObject, cellIs. intros ->. simpl.
  destruct (v =? 1); [reflexivity|]. simpl. destruct (v =? 2); reflexivity.
Qed.

Lemma blockOf_cell maze mazeSize wallHeight cellSize x y v m :
  cellIs maze x y v →
  blockOf maze mazeSize wallHeight cellSize x y m ↔
  m ∈ (if v =? 1 then [blockMesh wallMaterial mazeSize wallHeight cellSize x y]
       else if v =? 2 then [blockMesh exitMaterial mazeSize wallHeight cellSize x y]
       else []).
Proof.
  intros Hv. unfold blockOf, WALL, EXIT. split.
  - intros [[Hc ->]|[Hc ->]]; rewrite (cellIs_inj _ _ _ _ _ Hv Hc); simpl; left.
  - destruct (Z.eqb_spec v 1) as [->|H1].
    + intros Hm. apply list_elem_of_singleton in Hm. auto.
    + destruct (Z.eqb_spec v 2) as [->|H2].
      * intros Hm. apply list_elem_of_singleton in Hm. auto.
      * intros Hm. inversion Hm.
Qed.

Lemma rowObjects maze mazeSize wallHeight cellSize y scene (n : nat) :
  (∀ x, 0 ≤ x < Z.of_nat n → ∃ v, cellIs maze x y v) →
  ∃ objs,
    forUpToM n (addCellObject maze mazeSize wallHeight cellSize y) scene = Ok (scene ++ objs) ∧
    ∀ m, m ∈ objs ↔ ∃ x, 0 ≤ x < Z.of_nat n ∧ blockOf maze mazeSize wallHeight cellSize x y m.
Proof.
  induction n as [|n IH]; intros Hrow.
  - exists []. split; [simpl; rewrite app_nil_r; reflexivity|].
    intros m. split; [intros Hm; inversion Hm|intros (x & Hx & _); lia].
  - destruct IH as (objs & Hloop & Hobjs); [intros x Hx; apply Hrow; lia|].
    destruct (Hrow (Z.of_nat n) ltac:(lia)) as [v Hv].
    cbn [forUpToM]. rewrite Hloop. change (Ok ?a ≫= ?f) with (f a). cbv beta.
    rewrite (addCellObject_cell _ _ _ _ _ _ _ v Hv).
    exists (objs ++ (if v =? 1
                     then [blockMesh wallMaterial mazeSize wallHeight cellSize (Z.of_nat n) y]
                     else if v =? 2
                     then [blockMesh exitMaterial mazeSize wallHeight cellSize (Z.of_nat n) y]
                     else [])).
    split.
    + destruct (v =? 1); [|destruct (v =? 2)]; rewrite ?app_nil_r, ?app_assoc; reflexivity.
    + intros m. rewrite elem_of_app, Hobjs, <- (blockOf_cell _ _ _ _ _ _ _ m Hv). split.
      * intros [(x & Hx & Hb)|Hb]; [exists x|exists (Z.of_nat n)]; split; auto; lia.
      * intros (x & Hx & Hb). destruct (decide (x = Z.of_nat n)) as [->|Hne]; [auto|].
        left. exists x. split; [lia|exact Hb].
Qed.

Lemma gridObjects maze mazeSize wallHeight cellSize scene (n : nat) :
  (∀ x y, 0 ≤ x < mazeSize → 0 ≤ y < Z.of_nat n → ∃ v, cellIs maze x y v) →
  ∃ objs,
    forUpToM n (λ y scene,
        forUpToM (Z.to_nat mazeSize) (addCellObject maze mazeSize wallHeight cellSize y) scene)
      scene = Ok (scene ++ objs) ∧
    ∀ m, m ∈ objs ↔
         ∃ x y, (0 ≤ x < mazeSize ∧ 0 ≤ y < Z.of_nat n) ∧
                blockOf maze mazeSize wallHeight cellSize x y m.
Proof.
  induction n as [|n IH]; intros Hgrid.
  - exists []. split; [simpl; rewrite app_nil_r; reflexivity|].
    intros m. split; [intros Hm; inversion Hm|intros (x & y & [_ Hy] & _); lia].
  - destruct IH as (objs & Hloop & Hobjs); [intros x y Hx Hy; apply Hgrid; lia|].
    cbn [forUpToM]. rewrite Hloop. change (Ok ?a ≫= ?f) with (f a). cbv beta.
    destruct (rowObjects maze mazeSize wallHeight cellSize (Z.of_nat n) (scene ++ objs)
                (Z.to_nat mazeSize)) as (row & Hrow & Hrows).
    { intros x Hx. apply Hgrid; lia. }
    rewrite Hrow. exists (objs ++ row). split; [rewrite app_assoc; reflexivity|].
    intros m. rewrite elem_of_app, Hobjs, Hrows. split.
    + intros [(x & y & [Hx Hy] & Hb)|(x & Hx & Hb)].
      * exists x, y. split; [lia|exact Hb].
      * exists x, (Z.of_nat n). split; [lia|exact Hb].
    + intros (x & y & [Hx Hy] & Hb). destruct (decide (y = Z.of_nat n)) as [->|Hne].
      * right. exists x. split; [lia|exact Hb].
      * left. exists x, y. split; [lia|exact Hb].
Qed.

Lemma createMazeObjects_grid scene maze mazeSize wallHeight cellSize :
  isGrid mazeSize maze →
  ∃ objs,
    createMazeObjects scene maze mazeSize wallHeight cellSize
      = Ok (scene ++ objs ++ [mainFloor mazeSize cellSize]) ∧
    ∀ m, m ∈ objs ↔
         ∃ x y, inBounds mazeSize x y ∧ blockOf maze mazeSize wallHeight cellSize x y m.
Proof.
  intros Hg. unfold createMazeObjects.
  destruct (gridObjects maze mazeSize wallHeight cellSize scene (Z.to_nat mazeSize))
    as (objs & Hloop & Hobjs).
  { intros x y Hx Hy. apply Hg. unfold inBounds. lia. }
  rewrite Hloop. exists objs. split; [simpl; rewrite app_assoc; reflexivity|].
  intros m. rewrite Hobjs. unfold inBounds.
  split; intros (x & y & Hxy & Hb); exists x, y; (split; [lia|exact Hb]).
Qed.









Lemma rowObjects_missing maze mazeSize wallHeight cellSize y scene (n : nat) :
  maze !! y = None → (0 < n)%nat →
  forUpToM n (addCellObject maze mazeSize wallHeight cellSize y) scene = TypeError.
Proof.
  intros Hrow Hn. destruct n as [|n]; [lia|]. clear Hn. cbn [forUpToM].
  destruct (forUpToM n _ scene) as [s| |] eqn:Hloop.
  - change (Ok s ≫= ?f) with (f s). cbv beta.
    unfold addCellObject, getCell. rewrite Hrow. reflexivity.
  - reflexivity.
  - exfalso. revert scene Hloop. induction n as [|n IH]; intros scene; [discriminate|].
    cbn [forUpToM]. destruct (forUpToM n _ scene) as [s| |] eqn:Hk; simpl.
    + unfold addCellObject, getCell. rewrite Hrow. discriminate.
    + discriminate.
    + intros _. eapply IH; eauto.
Qed.

Lemma forUpToM_no_fuel {A} (body : Z → A → result A) :
  (∀ i a, body i a ≠ OutOfFuel) → ∀ n a, forUpToM n body a ≠ OutOfFuel.
Proof.
  intros Hb. induction n as [|n IH]; intros a; [discriminate|].
  cbn [forUpToM]. destruct (forUpToM n body a) as [a'| |] eqn:Hn.
  - apply Hb.
  - discriminate.
  - exfalso. eapply IH; eauto.
Qed.

Lemma addCellObject_no_fuel maze mazeSize wallHeight cellSize y x scene :
  addCellObject maze mazeSize wallHeight cellSize y x scene ≠ OutOfFuel.
Proof.
  unfold addCellObject, getCell. destruct (maze !! y) as [row|]; simpl; [|discriminate].
  destruct (strictEq _ 1); [discriminate|]. destruct (strictEq _ 2); discriminate.
Qed.

(** X7. When a row of the grid is missing from the maze array, as it is
    before generateMaze has run, createMazeObjects throws a TypeError. *)
Theorem createMazeObjects_missing_row scene maze mazeSize wallHeight cellSize y :
  0 ≤ y < mazeSize → maze !! y = None →
  createMazeObjects scene maze mazeSize wallHeight cellSize = TypeError.
Proof.
  intros Hy Hrow. unfold createMazeObjects.
  assert (Hloop : ∀ n : nat, y < Z.of_nat n →
            forUpToM n (λ y scene,
                forUpToM (Z.to_nat mazeSize)
                  (addCellObject maze mazeSize wallHeight cellSize y) scene) scene
            = TypeError).
  { induction n as [|n IH]; intros Hn; [lia|]. cbn [forUpToM].
    destruct (decide (y = Z.of_nat n)) as [->|Hne].
    - destruct (forUpToM n _ scene) as [s| |] eqn:Hk.
      + change (Ok s ≫= ?f) with (f s). cbv beta. apply rowObjects_missing; [exact Hrow|lia].
      + reflexivity.
      + exfalso. revert Hk. apply forUpToM_no_fuel. intros i a.
        apply forUpToM_no_fuel. intros j b. apply addCellObject_no_fuel.
    - rewrite IH by lia. reflexivity. }
  rewrite Hloop by lia. reflexivity.
Qed.

Lemma createMazeObjects_missing_row_witness :
  createMazeObjects [] ∅ 5 WALL_HEIGHT CELL_SIZE = TypeError.
Proof.
  apply (createMazeObjects_missing_row [] ∅ 5 WALL_HEIGHT CELL_SIZE 0);
    [lia|apply lookup_empty].
Defined.

Lemma isGrid_setCell mazeSize maze y x v maze' :
  isGrid mazeSize maze → setCell maze y x v = Ok maze' → isGrid mazeSize maze'.
Proof.
  intros Hg Hset x' y' Hb. unfold cellIs. rewrite (setCell_get _ _ _ _ _ y' x' Hset).
  destruct (decide _); [eauto|]. apply Hg, Hb.
Qed.

Lemma generateMaze_isGrid fuel mazeSize mazeArray exitPosVector startX startY rng
    maze exitPos rng' :
  generateMaze fuel mazeSize mazeArray exitPosVector startX startY rng
    = Ok (maze, exitPos, rng') →
  isGrid mazeSize maze.
Proof.
  intros H.
  apply generateMaze_Ok in H as (g1 & r1 & ex & ey & Hcarve & _ & _ & Hset & _).
  apply carvePath_evolves in Hcarve. simpl in Hcarve.
  eapply isGrid_setCell; [|exact Hset].
  eapply evolves_isGrid; [exact Hcarve|apply fillWalls_isGrid].
Qed.

(** X8. For the grid and the exit position that generateMaze returns (size
    above 2), createMazeObjects with the cell size of the game adds the
    gold block at the exit position, at half the wall height, and no other
    block of the exit material. *)
Theorem createMazeObjects_exit_block fuel mazeSize mazeArray exitPosVector startX startY rng
    maze exitPos rng' scene wallHeight :
  2 < mazeSize →
  generateMaze fuel mazeSize mazeArray exitPosVector startX startY rng
    = Ok (maze, exitPos, rng') →
  ∃ objs gold,
    createMazeObjects scene maze mazeSize wallHeight CELL_SIZE
      = Ok (scene ++ objs ++ [mainFloor mazeSize CELL_SIZE]) ∧
    meshPosition gold = {| vx := vx exitPos; vy := wallHeight / 2; vz := vz exitPos |}%Q ∧
    ∀ m, m ∈ objs ∧ material m = exitMaterial ↔ m = gold.
Proof.
  intros Hsize H. pose proof (generateMaze_isGrid _ _ _ _ _ _ _ _ _ _ H) as Hg.
  destruct (generateMaze_exit_cell _ _ _ _ _ _ _ _ _ _ Hsize H)
    as (ex & ey & [Hx Hy] & Hex & _ & -> & Huniq & _).
  destruct (createMazeObjects_grid scene maze mazeSize wallHeight CELL_SIZE Hg)
    as (objs & Hobjs & Hmem).
  exists objs, (blockMesh exitMaterial mazeSize wallHeight CELL_SIZE ex ey).
  split; [exact Hobjs|]. split; [reflexivity|].
  intros m. rewrite Hmem. split.
  - intros [(x & y & Hb & [[_ ->]|[Hc ->]]) Hmat]; [discriminate Hmat|].
    pose proof (Huniq x y Hb Hc) as [= -> ->]. reflexivity.
  - intros ->. split; [|reflexivity]. exists ex, ey.
    split; [unfold inBounds; lia|]. right. auto.
Qed.

Lemma createMazeObjects_exit_block_witness :
  demoRun = Ok (demoMaze, demoExit, demoRng') ∧
  ∃ objs gold,
    createMazeObjects [] demoMaze 5 WALL_HEIGHT CELL_SIZE
      = Ok ([] ++ objs ++ [mainFloor 5 CELL_SIZE]) ∧
    meshPosition gold
      = {| vx := vx demoExit; vy := WALL_HEIGHT / 2; vz := vz demoExit |}%Q ∧
    ∀ m, m ∈ objs ∧ material m = exitMaterial ↔ m = gold.
Proof.
  split; [exact demoRun_returns|].
  apply (createMazeObjects_exit_block 16 5 ∅ origin 1 1 demoRng demoMaze demoExit demoRng'
           [] WALL_HEIGHT); [lia|exact demoRun_returns].
Defined.




(** * updateMinimap *)

Lemma paintCell_cell maze y x ctx v :
  cellIs maze x y v →
  ∃ style,
    paintCell maze y x ctx
      = Ok {| fillStyle := style; drawn := drawn ctx ++ [cellSquare style x y] |} ∧
    cellStyle v style.
Proof.
  unfold paintCell, cellIs, cellStyle, cellSquare. intros ->. simpl.
  destruct (Z.eqb_spec v 1) as [->|H1]; simpl.
  { eexists. split; [reflexivity|]. repeat split; intros; auto; discriminate. }
  destruct (Z.eqb_spec v 0) as [->|H0]; simpl.
  { eexists. split; [reflexivity|]. repeat split; intros; auto; discriminate. }
  destruct (Z.eqb_spec v 2) as [->|H2]; simpl.
  { eexists. split; [reflexivity|]. repeat split; intros; auto; discriminate. }
  eexists. split; [reflexivity|]. repeat split; intros; contradiction.
Qed.

Lemma rowPainted maze y ctx (n : nat) :
  (∀ x, 0 ≤ x < Z.of_nat n → ∃ v, cellIs maze x y v) →
  ∃ style rects,
    forUpToM n (paintCell maze y) ctx
      = Ok {| fillStyle := style; drawn := drawn ctx ++ rects |} ∧
    length rects = n ∧
    ∀ x v, 0 ≤ x < Z.of_nat n → cellIs maze x y v →
           ∃ s, cellSquare s x y ∈ rects ∧ cellStyle v s.
Proof.
  induction n as [|n IH]; intros Hrow.
  - exists (fillStyle ctx), []. split; [simpl; rewrite app_nil_r; destruct ctx; reflexivity|].
    split; [reflexivity|]. intros x v Hx. lia.
  - destruct IH as (style & rects & Hloop & Hlen & Hcells); [intros x Hx; apply Hrow; lia|].
    destruct (Hrow (Z.of_nat n) ltac:(lia)) as [v Hv].
    cbn [forUpToM]. rewrite Hloop. change (Ok ?a ≫= ?f) with (f a). cbv beta.
    destruct (paintCell_cell maze y (Z.of_nat n)
                {| fillStyle := style; drawn := drawn ctx ++ rects |} v Hv)
      as (s & Hpaint & Hs).
    rewrite Hpaint. simpl drawn.
    exists s, (rects ++ [cellSquare s (Z.of_nat n) y]).
    split; [rewrite app_assoc; reflexivity|]. split; [rewrite length_app; simpl; lia|].
    intros x w Hx Hw. destruct (decide (x = Z.of_nat n)) as [->|Hne].
    + exists s. split; [apply elem_of_app; right; left|].
      rewrite (cellIs_inj _ _ _ _ _ Hw Hv). exact Hs.
    + destruct (Hcells x w ltac:(lia) Hw) as (s' & Hin & Hs').
      exists s'. split; [apply elem_of_app; left; exact Hin|exact Hs'].
Qed.

Lemma gridPainted maze mazeSize ctx (n : nat) :
  (∀ x y, 0 ≤ x < mazeSize → 0 ≤ y < Z.of_nat n → ∃ v, cellIs maze x y v) →
  ∃ style rects,
    forUpToM n (λ y ctx, forUpToM (Z.to_nat mazeSize) (paintCell maze y) ctx) ctx
      = Ok {| fillStyle := style; drawn := drawn ctx ++ rects |} ∧
    length rects = (n * Z.to_nat mazeSize)%nat ∧
    ∀ x y v, 0 ≤ x < mazeSize → 0 ≤ y < Z.of_nat n → cellIs maze x y v →
             ∃ s, cellSquare s x y ∈ rects ∧ cellStyle v s.
Proof.
  induction n as [|n IH]; intros Hgrid.
  - exists (fillStyle ctx), []. split; [simpl; rewrite app_nil_r; destruct ctx; reflexivity|].
    split; [reflexivity|]. intros x y v _ Hy. lia.
  - destruct IH as (style & rects & Hloop & Hlen & Hcells);
      [intros x y Hx Hy; apply Hgrid; lia|].
    cbn [forUpToM]. rewrite Hloop. change (Ok ?a ≫= ?f) with (f a). cbv beta.
    destruct (rowPainted maze (Z.of_nat n)
                {| fillStyle := style; drawn := drawn ctx ++ rects |} (Z.to_nat mazeSize))
      as (s & row & Hrow & Hrlen & Hrcells).
    { intros x Hx. apply Hgrid; lia. }
    rewrite Hrow. simpl drawn. exists s, (rects ++ row).
    split; [rewrite app_assoc; reflexivity|]. split; [rewrite length_app; lia|].
    intros x y v Hx Hy Hv. destruct (decide (y = Z.of_nat n)) as [->|Hne].
    + destruct (Hrcells x v ltac:(lia) Hv) as (s' & Hin & Hs').
      exists s'. split; [apply elem_of_app; right; exact Hin|exact Hs'].
    + destruct (Hcells x y v Hx ltac:(lia) Hv) as (s' & Hin & Hs').
      exists s'. split; [apply elem_of_app; left; exact Hin|exact Hs'].
Qed.

Lemma updateMinimap_grid player maze mazeSize ctx canvasWidth canvasHeight :
  isGrid mazeSize maze →
  ∃ rects,
    updateMinimap player maze mazeSize ctx canvasWidth canvasHeight
      = Ok {| fillStyle := "red";
              drawn := drawn ctx ++ [ClearRect 0 0 canvasWidth canvasHeight] ++ rects ++
                       [BeginPath;
                        Arc (playerMiniMap mazeSize (vx (position player)))
                            (playerMiniMap mazeSize (vz (position player))) 4;
                        Fill "red"] |} ∧
    length rects = (Z.to_nat mazeSize * Z.to_nat mazeSize)%nat ∧
    ∀ x y v, inBounds mazeSize x y → cellIs maze x y v →
             ∃ s, cellSquare s x y ∈ rects ∧ cellStyle v s.
Proof.
  intros Hg. unfold updateMinimap.
  destruct (gridPainted maze mazeSize (draw (ClearRect 0 0 canvasWidth canvasHeight) ctx)
              (Z.to_nat mazeSize)) as (style & rects & Hloop & Hlen & Hcells).
  { intros x y Hx Hy. apply Hg. unfold inBounds. lia. }
  rewrite Hloop. exists rects. split.
  - simpl. unfold draw, setFillStyle. simpl. rewrite <- !app_assoc. reflexivity.
  - split; [exact Hlen|]. intros x y v [Hx Hy]. apply Hcells; lia.
Qed.



Lemma playerMiniMap_in_square mazeSize coord :
  (inject_Z (worldToGrid mazeSize coord) * 10 <= playerMiniMap mazeSize coord)%Q ∧
  (playerMiniMap mazeSize coord < inject_Z (worldToGrid mazeSize coord) * 10 + 10)%Q.
Proof.
  unfold playerMiniMap, worldToGrid.
  set (q := (coord + inject_Z mazeSize / 2)%Q).
  pose proof (Qfloor_le q) as Hle. pose proof (Qlt_floor q) as Hlt.
  rewrite inject_Z_plus in Hlt.
  assert (Heq : ((q - (1 # 2)) * 10 + 5 == q * 10)%Q) by ring.
  rewrite Heq. change (inject_Z 1) with 1%Q in Hlt. split; lra.
Qed.

Lemma playerMiniMap_closed_square mazeSize coord :
  (inject_Z (worldToGrid mazeSize coord) * 10 <= playerMiniMap mazeSize coord)%Q ∧
  (playerMiniMap mazeSize coord <= inject_Z (worldToGrid mazeSize coord) * 10 + 10)%Q.
Proof.
  destruct (playerMiniMap_in_square mazeSize coord) as [Hlo Hhi].
  split; [exact Hlo|apply Qlt_le_weak, Hhi].
Qed.

Lemma rounding_between fl bound (lo hi : Z) (q : Q) :
  isRounding fl bound → Z.abs lo ≤ bound → Z.abs hi ≤ bound →
  (inject_Z lo / 2 <= q)%Q → (q <= inject_Z hi / 2)%Q →
  (inject_Z lo / 2 <= fl q)%Q ∧ (fl q <= inject_Z hi / 2)%Q.
Proof.
  intros [Hmono Hexact] Hlo Hhi H1 H2. split.
  - rewrite <- (Hexact lo Hlo). apply Hmono, H1.
  - rewrite <- (Hexact hi Hhi). apply Hmono, H2.
Qed.

(** With the operations rounded, the dot is still in the square of the cell
    that checkCollision computes, the far edge included. *)
Lemma playerMiniMapRounded_closed_square fl bound mazeSize coord :
  isRounding fl bound →
  let g := worldToGridRounded fl mazeSize coord in
  0 ≤ g → 20 * g + 20 ≤ bound →
  (inject_Z g * 10 <= playerMiniMapRounded fl mazeSize coord)%Q ∧
  (playerMiniMapRounded fl mazeSize coord <= inject_Z g * 10 + 10)%Q.
Proof.
  intros Hfl g Hg Hbound. unfold playerMiniMapRounded.
  set (s := fl (coord + fl (inject_Z mazeSize / 2))%Q).
  assert (Hs : (inject_Z g <= s ∧ s < inject_Z g + 1)%Q).
  { unfold g, worldToGridRounded. fold s. split; [apply Qfloor_le|].
    pose proof (Qlt_floor s) as Hlt. rewrite inject_Z_plus in Hlt. exact Hlt. }
  destruct Hs as [Hs1 Hs2].
  destruct (rounding_between fl bound (2 * g + -1) (2 * g + 1) (s - (1 # 2))%Q Hfl)
    as [Ha1 Ha2]; try lia.
  { unfold Qdiv. change (/ 2)%Q with (1 # 2)%Q. rewrite inject_Z_plus, inject_Z_mult.
    change (inject_Z 2) with (2 # 1)%Q. change (inject_Z (-1)) with (-1 # 1)%Q. lra. }
  { unfold Qdiv. change (/ 2)%Q with (1 # 2)%Q. rewrite inject_Z_plus, inject_Z_mult.
    change (inject_Z 2) with (2 # 1)%Q. change (inject_Z 1) with (1 # 1)%Q. lra. }
  set (a := fl (s - (1 # 2))%Q) in *.
  unfold Qdiv in Ha1, Ha2. change (/ 2)%Q with (1 # 2)%Q in Ha1, Ha2.
  rewrite inject_Z_plus, inject_Z_mult in Ha1, Ha2.
  change (inject_Z 2) with (2 # 1)%Q in Ha1, Ha2.
  change (inject_Z (-1)) with (-1 # 1)%Q in Ha1. change (inject_Z 1) with (1 # 1)%Q in Ha2.
  destruct (rounding_between fl bound (20 * g + -10) (20 * g + 10) (a * 10)%Q Hfl)
    as [Hb1 Hb2]; try lia.
  { unfold Qdiv. change (/ 2)%Q with (1 # 2)%Q. rewrite inject_Z_plus, inject_Z_mult.
    change (inject_Z 20) with (20 # 1)%Q. change (inject_Z (-10)) with (-10 # 1)%Q. lra. }
  { unfold Qdiv. change (/ 2)%Q with (1 # 2)%Q. rewrite inject_Z_plus, inject_Z_mult.
    change (inject_Z 20) with (20 # 1)%Q. change (inject_Z 10) with (10 # 1)%Q. lra. }
  set (b := fl (a * 10)%Q) in *.
  unfold Qdiv in Hb1, Hb2. change (/ 2)%Q with (1 # 2)%Q in Hb1, Hb2.
  rewrite inject_Z_plus, inject_Z_mult in Hb1, Hb2.
  change (inject_Z 20) with (20 # 1)%Q in Hb1, Hb2.
  change (inject_Z (-10)) with (-10 # 1)%Q in Hb1. change (inject_Z 10) with (10 # 1)%Q in Hb2.
  destruct (rounding_between fl bound (20 * g) (20 * g + 20) (b + 5)%Q Hfl)
    as [Hc1 Hc2]; try lia.
  { unfold Qdiv. change (/ 2)%Q with (1 # 2)%Q. rewrite inject_Z_mult.
    change (inject_Z 20) with (20 # 1)%Q. lra. }
  { unfold Qdiv. change (/ 2)%Q with (1 # 2)%Q. rewrite inject_Z_plus, inject_Z_mult.
    change (inject_Z 20) with (20 # 1)%Q. lra. }
  unfold Qdiv in Hc1, Hc2. change (/ 2)%Q with (1 # 2)%Q in Hc1, Hc2.
  rewrite inject_Z_mult in Hc1. rewrite inject_Z_plus, inject_Z_mult in Hc2.
  change (inject_Z 20) with (20 # 1)%Q in Hc1, Hc2. split; lra.
Qed.

Lemma isRounding_exact bound : isRounding (λ q, q) bound.
Proof. split; [auto|]. intros k _. reflexivity. Qed.

(** X11. The red dot of the minimap is in the square of the cell in which
    checkCollision places the player: on a grid, for a player whose cell is
    in the grid, updateMinimap paints the square of this cell and then
    draws the dot with its centre in this square, the edges included. The
    far edges are part of the statement because the dot can be on them
    when the operations of lines 47-48 round
    ([playerMiniMapRounded_closed_square]). *)
Theorem minimap_dot_in_player_cell player maze mazeSize ctx canvasWidth canvasHeight :
  let gridX := worldToGrid mazeSize (vx (position player)) in
  let gridZ := worldToGrid mazeSize (vz (position player)) in
  isGrid mazeSize maze → inBounds mazeSize gridX gridZ →
  ∃ ctx' before style between,
    updateMinimap player maze mazeSize ctx canvasWidth canvasHeight = Ok ctx' ∧
    let dotX := playerMiniMap mazeSize (vx (position player)) in
    let dotY := playerMiniMap mazeSize (vz (position player)) in
    drawn ctx' = before ++ [cellSquare style gridX gridZ] ++ between ++
                 [BeginPath; Arc dotX dotY 4; Fill "red"] ∧
    (inject_Z gridX * 10 <= dotX ∧ dotX <= inject_Z gridX * 10 + 10)%Q ∧
    (inject_Z gridZ * 10 <= dotY ∧ dotY <= inject_Z gridZ * 10 + 10)%Q.
Proof.
  intros gridX gridZ Hg Hin.
  destruct (updateMinimap_grid player maze mazeSize ctx canvasWidth canvasHeight Hg)
    as (rects & Hupd & _ & Hcells).
  destruct (Hg _ _ Hin) as [v Hv]. destruct (Hcells _ _ v Hin Hv) as (s & Hs & _).
  apply list_elem_of_split in Hs as (l1 & l2 & ->).
  eexists _, (drawn ctx ++ [ClearRect 0 0 canvasWidth canvasHeight] ++ l1), s, l2.
  split; [exact Hupd|]. cbv zeta. split.
  - simpl. rewrite <- !app_assoc. simpl. reflexivity.
  - split; apply playerMiniMap_closed_square.
Qed.

Lemma minimap_dot_in_player_cell_witness :
  ∃ ctx' before style between,
    updateMinimap (demoPlayer origin) demoMaze 5 blankContext 50 50 = Ok ctx' ∧
    let dotX := playerMiniMap 5 (vx (position (demoPlayer origin))) in
    let dotY := playerMiniMap 5 (vz (position (demoPlayer origin))) in
    drawn ctx' = before ++ [cellSquare style 3 3] ++ between ++
                 [BeginPath; Arc dotX dotY 4; Fill "red"] ∧
    (inject_Z 3 * 10 <= dotX ∧ dotX <= inject_Z 3 * 10 + 10)%Q ∧
    (inject_Z 3 * 10 <= dotY ∧ dotY <= inject_Z 3 * 10 + 10)%Q.
Proof.
  apply (minimap_dot_in_player_cell (demoPlayer origin) demoMaze 5 blankContext 50 50).
  - exact demoMaze_isGrid.
  - vm_compute. repeat split; discriminate.
Defined.

(** * The frames of animate *)

Lemma animate_total player maze mazeSize :
  isGrid mazeSize maze → ∃ player' events, animate player maze mazeSize = Ok (player', events).
Proof.
  intros Hg. set (pos := position player). set (vel := velocity player).
  destruct (checkCollision_total (add pos vel) maze mazeSize Hg) as (hit & e & Hc).
  destruct (checkCollision_total (shiftX pos vel) maze mazeSize Hg) as (hitX & eX & HcX).
  destruct (checkCollision_total (shiftZ pos vel) maze mazeSize Hg) as (hitZ & eZ & HcZ).
  unfold animate. fold pos vel. rewrite (andThen_Ok _ _ _ _ Hc).
  destruct hit; cbn [negb]; [|eexists _, _; reflexivity].
  rewrite (andThen_Ok _ _ _ _ HcX). destruct hitX; cbn [negb]; [|eexists _, _; reflexivity].
  rewrite (andThen_Ok _ _ _ _ HcZ). destruct hitZ; cbn [negb]; eexists _, _; reflexivity.
Qed.

Lemma animateFrame_open normalize input player maze mazeSize :
  isGrid mazeSize maze →
  standsOpen mazeSize maze (position player) →
  ∃ out events,
    animateFrame normalize input player maze mazeSize = Ok (out, events) ∧
    standsOpen mazeSize maze (position out.1).
Proof.
  intros Hg Hopen. unfold animateFrame.
  destruct (isLocked input || orbitEnabled input).
  - destruct (inputDirection input) as [[x z] turn].
    match goal with |- context [animate ?p maze mazeSize] => set (player1 := p) end.
    destruct (animate_open player1 maze mazeSize Hg Hopen) as (p' & ev & Hstep & Hopen').
    rewrite (andThen_Ok _ _ _ _ Hstep). eexists _, _. split; [reflexivity|exact Hopen'].
  - eexists _, _. split; [reflexivity|exact Hopen].
Qed.

(** X12. On a grid, from a position in a cell that is not a wall, no
    sequence of frames, whatever the keys, the joysticks and the camera
    are at each frame, throws or puts the player in a wall or outside the
    grid. *)
Theorem animateFrames_stay_open normalize inputs player maze mazeSize :
  isGrid mazeSize maze →
  standsOpen mazeSize maze (position player) →
  ∃ player' events,
    animateFrames normalize inputs player maze mazeSize = Ok (player', events) ∧
    standsOpen mazeSize maze (position player').
Proof.
  intros Hg. revert player. induction inputs as [|input rest IH]; intros player Hopen.
  - eexists _, _. split; [reflexivity|exact Hopen].
  - destruct (animateFrame_open normalize input player maze mazeSize Hg Hopen)
      as (out & ev & Hframe & Hopen').
    destruct (IH out.1 Hopen') as (p' & ev' & Hrest & Hopen'').
    cbn [animateFrames]. rewrite (andThen_Ok _ _ _ _ Hframe), Hrest.
    eexists _, _. split; [reflexivity|exact Hopen''].
Qed.

Lemma animateFrames_stay_open_witness :
  ∃ player' events,
    animateFrames axisNormalize
      [demoInput ["w"%string]; demoInput ["w"%string; "d"%string]; demoInput []]
      (demoPlayer origin) demoMaze 5 = Ok (player', events) ∧
    standsOpen 5 demoMaze (position player').
Proof.
  apply (animateFrames_stay_open axisNormalize
           [demoInput ["w"%string]; demoInput ["w"%string; "d"%string]; demoInput []]
           (demoPlayer origin) demoMaze 5).
  - exact demoMaze_isGrid.
  - split.
    + vm_compute. repeat split; discriminate.
    + exists 0. split; [vm_compute; reflexivity|discriminate].
Defined.

Lemma inputDirection_noNetInput input :
  noNetInput input →
  ((inputDirection input).1.1 == 0)%Q ∧ ((inputDirection input).1.2 == 0)%Q.
Proof.
  unfold noNetInput, inputDirection. cbv zeta.
  destruct (String.eqb (cameraMode input) "first-person"); cbn [andb].
  - intros [Hz Hx].
    destruct (keyDown (keys input) "w" || _), (keyDown (keys input) "s" || _);
      try discriminate Hz;
      destruct (keyDown (keys input) "a" || _), (keyDown (keys input) "d" || _);
      try discriminate Hx; simpl; split; reflexivity.
  - rewrite !orb_false_r. intros [Hz Hx].
    destruct (keyDown (keys input) "w"), (keyDown (keys input) "s");
      try discriminate Hz;
      destruct (keyDown (keys input) "a"), (keyDown (keys input) "d");
      try discriminate Hx; simpl; split; reflexivity.
Qed.

Lemma blockedAt_free maze mazeSize p e :
  checkCollision p maze mazeSize = Ok (false, e) → ¬ blockedAt maze mazeSize p.
Proof. intros H [e' H']. rewrite H in H'. discriminate. Qed.

(** X13. A frame that runs without a net direction asked (no movement key
    and the left joystick at rest, or opposite keys together) only damps
    the velocity, by 5/6 along x and z, and moves with it: when the three
    candidate positions of the damped velocity are blocked the player ends
    the frame where it was, with the velocity zero; otherwise it ends the
    frame with the damped velocity, at one of the three candidates, one
    that is not blocked. *)
Theorem animateFrame_without_input normalize input player maze mazeSize :
  keepsZeros normalize → noNetInput input →
  isLocked input || orbitEnabled input = true →
  isGrid mazeSize maze →
  let pos := position player in
  let vel := damped (velocity player) in
  ∃ player' turn events,
    animateFrame normalize input player maze mazeSize = Ok ((player', turn), events) ∧
    (vx vel == vx (velocity player) * (5 # 6) ∧ vy vel = vy (velocity player) ∧
     vz vel == vz (velocity player) * (5 # 6))%Q ∧
    ((allBlocked maze mazeSize pos vel ∧
      velocity player' = {| vx := 0; vy := 0; vz := 0 |} ∧ position player' = pos) ∨
     (¬ allBlocked maze mazeSize pos vel ∧
      velocity player' = vel ∧
      position player' ∈ [add pos vel; shiftX pos vel; shiftZ pos vel] ∧
      ¬ blockedAt maze mazeSize (position player'))).
Proof.
  intros Hn Hinput Hruns Hg pos vel. unfold animateFrame. rewrite Hruns.
  pose proof (inputDirection_noNetInput input Hinput) as [Hx Hz].
  destruct (inputDirection input) as [[x z] turn]. simpl in Hx, Hz.
  set (direction1 := normalize {| vx := x; vy := vy (direction player); vz := z |}).
  destruct (Hn {| vx := x; vy := vy (direction player); vz := z |}) as [Hnx Hnz].
  fold direction1 in Hnx, Hnz. simpl in Hnx, Hnz.
  rewrite (proj2 (Qeq_bool_iff _ _) (Hnz Hz)), (proj2 (Qeq_bool_iff _ _) (Hnx Hx)).
  cbn [negb]. fold pos vel.
  match goal with |- context [animate ?p maze mazeSize] => set (player1 := p) end.
  destruct (animate_total player1 maze mazeSize Hg) as (p' & ev & Hstep).
  rewrite (andThen_Ok _ _ _ _ Hstep). exists p', turn, (ev ++ []).
  split; [reflexivity|]. split.
  { unfold vel, damped. simpl. repeat split; field. }
  apply animate_cases in Hstep. cbv zeta in Hstep.
  change (position player1) with pos in Hstep. change (velocity player1) with vel in Hstep.
  destruct Hstep as (e & [(Hc & -> & _)|(Hc & eX & [(HcX & -> & _)|(HcX & eZ & [(HcZ & -> & _)|(HcZ & -> & _)])])]).
  - right. pose proof (blockedAt_free _ _ _ _ Hc) as Hfree.
    split; [intros (Hb & _); contradiction|]. split; [reflexivity|].
    split; [simpl; left|exact Hfree].
  - right. pose proof (blockedAt_free _ _ _ _ HcX) as Hfree.
    split; [intros (_ & Hb & _); contradiction|]. split; [reflexivity|].
    split; [simpl; right; left|exact Hfree].
  - right. pose proof (blockedAt_free _ _ _ _ HcZ) as Hfree.
    split; [intros (_ & _ & Hb); contradiction|]. split; [reflexivity|].
    split; [simpl; right; right; left|exact Hfree].
  - left. split; [|split; reflexivity].
    split; [|split]; eexists; eassumption.
Qed.

Lemma animateFrame_without_input_witness :
  ∃ player' turn events,
    animateFrame axisNormalize (demoInput ["w"%string; "s"%string]) (demoPlayer alongWall)
      demoMaze 5 = Ok ((player', turn), events) ∧
    (vx (damped alongWall) == vx alongWall * (5 # 6) ∧ vy (damped alongWall) = vy alongWall ∧
     vz (damped alongWall) == vz alongWall * (5 # 6))%Q ∧
    ((allBlocked demoMaze 5 (position (demoPlayer alongWall)) (damped alongWall) ∧
      velocity player' = {| vx := 0; vy := 0; vz := 0 |} ∧
      position player' = position (demoPlayer alongWall)) ∨
     (¬ allBlocked demoMaze 5 (position (demoPlayer alongWall)) (damped alongWall) ∧
      velocity player' = damped alongWall ∧
      position player' ∈ [add (position (demoPlayer alongWall)) (damped alongWall);
                          shiftX (position (demoPlayer alongWall)) (damped alongWall);
                          shiftZ (position (demoPlayer alongWall)) (damped alongWall)] ∧
      ¬ blockedAt demoMaze 5 (position player'))).
Proof.
  apply (animateFrame_without_input axisNormalize (demoInput ["w"%string; "s"%string])
           (demoPlayer alongWall) demoMaze 5).
  - intros v. unfold axisNormalize. auto.
  - vm_compute. split; reflexivity.
  - reflexivity.
  - exact demoMaze_isGrid.
Defined.

(** * The maze spans the grid *)

Lemma evolves_wallsAndPaths mazeSize maze maze' :
  evolves maze maze' → wallsAndPaths mazeSize maze → wallsAndPaths mazeSize maze'.
Proof.
  intros He Hc x y Hb. destruct (He x y) as [Hs|Hp]; [|auto].
  unfold cellIs in *. rewrite Hs. apply Hc, Hb.
Qed.

Lemma settledAt_evolves mazeSize maze maze' x y :
  evolves maze maze' → settledAt mazeSize maze x y → settledAt mazeSize maze' x y.
Proof. intros He Hs d Hd Hb. eapply evolves_path; eauto. Qed.

Lemma unitStep_directions d : unitStep d → d ∈ directions.
Proof.
  destruct d as [a b]. unfold unitStep, directions. simpl.
  intros [[-> [-> | ->]]|[-> [-> | ->]]]; repeat constructor.
Qed.

Lemma mid_not_node mazeSize cx cy d :
  unitStep d → ¬ isNode mazeSize cx cy (cx + dx d) (cy + dy d).
Proof.
  unfold unitStep, isNode. intros Hd (_ & Hx & Hy).
  Z.to_euclidean_division_equations. lia.
Qed.

Lemma next_isNode mazeSize cx cy d x y :
  isNode mazeSize (cx + dx d * 2) (cy + dy d * 2) x y ↔ isNode mazeSize cx cy x y.
Proof. unfold isNode. rewrite !Z.mod_add by lia. reflexivity. Qed.

Lemma forDirections_settles carve mazeSize cx cy :
  (∀ x y g r st', wallsAndPaths mazeSize g → inBounds mazeSize x y →
                  carve x y (g, r) = Ok st' → settles mazeSize x y g st'.1) →
  (∀ x y st st', carve x y st = Ok st' → evolves st.1 st'.1) →
  (∀ x y st st', carve x y st = Ok st' → cellIs st'.1 x y PATH) →
  ∀ ds st st',
    Forall unitStep ds → wallsAndPaths mazeSize st.1 →
    forDirections carve mazeSize cx cy ds st = Ok st' →
    settles mazeSize cx cy st.1 st'.1 ∧
    ∀ d, d ∈ ds → inBounds mazeSize (cx + dx d * 2) (cy + dy d * 2) →
         cellIs st'.1 (cx + dx d * 2) (cy + dy d * 2) PATH.
Proof.
  intros Hcarve He Hstart. induction ds as [|d rest IH]; intros st st' Hds Hcodes.
  - intros [= <-]. split.
    + intros x y _ Hw Hp. unfold cellIs, WALL, PATH in *. congruence.
    + intros d Hd. inversion Hd.
  - inversion Hds as [|? ? Hd Hrest]; subst. cbn [forDirections]. intros H.
    apply bind_Ok_inv in H as (st1 & Hstep & H).
    assert (Hone : evolves st.1 st1.1 ∧ settles mazeSize cx cy st.1 st1.1 ∧
                   (inBounds mazeSize (cx + dx d * 2) (cy + dy d * 2) →
                    cellIs st1.1 (cx + dx d * 2) (cy + dy d * 2) PATH)).
    { assert (Hsame : evolves st.1 st.1 ∧ settles mazeSize cx cy st.1 st.1).
      { split; [apply evolves_refl|]. intros x y _ Hw Hp.
        unfold cellIs, WALL, PATH in *. congruence. }
      destruct (_ && _) eqn:Hguard.
      - apply guard_inBounds in Hguard.
        apply bind_Ok_inv in Hstep as (c & Hget & Hstep).
        destruct (strictEq c 1) eqn:Hc1.
        + apply bind_Ok_inv in Hstep as (g & Hset & Hstep).
          pose proof (evolves_setCell _ _ _ _ Hset) as Hev.
          pose proof (He _ _ _ _ Hstep) as Hev1. simpl in Hev1.
          split; [eapply evolves_trans; eauto|]. split.
          * intros x y Hnode Hw Hp.
            apply (Hcarve _ _ _ _ _ (evolves_wallsAndPaths _ _ _ Hev Hcodes) Hguard Hstep);
              [apply next_isNode; exact Hnode| |exact Hp].
            unfold cellIs. rewrite (setCell_other _ _ _ _ _ _ _ Hset); [exact Hw|].
            intros [= -> ->]. revert Hnode. apply mid_not_node. exact Hd.
          * intros _. apply (Hstart _ _ _ _ Hstep).
        + injection Hstep as <-. destruct Hsame as [Hr Hs]. split; [exact Hr|].
          split; [exact Hs|]. intros _.
          destruct (Hcodes _ _ Hguard) as [Hw|Hp]; [|exact Hp].
          unfold cellIs in Hw. rewrite Hw in Hget. injection Hget as <-. discriminate.
      - injection Hstep as <-. destruct Hsame as [Hr Hs]. split; [exact Hr|].
        split; [exact Hs|]. intros Hin. apply guard_inBounds in Hin. congruence. }
    destruct Hone as (Hev1 & Hset1 & Hnext1).
    pose proof (evolves_wallsAndPaths _ _ _ Hev1 Hcodes) as Hcodes1.
    pose proof (forDirections_evolves _ _ _ _ _ He _ _ H) as Hev2.
    destruct (IH st1 st' Hrest Hcodes1 H) as [Hset2 Hnext2]. split.
    + intros x y Hnode Hw Hp. destruct Hnode as [Hb Hpar].
      destruct (Hcodes1 x y Hb) as [Hw1|Hp1].
      * apply Hset2; auto. split; auto.
      * eapply settledAt_evolves; [exact Hev2|]. apply Hset1; auto. split; auto.
    + intros d' Hd' Hin. apply elem_of_cons in Hd' as [->|Hd'].
      * eapply evolves_path; [exact Hev2|]. apply Hnext1, Hin.
      * apply Hnext2; auto.
Qed.

Lemma carvePath_settles fuel mazeSize :
  ∀ cx cy g r st',
    wallsAndPaths mazeSize g → inBounds mazeSize cx cy →
    carvePath fuel mazeSize cx cy (g, r) = Ok st' → settles mazeSize cx cy g st'.1.
Proof.
  induction fuel as [|fuel IH]; intros cx cy g r st' Hcodes Hb; [discriminate|].
  rewrite carvePath_S. simpl fst. simpl snd. intros H.
  apply bind_Ok_inv in H as (g1 & Hset & H).
  pose proof (shuffleDirections_unit r) as Hunit.
  assert (Hall : ∀ d, d ∈ directions → d ∈ (shuffleDirections r).1)
    by (intros d; apply shuffle_elem_of).
  destruct (shuffleDirections r) as [ds r1]. simpl in Hunit, Hall.
  pose proof (evolves_setCell _ _ _ _ Hset) as Hev.
  destruct (forDirections_settles (carvePath fuel mazeSize) mazeSize cx cy IH
              (carvePath_evolves fuel mazeSize) (carvePath_start fuel mazeSize)
              ds (g1, r1) st' Hunit (evolves_wallsAndPaths _ _ _ Hev Hcodes) H)
    as [Hsettles Hnext]. simpl in Hsettles.
  intros x y Hnode Hw Hp. destruct (decide ((x, y) = (cx, cy))) as [[= -> ->]|Hne].
  - intros d Hd Hin. apply Hnext; [|exact Hin]. apply Hall, unitStep_directions, Hd.
  - apply Hsettles; auto. unfold cellIs.
    rewrite (setCell_other _ _ _ _ _ _ _ Hset Hne). exact Hw.
Qed.

(** From a settled start, by settled nodes, every node is reached. *)
Lemma settled_nodes_all mazeSize maze startX startY :
  cellIs maze startX startY PATH →
  (∀ x y, isNode mazeSize startX startY x y → cellIs maze x y PATH →
          settledAt mazeSize maze x y) →
  inBounds mazeSize startX startY →
  ∀ (n : nat) x y,
    isNode mazeSize startX startY x y →
    Z.abs (x - startX) + Z.abs (y - startY) ≤ 2 * Z.of_nat n →
    cellIs maze x y PATH.
Proof.
  intros Hstart Hsettled Hb. induction n as [|n IH]; intros x y Hnode Hdist.
  - assert (x = startX ∧ y = startY) as [-> ->] by lia. exact Hstart.
  - destruct (decide (x = startX)) as [->|Hx].
    + destruct (decide (y = startY)) as [->|Hy]; [exact Hstart|].
      destruct Hnode as ([Hbx Hby] & Hpx & Hpy). destruct Hb as [Hsx Hsy].
      set (s := if decide (startY < y) then 1 else -1).
      assert (Hs : s = 1 ∧ startY < y ∨ s = -1 ∧ y < startY)
        by (unfold s; destruct (decide (startY < y)); lia).
      clearbody s.
      assert (Hprev : cellIs maze startX (y - s * 2) PATH).
      { apply IH.
        - unfold isNode, inBounds. repeat split; Z.to_euclidean_division_equations; lia.
        - Z.to_euclidean_division_equations. lia. }
      pose proof (Hsettled startX (y - s * 2)) as Hset.
      specialize (Hset ltac:(unfold isNode, inBounds; repeat split;
                             Z.to_euclidean_division_equations; lia) Hprev
                       {| dx := 0; dy := s |}).
      simpl in Hset. replace (startX + 0 * 2) with startX in Hset by lia.
      replace (y - s * 2 + s * 2) with y in Hset by lia.
      apply Hset; [unfold unitStep; simpl; lia|unfold inBounds; lia].
    + destruct Hnode as ([Hbx Hby] & Hpx & Hpy). destruct Hb as [Hsx Hsy].
      set (s := if decide (startX < x) then 1 else -1).
      assert (Hs : s = 1 ∧ startX < x ∨ s = -1 ∧ x < startX)
        by (unfold s; destruct (decide (startX < x)); lia).
      clearbody s.
      assert (Hprev : cellIs maze (x - s * 2) y PATH).
      { apply IH.
        - unfold isNode, inBounds. repeat split; Z.to_euclidean_division_equations; lia.
        - Z.to_euclidean_division_equations. lia. }
      pose proof (Hsettled (x - s * 2) y) as Hset.
      specialize (Hset ltac:(unfold isNode, inBounds; repeat split;
                             Z.to_euclidean_division_equations; lia) Hprev
                       {| dx := s; dy := 0 |}).
      simpl in Hset. replace (y + 0 * 2) with y in Hset by lia.
      replace (x - s * 2 + s * 2) with x in Hset by lia.
      apply Hset; [unfold unitStep; simpl; lia|unfold inBounds; lia].
Qed.

Lemma carvePath_spans fuel mazeSize mazeArray startX startY r st' :
  inBounds mazeSize startX startY →
  carvePath fuel mazeSize startX startY (fillWalls mazeSize mazeArray, r) = Ok st' →
  ∀ x y, isNode mazeSize startX startY x y → cellIs st'.1 x y PATH.
Proof.
  intros Hb H x y Hnode.
  assert (Hcodes : wallsAndPaths mazeSize (fillWalls mazeSize mazeArray)).
  { intros a b Hab. left. apply fillWalls_wall, Hab. }
  pose proof (carvePath_settles _ _ _ _ _ _ _ Hcodes Hb H) as Hsettles. simpl in Hsettles.
  apply (settled_nodes_all mazeSize st'.1 startX startY) with
    (n := Z.to_nat (Z.abs (x - startX) + Z.abs (y - startY))); auto.
  - eapply carvePath_start; eauto.
  - intros a b Hab Hp. apply Hsettles; auto. apply fillWalls_wall. apply Hab.
  - lia.
Qed.

(** X14. The maze spans the grid: for every size and every start cell of the
    grid, each cell of the returned grid whose coordinates have the parity
    of the coordinates of the start is a path or the exit. *)
Theorem generateMaze_spans fuel mazeSize mazeArray exitPosVector startX startY rng
    maze exitPos rng' :
  inBounds mazeSize startX startY →
  generateMaze fuel mazeSize mazeArray exitPosVector startX startY rng
    = Ok (maze, exitPos, rng') →
  ∀ x y, inBounds mazeSize x y →
         x mod 2 = startX mod 2 → y mod 2 = startY mod 2 →
         openCell mazeSize maze (x, y).
Proof.
  intros Hb H x y Hxy Hpx Hpy.
  apply generateMaze_Ok in H as (g1 & r1 & ex & ey & Hcarve & Hp & _ & Hset & _).
  apply (openCell_exit mazeSize g1 ex ey maze (x, y) Hp Hset).
  split; [exact Hxy|]. left. simpl.
  apply (carvePath_spans _ _ _ _ _ _ _ Hb Hcarve). unfold isNode. auto.
Qed.

Lemma generateMaze_spans_witness :
  inBounds 5 1 1 ∧ inBounds 5 3 3 ∧ openCell 5 demoMaze (3, 3).
Proof.
  assert (Hstart : inBounds 5 1 1) by (unfold inBounds; lia).
  assert (Hcell : inBounds 5 3 3) by (unfold inBounds; lia).
  split; [exact Hstart|]. split; [exact Hcell|].
  apply (generateMaze_spans 16 5 ∅ origin 1 1 demoRng demoMaze demoExit demoRng'
           Hstart demoRun_returns 3 3 Hcell); reflexivity.
Defined.

(** ** The number of open cells *)

Lemma filter_length_eq {A} (P Q : A → Prop) `{∀ x, Decision (P x)} `{∀ x, Decision (Q x)}
    (l : list A) :
  (∀ x, x ∈ l → (P x ↔ Q x)) → length (filter P l) = length (filter Q l).
Proof.
  intros HPQ. apply Nat.le_antisymm; apply filter_length_le; intros x Hx; apply HPQ, Hx.
Qed.

Lemma filter_length_S {A} (P Q : A → Prop) `{∀ x, Decision (P x)} `{∀ x, Decision (Q x)}
    (l : list A) a :
  NoDup l → a ∈ l → Q a → ¬ P a → (∀ x, x ∈ l → x ≠ a → (P x ↔ Q x)) →
  length (filter Q l) = S (length (filter P l)).
Proof.
  induction l as [|b l IH]; intros Hnd Ha Hq Hp HPQ; [inversion Ha|].
  apply NoDup_cons in Hnd as [Hb Hnd]. rewrite !filter_cons.
  apply elem_of_cons in Ha as [<-|Ha].
  - rewrite decide_True, decide_False by assumption. simpl. f_equal. symmetry.
    apply filter_length_eq. intros x Hx. apply HPQ; [right; exact Hx|].
    intros ->. contradiction.
  - assert (Hne : b ≠ a) by (intros ->; contradiction).
    assert (IH' : length (filter Q l) = S (length (filter P l))).
    { apply IH; auto. intros x Hx. apply HPQ. right. exact Hx. }
    assert (Hb' : P b ↔ Q b) by (apply HPQ; [left|exact Hne]).
    destruct (decide (P b)) as [Hpb|Hpb].
    + rewrite decide_True by (apply Hb', Hpb). simpl. lia.
    + rewrite decide_False by (intros Hqb; apply Hpb, Hb', Hqb). exact IH'.
Qed.

Lemma filter_length_all {A} (P : A → Prop) `{∀ x, Decision (P x)} (l : list A) :
  (∀ x, x ∈ l → P x) → length (filter P l) = length l.
Proof.
  induction l as [|a l IH]; intros Hall; [reflexivity|].
  rewrite filter_cons, decide_True by (apply Hall; left). simpl. f_equal.
  apply IH. intros x Hx. apply Hall. right. exact Hx.
Qed.

Lemma filter_length_none {A} (P : A → Prop) `{∀ x, Decision (P x)} (l : list A) :
  (∀ x, x ∈ l → ¬ P x) → length (filter P l) = 0%nat.
Proof.
  induction l as [|a l IH]; intros Hall; [reflexivity|].
  rewrite filter_cons, decide_False by (apply Hall; left).
  apply IH. intros x Hx. apply Hall. right. exact Hx.
Qed.

Lemma NoDup_list_prod {A B} (l : list A) (k : list B) :
  NoDup l → NoDup k → NoDup (list_prod l k).
Proof.
  intros Hl Hk. induction Hl as [|a l Ha Hl IH]; [constructor|].
  simpl. apply NoDup_app. split; [|split; [|exact IH]].
  - apply (NoDup_fmap_2 _). exact Hk.
  - intros [a' b] H1 H2. apply list_elem_of_fmap in H1 as (b' & [= -> ->] & _).
    apply list_elem_of_In, in_prod_iff in H2 as [H2 _]. apply Ha, list_elem_of_In, H2.
Qed.

Lemma NoDup_allCells mazeSize : NoDup (allCells mazeSize).
Proof. apply NoDup_list_prod; apply NoDup_seqZ. Qed.

Lemma NoDup_nodes mazeSize cx cy : NoDup (nodes mazeSize cx cy).
Proof. apply NoDup_list_prod; apply NoDup_filter, NoDup_seqZ. Qed.

(** Marking one wall of the grid takes exactly one off the count. *)
Lemma wallCount_setCell_S mazeSize maze x y maze' :
  inBounds mazeSize x y → cellIs maze x y WALL →
  setCell maze y x PATH = Ok maze' →
  wallCount mazeSize maze = S (wallCount mazeSize maze').
Proof.
  intros Hb Hw Hset. apply (filter_length_S _ _ _ (x, y)).
  - apply NoDup_allCells.
  - apply elem_of_allCells, Hb.
  - exact Hw.
  - simpl. intros Hw'. apply setCell_same in Hset.
    unfold cellIs, PATH, WALL in *. congruence.
  - intros [a b] _ Hne. simpl. unfold cellIs.
    rewrite (setCell_other _ _ _ _ _ b a Hset) by exact Hne. reflexivity.
Qed.

Lemma wallNodes_setCell_node mazeSize cx cy maze x y maze' :
  isNode mazeSize cx cy x y → cellIs maze x y WALL →
  setCell maze y x PATH = Ok maze' →
  wallNodes mazeSize cx cy maze = S (wallNodes mazeSize cx cy maze').
Proof.
  intros Hn Hw Hset. apply (filter_length_S _ _ _ (x, y)).
  - apply NoDup_nodes.
  - apply elem_of_nodes, Hn.
  - exact Hw.
  - simpl. intros Hw'. apply setCell_same in Hset.
    unfold cellIs, PATH, WALL in *. congruence.
  - intros [a b] _ Hne. simpl. unfold cellIs.
    rewrite (setCell_other _ _ _ _ _ b a Hset) by exact Hne. reflexivity.
Qed.

Lemma wallNodes_setCell_other mazeSize cx cy maze x y v maze' :
  ¬ isNode mazeSize cx cy x y →
  setCell maze y x v = Ok maze' →
  wallNodes mazeSize cx cy maze' = wallNodes mazeSize cx cy maze.
Proof.
  intros Hn Hset. apply filter_length_eq. intros [a b] Hab. simpl. unfold cellIs.
  rewrite (setCell_other _ _ _ _ _ b a Hset); [reflexivity|].
  intros [= -> ->]. apply Hn, elem_of_nodes, Hab.
Qed.

Lemma wallCount_fillWalls mazeSize mazeArray :
  wallCount mazeSize (fillWalls mazeSize mazeArray) = (Z.to_nat mazeSize * Z.to_nat mazeSize)%nat.
Proof.
  unfold wallCount. rewrite filter_length_all.
  - unfold allCells. rewrite length_prod, !length_seqZ. reflexivity.
  - intros [x y] Hxy. simpl. apply fillWalls_wall, elem_of_allCells, Hxy.
Qed.

Lemma wallNodes_fillWalls mazeSize cx cy mazeArray :
  wallNodes mazeSize cx cy (fillWalls mazeSize mazeArray) = length (nodes mazeSize cx cy).
Proof.
  unfold wallNodes. apply filter_length_all.
  intros [x y] Hxy. simpl. apply fillWalls_wall. apply elem_of_nodes in Hxy. apply Hxy.
Qed.

Lemma wallNodes_none mazeSize cx cy maze :
  (∀ x y, isNode mazeSize cx cy x y → cellIs maze x y PATH) →
  wallNodes mazeSize cx cy maze = 0%nat.
Proof.
  intros Hall. unfold wallNodes. apply filter_length_none.
  intros [x y] Hxy. simpl. intros Hw.
  apply elem_of_nodes in Hxy. apply Hall in Hxy.
  unfold cellIs, PATH, WALL in *. congruence.
Qed.

(** The two nodes a passage lies between. *)
Lemma passage_ends cx cy d x y e :
  unitStep d → unitStep e → x mod 2 = cx mod 2 → y mod 2 = cy mod 2 →
  x + dx e = cx + dx d → y + dy e = cy + dy d →
  (x = cx ∧ y = cy ∧ dx e = dx d ∧ dy e = dy d) ∨
  (x = cx + dx d * 2 ∧ y = cy + dy d * 2 ∧ dx e = - dx d ∧ dy e = - dy d).
Proof.
  unfold unitStep. intros Hd He Hx Hy H1 H2.
  Z.to_euclidean_division_equations. lia.
Qed.

Lemma wallNodes_parity mazeSize cx cy sx sy maze :
  cx mod 2 = sx mod 2 → cy mod 2 = sy mod 2 →
  wallNodes mazeSize cx cy maze = wallNodes mazeSize sx sy maze.
Proof. unfold wallNodes, nodes. intros -> ->. reflexivity. Qed.

Lemma carvesTree_passage mazeSize sx sy w n maze cx cy d g1 g2 :
  isGrid mazeSize maze → carvesTree mazeSize sx sy w n maze →
  inBounds mazeSize cx cy → cx mod 2 = sx mod 2 ∧ cy mod 2 = sy mod 2 →
  cellIs maze cx cy PATH →
  unitStep d →
  inBounds mazeSize (cx + dx d * 2) (cy + dy d * 2) →
  cellIs maze (cx + dx d * 2) (cy + dy d * 2) WALL →
  setCell maze (cy + dy d) (cx + dx d) PATH = Ok g1 →
  setCell g1 (cy + dy d * 2) (cx + dx d * 2) PATH = Ok g2 →
  carvesTree mazeSize sx sy w n g2 ∧
  ((cx + dx d * 2) mod 2 = sx mod 2 ∧ (cy + dy d * 2) mod 2 = sy mod 2).
Proof.
  intros Hg (Hcodes & Hloose & Hcount) Hb [Hpx Hpy] Hp Hd Hn Hw Hs1 Hs2.
  assert (Hcur : isNode mazeSize sx sy cx cy) by (unfold isNode; auto).
  assert (Hnext : isNode mazeSize sx sy (cx + dx d * 2) (cy + dy d * 2)).
  { unfold isNode. rewrite !Z.mod_add by lia. auto. }
  pose proof (mid_inBounds _ _ _ _ Hd Hb Hn) as Hmb.
  pose proof (evolves_setCell _ _ _ _ Hs1) as He1.
  pose proof (evolves_setCell _ _ _ _ Hs2) as He2.
  assert (Hmw : cellIs maze (cx + dx d) (cy + dy d) WALL).
  { destruct (Hcodes _ _ Hmb) as [|Hmp]; [assumption|].
    pose proof (Hloose cx cy d Hcur Hd Hn Hmp) as Hnp.
    unfold cellIs, PATH, WALL in *. congruence. }
  assert (Hmn : ¬ isNode mazeSize sx sy (cx + dx d) (cy + dy d)).
  { intros Hm. apply (mid_not_node mazeSize cx cy d Hd).
    destruct Hm as (Hbm & Hmx & Hmy). split; [exact Hbm|]. rewrite Hpx, Hpy. auto. }
  assert (Hw1 : cellIs g1 (cx + dx d * 2) (cy + dy d * 2) WALL).
  { unfold cellIs. rewrite (setCell_other _ _ _ _ _ _ _ Hs1); auto. apply mid_next_ne; auto. }
  split; [|destruct Hnext as (_ & ? & ?); auto].
  split; [|split].
  - eapply evolves_wallsAndPaths; [exact He2|].
    eapply evolves_wallsAndPaths; [exact He1|assumption].
  - intros x y e Hxy He Hfar Hpass.
    destruct (decide ((x + dx e, y + dy e) = (cx + dx d, cy + dy d))) as [[= Hx Hy]|Hne].
    + destruct Hxy as (_ & Hxp & Hyp).
      destruct (passage_ends cx cy d x y e Hd He) as [(-> & -> & Ha & Hb')|(-> & -> & Ha & Hb')];
        try congruence.
      * rewrite Ha, Hb'. eapply setCell_same; eauto.
      * replace (cx + dx d * 2 + dx e * 2) with cx by lia.
        replace (cy + dy d * 2 + dy e * 2) with cy by lia.
        eapply evolves_path; [exact He2|]. eapply evolves_path; [exact He1|assumption].
    + eapply evolves_path; [exact He2|]. eapply evolves_path; [exact He1|].
      apply (Hloose x y e Hxy He Hfar).
      unfold cellIs in *.
      rewrite (setCell_other _ _ _ _ _ _ _ Hs2) in Hpass.
      * rewrite (setCell_other _ _ _ _ _ _ _ Hs1) in Hpass; assumption.
      * intros [= Hx Hy]. apply (mid_not_node mazeSize x y e He).
        unfold isNode in *. rewrite Hx, Hy, !Z.mod_add by lia.
        split; [apply Hn|]. destruct Hxy as (_ & -> & ->). auto.
  - pose proof (wallCount_setCell_S mazeSize _ _ _ _ Hmb Hmw Hs1) as Hc1.
    pose proof (wallCount_setCell_S mazeSize _ _ _ _ Hn Hw1 Hs2) as Hc2.
    pose proof (wallNodes_setCell_other mazeSize sx sy _ _ _ _ _ Hmn Hs1) as Hn1.
    pose proof (wallNodes_setCell_node mazeSize sx sy _ _ _ _ Hnext Hw1 Hs2) as Hn2.
    lia.
Qed.

Lemma carvePath_carvesTree fuel mazeSize mazeArray startX startY r st' :
  inBounds mazeSize startX startY →
  carvePath fuel mazeSize startX startY (fillWalls mazeSize mazeArray, r) = Ok st' →
  (wallCount mazeSize st'.1 + 2 * length (nodes mazeSize startX startY)
   = Z.to_nat mazeSize * Z.to_nat mazeSize + 1)%nat.
Proof.
  intros Hb H. destruct (carvePath_first _ _ _ _ _ _ H) as (g1 & Hset & _).
  simpl in Hset.
  pose proof (fillWalls_wall mazeSize mazeArray _ _ Hb) as Hw.
  assert (Hstart : isNode mazeSize startX startY startX startY) by (unfold isNode; auto).
  pose proof (wallCount_setCell_S mazeSize _ _ _ _ Hb Hw Hset) as Hw1.
  pose proof (wallNodes_setCell_node mazeSize startX startY _ _ _ _ Hstart Hw Hset) as Hn1.
  rewrite wallCount_fillWalls in Hw1. rewrite wallNodes_fillWalls in Hn1.
  assert (Htree : carvesTree mazeSize startX startY (wallCount mazeSize g1)
                    (wallNodes mazeSize startX startY g1) st'.1).
  { apply (carvePath_inv mazeSize
             (carvesTree mazeSize startX startY (wallCount mazeSize g1)
                (wallNodes mazeSize startX startY g1))
             (λ x y, x mod 2 = startX mod 2 ∧ y mod 2 = startY mod 2))
      with (fuel := fuel) (cx := startX) (cy := startY)
           (maze := fillWalls mazeSize mazeArray) (r := r) (g1 := g1); auto.
    - intros maze cx cy d h1 h2. apply carvesTree_passage.
    - apply fillWalls_isGrid.
    - split; [|split; [|lia]].
      + eapply evolves_wallsAndPaths; [eapply evolves_setCell; eauto|].
        intros a b Hab. left. apply fillWalls_wall, Hab.
      + intros x y d Hxy Hd Hfar Hpass. exfalso.
        unfold cellIs in Hpass. rewrite (setCell_get _ _ _ _ _ _ _ Hset) in Hpass.
        destruct (decide _) as [[Hy Hx]|_].
        * apply (mid_not_node mazeSize x y d Hd). rewrite Hx, Hy.
          split; [exact Hb|]. destruct Hxy as (_ & -> & ->). auto.
        * assert (Hm : inBounds mazeSize (x + dx d) (y + dy d)).
          { apply mid_inBounds; auto. apply Hxy. }
          pose proof (fillWalls_wall mazeSize mazeArray _ _ Hm) as Hmw.
          unfold cellIs, PATH, WALL in *. congruence. }
  destruct Htree as (_ & _ & Hcount).
  rewrite (wallNodes_none mazeSize startX startY st'.1) in Hcount
    by (apply (carvePath_spans _ _ _ _ _ _ _ Hb H)).
  lia.
Qed.

Lemma openCount_wallCount mazeSize maze :
  (∀ x y, inBounds mazeSize x y →
          cellIs maze x y WALL ∨ cellIs maze x y PATH ∨ cellIs maze x y EXIT) →
  (openCount mazeSize maze + wallCount mazeSize maze
   = Z.to_nat mazeSize * Z.to_nat mazeSize)%nat.
Proof.
  intros Hcodes. unfold openCount, wallCount.
  pose proof (filter_app_complement (λ c, cellIs maze c.1 c.2 WALL) (allCells mazeSize)) as Hperm.
  apply Permutation_length in Hperm. rewrite length_app in Hperm.
  rewrite (filter_length_eq (openCell mazeSize maze) (λ c, ¬ cellIs maze c.1 c.2 WALL)).
  - rewrite Nat.add_comm, Hperm. unfold allCells.
    rewrite length_prod, !length_seqZ. reflexivity.
  - intros [x y] Hxy. apply elem_of_allCells in Hxy. unfold openCell. simpl. split.
    + intros [_ [Hp|Hp]] Hw; unfold cellIs, PATH, EXIT, WALL in *; congruence.
    + intros Hnw. split; [exact Hxy|]. destruct (Hcodes _ _ Hxy) as [|]; tauto.
Qed.

(** X15. For every size and every start cell of the grid, the grid that
    generateMaze returns has exactly 2n - 1 cells that are not walls, n
    the number of cells of the grid whose coordinates have the parity of
    the coordinates of the start: these n cells, and n - 1 cells between
    them, one passage for each of them but the start. *)
Theorem generateMaze_open_count fuel mazeSize mazeArray exitPosVector startX startY rng
    maze exitPos rng' :
  inBounds mazeSize startX startY →
  generateMaze fuel mazeSize mazeArray exitPosVector startX startY rng
    = Ok (maze, exitPos, rng') →
  (openCount mazeSize maze + 1 = 2 * length (nodes mazeSize startX startY))%nat.
Proof.
  intros Hb H.
  destruct (generateMaze_Ok _ _ _ _ _ _ _ _ _ _ H)
    as (g1 & r1 & ex & ey & Hcarve & Hex & _ & Hset & _ & _).
  pose proof (carvePath_carvesTree _ _ _ _ _ _ _ Hb Hcarve) as Hwalls. simpl in Hwalls.
  assert (Hsame : wallCount mazeSize maze = wallCount mazeSize g1).
  { apply filter_length_eq. intros [x y] _. simpl. unfold cellIs.
    rewrite (setCell_get _ _ _ _ _ y x Hset).
    destruct (decide _) as [[-> ->]|_]; [|reflexivity].
    unfold cellIs, PATH, EXIT, WALL in *. split; congruence. }
  assert (Hopen : (openCount mazeSize maze + wallCount mazeSize maze
                   = Z.to_nat mazeSize * Z.to_nat mazeSize)%nat).
  { apply openCount_wallCount. intros x y Hxy. unfold cellIs.
    rewrite (setCell_get _ _ _ _ _ y x Hset).
    destruct (decide _) as [_|_]; [auto|].
    destruct (carvePath_codes _ _ _ _ _ _ _ x y Hcarve Hxy); auto. }
  lia.
Qed.

Lemma generateMaze_open_count_witness :
  (openCount 5 demoMaze + 1 = 2 * length (nodes 5 1 1))%nat.
Proof.
  apply (generateMaze_open_count 16 5 ∅ origin 1 1 demoRng demoMaze demoExit demoRng').
  - unfold inBounds. lia.
  - exact demoRun_returns.
Defined.
